(** * blink_idl_diff: the aggregation engine of [collect_idls_into_json.py]

    A shallow embedding of the record extractor, the partial merger, the
    mixin merger, the registry builder and the serializer, together with
    the properties the specification states about them. *)

From Stdlib Require Import Ascii.
From stdpp Require Import base option list strings gmap sorting.

(** ** Python values, exceptions and string trimming *)

Module Py.

(** The values a node property can hold: [None], a boolean or a [str]. *)
Inductive PyVal :=
  | PNone
  | PBool (b : bool)
  | PStr (s : string).

Global Instance PyVal_eq_dec : EqDecision PyVal.
Proof. solve_decision. Defined.

(** Python truth value, as tested by [if x] and [not x]. *)
Definition truthy (v : PyVal) : bool :=
  match v with
  | PNone => false
  | PBool b => b
  | PStr s => negb (bool_decide (s = ""))
  end.

(** The uncaught exceptions that end a run. *)
Inductive PyExc :=
  | KeyError
  | IndexError
  | AttributeError
  | TypeError
  | ValueError.

(** A computation either returns or raises. *)
Inductive Result (A : Type) :=
  | Ok (a : A)
  | Raise (e : PyExc).
Global Arguments Ok {A} a.
Global Arguments Raise {A} e.

Global Instance Result_ret : MRet Result := λ A a, Ok a.
Global Instance Result_bind : MBind Result := λ A B f m,
  match m with
  | Ok a => f a
  | Raise e => Raise e
  end.

(** [seq[i]] on a list: [IndexError] out of range. *)
Definition getindex {A} (l : list A) (i : nat) : Result A :=
  match l !! i with
  | Some x => Ok x
  | None => Raise IndexError
  end.

(** [d[k]] on a dictionary: [KeyError] when the key is missing. *)
Definition getitem {A} (d : gmap string A) (k : string) : Result A :=
  match d !! k with
  | Some x => Ok x
  | None => Raise KeyError
  end.

(** [c in chars] for a character and a [str]. *)
Fixpoint in_chars (chars : string) (c : ascii) : bool :=
  match chars with
  | EmptyString => false
  | String c' chars' => bool_decide (c = c') || in_chars chars' c
  end.

(** [s.lstrip(chars)]: drop leading characters while they occur in [chars]. *)
Fixpoint lstrip (chars s : string) : string :=
  match s with
  | EmptyString => EmptyString
  | String c s' => if in_chars chars c then lstrip chars s' else s
  end.

(** [s.rstrip(chars)]: drop trailing characters while they occur in [chars]. *)
Fixpoint rstrip (chars s : string) : string :=
  match s with
  | EmptyString => EmptyString
  | String c s' =>
      match rstrip chars s' with
      | EmptyString => if in_chars chars c then EmptyString else String c EmptyString
      | r => String c r
      end
  end.

(** [s.strip(chars)]: [chars] is a set of characters, removed at both ends. *)
Definition strip (chars s : string) : string := rstrip chars (lstrip chars s).

(** Every character of [s] occurs in [chars]. *)
Fixpoint all_in (chars s : string) : bool :=
  match s with
  | EmptyString => true
  | String c s' => in_chars chars c && all_in chars s'
  end.

(** [s] is empty or starts with a character outside [chars]. *)
Definition head_outside (chars s : string) : bool :=
  match s with
  | EmptyString => true
  | String c _ => negb (in_chars chars c)
  end.

(** [s] is empty or ends with a character outside [chars]. *)
Fixpoint last_outside (chars s : string) : bool :=
  match s with
  | EmptyString => true
  | String c EmptyString => negb (in_chars chars c)
  | String _ s' => last_outside chars s'
  end.

End Py.

(** ** The parser's node *)

Module IDL.
Import Py.

(** Modelled from the spec: the parser collaborator's tree node
    ([blink_idl_parser] is not part of the sources).  A node has a class
    tag, a name, a dictionary of properties and an ordered list of
    children. *)
#[warnings="-register-all"]
Inductive Node :=
  | mkNode (cls : string) (name : string)
           (props : gmap string PyVal) (children : list Node).

Definition GetClass (n : Node) : string :=
  match n with mkNode c _ _ _ => c end.

Definition GetName (n : Node) : string :=
  match n with mkNode _ nm _ _ => nm end.

(** [node.GetProperty(key, default)]; the default is [None] when omitted. *)
Definition GetProperty (n : Node) (key : string) (default : PyVal) : PyVal :=
  match n with mkNode _ _ ps _ => from_option id default (ps !! key) end.

Definition GetChildren (n : Node) : list Node :=
  match n with mkNode _ _ _ cs => cs end.

(** All children of the given class, in order. *)
Definition GetListOf (n : Node) (kind : string) : list Node :=
  filter (λ c, GetClass c = kind) (GetChildren n).

(** The first child of the given class, or [None]. *)
Definition GetOneOf (n : Node) (kind : string) : option Node :=
  head (GetListOf n kind).

End IDL.

(** ** The JSON encoder *)

Module Json.

(** What [json.dump] is given: [None], booleans, strings, lists and
    dictionaries.  A dictionary is the list of its items in the order its
    iterator yields them, an order the program does not control. *)
#[warnings="-register-all"]
Inductive Value :=
  | Null
  | Bool (b : bool)
  | Str (s : string)
  | Arr (lst : list Value)
  | Obj (dct : list (string * Value)).

(** [' ' * n] *)
Fixpoint spaces (n : nat) : string :=
  match n with
  | 0 => EmptyString
  | S n' => String " " (spaces n')
  end.

(** The order of [sorted(dct.items(), key=lambda kv: kv[0])]. *)
Definition key_le {A} (a b : string * A) : Prop := (a.1 ≤ b.1)%string.

Global Instance key_le_dec {A} : RelDecision (@key_le A).
Proof. intros a b. unfold key_le. apply _. Defined.

Section Encoder.

(** The encoder of string literals ([encode_basestring_ascii]). *)
Variable _encoder : string → string.

Variable _indent : nat.

Definition _item_separator : string := ", ".
Definition _key_separator : string := ": ".

(** ['\n' + (' ' * (_indent * _current_indent_level))] *)
Definition newline_indent (_current_indent_level : nat) : string :=
  String "010" (spaces (_indent * _current_indent_level)).

(** The chunks of a non-empty container between its brackets: the items
    one level deeper, each on its own line. *)
Definition block (opening closing : string) (level : nat)
    (chunks : list string) : string :=
  opening +:+ newline_indent (S level)
    +:+ String.concat (_item_separator +:+ newline_indent (S level)) chunks
    +:+ newline_indent level +:+ closing.

(** [_iterencode] of the pure-Python encoder, the one [json.dump] runs
    when an indentation is given.  The values of a dictionary are encoded
    before the items are put in order; the encoder has no effect, so the
    text is the one Python writes. *)
Fixpoint iterencode (_sort_keys : bool) (o : Value)
    (_current_indent_level : nat) : string :=
  match o with
  | Null => "null"
  | Bool true => "true"
  | Bool false => "false"
  | Str s => _encoder s
  | Arr lst =>
      match lst with
      | [] => "[]"
      | _ =>
          block "[" "]" _current_indent_level
            ((λ value, iterencode _sort_keys value (S _current_indent_level))
               <$> lst)
      end
  | Obj dct =>
      match dct with
      | [] => "{}"
      | _ =>
          let encoded :=
            (λ kv, (kv.1, iterencode _sort_keys kv.2 (S _current_indent_level)))
              <$> dct in
          let items :=
            if _sort_keys then merge_sort key_le encoded else encoded in
          block "{" "}" _current_indent_level
            ((λ kv, _encoder kv.1 +:+ _key_separator +:+ kv.2) <$> items)
      end
  end.

End Encoder.

(** [json.dump(obj, f, sort_keys=True, indent=4)]: the text written. *)
Definition dump (_encoder : string → string) (obj : Value) : string :=
  iterencode _encoder 4 true obj 0.

(** *** Notions used to state what the encoder guarantees *)

(** The same document with the items of every dictionary in key order. *)
Fixpoint canonical (o : Value) : Value :=
  match o with
  | Arr lst => Arr (canonical <$> lst)
  | Obj dct => Obj (merge_sort key_le ((λ kv, (kv.1, canonical kv.2)) <$> dct))
  | _ => o
  end.

(** The keys of a list of items never decrease. *)
Fixpoint ascending (keys : list string) : bool :=
  match keys with
  | k1 :: ((k2 :: _) as rest) => String.leb k1 k2 && ascending rest
  | _ => true
  end.

(** Every dictionary of the value lists its items in key order. *)
Fixpoint keys_sorted (o : Value) : bool :=
  match o with
  | Arr lst => forallb keys_sorted lst
  | Obj dct =>
      ascending (dct.*1) && forallb (λ kv, keys_sorted kv.2) dct
  | _ => true
  end.

(** No dictionary of the value holds a key twice. *)
Fixpoint keys_distinct (o : Value) : bool :=
  match o with
  | Arr lst => forallb keys_distinct lst
  | Obj dct =>
      bool_decide (NoDup (dct.*1))
      && forallb (λ kv, keys_distinct kv.2) dct
  | _ => true
  end.

(** Two values are the same document: they differ at most in the order in
    which their dictionaries yield their items. *)
#[warnings="-register-all"]
Inductive same_document : Value → Value → Prop :=
  | same_Null : same_document Null Null
  | same_Bool b : same_document (Bool b) (Bool b)
  | same_Str s : same_document (Str s) (Str s)
  | same_Arr l1 l2 :
      Forall2 same_document l1 l2 → same_document (Arr l1) (Arr l2)
  | same_Obj d1 d d2 :
      Forall2 (λ a b, a.1 = b.1 ∧ same_document a.2 b.2) d1 d →
      d ≡ₚ d2 →
      same_document (Obj d1) (Obj d2).

(** A text is laid out in lines: a first line, then lines that each start
    with a line feed and [width * depth] spaces. *)
Definition indented_line (width : nat) (line : nat * string) : string :=
  String "010" (spaces (width * line.1)) +:+ line.2.

Fixpoint layout (width : nat) (first : string) (rest : list (nat * string))
    : string :=
  match rest with
  | [] => first
  | line :: rest' => first +:+ layout width (indented_line width line) rest'
  end.

(** The text of a line: not empty, no line feed, no leading space. *)
Fixpoint no_newline (s : string) : bool :=
  match s with
  | EmptyString => true
  | String c s' => negb (bool_decide (c = "010"%char)) && no_newline s'
  end.

Definition line_text (s : string) : bool :=
  match s with
  | EmptyString => false
  | String c _ => negb (bool_decide (c = " "%char)) && no_newline s
  end.

(** The text is a sequence of lines, each after the first indented by a
    multiple of [width] spaces. *)
Definition laid_out (width : nat) (s : string) : Prop :=
  ∃ first rest,
    s = layout width first rest
    ∧ line_text first = true
    ∧ Forall (λ line, line_text line.2 = true) rest.

(** *** The document as the specification describes it *)

(** The lines of the items of a container, in the order given: every
    item but the last is followed by a comma and a space. *)
Definition lines_of_items {A} (lines_of : A → string → list (nat * string))
    : list A → list (nat * string) :=
  fix go (items : list A) : list (nat * string) :=
    match items with
    | [] => []
    | item :: rest =>
        lines_of item (match rest with [] => "" | _ => ", " end) ++ go rest
    end.

(** The lines of a value, each with its nesting depth.  A scalar and an
    empty container take one line; a container with items takes a line
    for its opening bracket, the lines of its items one level deeper,
    and a line for its closing bracket.  The items of a dictionary come
    in the order given.  [lead] opens the first line (the key of the
    item whose value this is) and [trail] closes the last one (the comma
    after the item). *)
Fixpoint document_lines (_encoder : string → string) (o : Value)
    (depth : nat) (lead trail : string) : list (nat * string) :=
  match o with
  | Null => [(depth, lead +:+ "null" +:+ trail)]
  | Bool true => [(depth, lead +:+ "true" +:+ trail)]
  | Bool false => [(depth, lead +:+ "false" +:+ trail)]
  | Str s => [(depth, lead +:+ _encoder s +:+ trail)]
  | Arr lst =>
      match lst with
      | [] => [(depth, lead +:+ "[]" +:+ trail)]
      | _ =>
          (depth, lead +:+ "[")
          :: lines_of_items
               (λ value, document_lines _encoder value (S depth) "") lst
          ++ [(depth, "]" +:+ trail)]
      end
  | Obj dct =>
      match dct with
      | [] => [(depth, lead +:+ "{}" +:+ trail)]
      | _ =>
          (depth, lead +:+ "{")
          :: lines_of_items
               (λ kv, document_lines _encoder kv.2 (S depth)
                        (_encoder kv.1 +:+ ": ")) dct
          ++ [(depth, "}" +:+ trail)]
      end
  end.

(** The text of a list of lines: a line of depth [d] starts with
    [width * d] spaces, and a line feed separates two lines. *)
Definition text_of_lines (width : nat) (lines : list (nat * string))
    : string :=
  String.concat (String "010" "")
    ((λ line, spaces (width * line.1) +:+ line.2) <$> lines).

(** The document as specified: one item per line, four spaces for each
    level of nesting. *)
Definition specified_text (_encoder : string → string) (o : Value) : string :=
  text_of_lines 4 (document_lines _encoder o 0 "" "").

End Json.

(** ** [collect_idls_into_json.py] *)

Module Collect.
Import Py IDL Json.

Definition _INTERFACE_CLASS_NAME : string := "Interface".
Definition _PARTIAL : string := "Partial".
Definition _STRIP_FILEPATH : string := "../chromium/src/third_party/WebKit".

(** The keys of the three member lists of an interface dictionary. *)
Inductive MemberKey :=
  | KAttributes
  | KOperations
  | KConsts.

Definition _MEMBERS : list MemberKey := [KAttributes; KOperations; KConsts].

(** *** The dictionaries built by the extractor *)

Record ExtAttrDict := { ext_Name : string }.

Record ConstDict := {
  const_Name : string;
  const_Type : string;
  const_Value : string;
  const_ExtAttributes : list ExtAttrDict }.

Record AttributeDict := {
  attr_Name : string;
  attr_Type : string;
  attr_ExtAttributes : list ExtAttrDict;
  attr_Readonly : PyVal;
  attr_Static : PyVal }.

Record ArgumentDict := {
  arg_Name : string;
  arg_Type : string }.

Record OperationDict := {
  op_Name : string;
  op_Arguments : list ArgumentDict;
  op_Type : string;
  op_ExtAttributes : list ExtAttrDict;
  op_Static : PyVal }.

Record InheritDict := { Parent : string }.

(** The interface dictionary.  ['Partial_FilePaths'] is a key that only
    [merge_partial_dicts] creates: [None] stands for its absence. *)
Record InterfaceDict := {
  Name : string;
  FilePath : string;
  Consts : list ConstDict;
  Attributes : list AttributeDict;
  Operations : list OperationDict;
  ExtAttributes : list ExtAttrDict;
  Inherit : list InheritDict;
  Partial_FilePaths : option (list string) }.

(** *** Classification of top-level definitions *)

Definition is_implements (definition : Node) : bool :=
  bool_decide (GetClass definition = "Implements").

Definition filter_non_partial (definition : Node) : bool :=
  bool_decide (GetClass definition = _INTERFACE_CLASS_NAME)
  && negb (truthy (GetProperty definition _PARTIAL PNone)).

Definition filter_partial (definition : Node) : bool :=
  bool_decide (GetClass definition = _INTERFACE_CLASS_NAME)
  && truthy (GetProperty definition _PARTIAL PNone).

(** *** Extraction *)

Definition get_extattribute_node (node : Node) : list Node :=
  match GetOneOf node "ExtAttributes" with
  | Some e => GetListOf e "ExtAttribute"
  | None => []
  end.

Definition extattr_node_to_dict (extattr : Node) : ExtAttrDict :=
  {| ext_Name := GetName extattr |}.

Definition get_const_node (interface_node : Node) : list Node :=
  GetListOf interface_node "Const".

Definition get_const_type (const_node : Node) : Result string :=
  c ← getindex (GetChildren const_node) 0; mret (GetName c).

Definition get_const_value (const_node : Node) : Result string :=
  c ← getindex (GetChildren const_node) 1; mret (GetName c).

Definition const_node_to_dict (const_node : Node) : Result ConstDict :=
  ty ← get_const_type const_node;
  v ← get_const_value const_node;
  mret {| const_Name := GetName const_node;
          const_Type := ty;
          const_Value := v;
          const_ExtAttributes :=
            extattr_node_to_dict <$> get_extattribute_node const_node |}.

Definition get_attribute_node (interface_node : Node) : list Node :=
  GetListOf interface_node "Attribute".

(** [node.GetOneOf('Type').GetChildren()[0].GetName()] *)
Definition get_attribute_type (attribute_node : Node) : Result string :=
  match GetOneOf attribute_node "Type" with
  | None => Raise AttributeError
  | Some t => c ← getindex (GetChildren t) 0; mret (GetName c)
  end.

Definition get_operation_type := get_attribute_type.
Definition get_argument_type := get_attribute_type.

Definition attribute_node_to_dict (attribute_node : Node) : Result AttributeDict :=
  ty ← get_attribute_type attribute_node;
  mret {| attr_Name := GetName attribute_node;
          attr_Type := ty;
          attr_ExtAttributes :=
            extattr_node_to_dict <$> get_extattribute_node attribute_node;
          attr_Readonly := GetProperty attribute_node "READONLY" (PBool false);
          attr_Static := GetProperty attribute_node "STATIC" (PBool false) |}.

Definition get_operation_node (interface_node : Node) : list Node :=
  GetListOf interface_node "Operation".

Definition get_argument_node (operation_node : Node) : Result (list Node) :=
  match GetOneOf operation_node "Arguments" with
  | None => Raise AttributeError
  | Some a => Ok (GetListOf a "Argument")
  end.

Definition argument_node_to_dict (argument_node : Node) : Result ArgumentDict :=
  ty ← get_argument_type argument_node;
  mret {| arg_Name := GetName argument_node; arg_Type := ty |}.

Definition get_operation_name (operation_node : Node) : string :=
  if truthy (GetProperty operation_node "GETTER" PNone) then "__getter__"
  else if truthy (GetProperty operation_node "SETTER" PNone) then "__setter__"
  else if truthy (GetProperty operation_node "DELETER" PNone) then "__deleter__"
  else GetName operation_node.

(** The comprehensions keep an element when its dictionary is truthy; a
    dictionary built from a literal with keys is never empty, so every
    element is kept. *)
Definition operation_node_to_dict (operation_node : Node) : Result OperationDict :=
  args ← get_argument_node operation_node;
  arguments ← mapM argument_node_to_dict args;
  ty ← get_operation_type operation_node;
  mret {| op_Name := get_operation_name operation_node;
          op_Arguments := arguments;
          op_Type := ty;
          op_ExtAttributes :=
            extattr_node_to_dict <$> get_extattribute_node operation_node;
          op_Static := GetProperty operation_node "STATIC" (PBool false) |}.

Definition get_inherit_node (interface_node : Node) : list Node :=
  match GetListOf interface_node "Inherit" with
  | [] => []
  | inherits => inherits
  end.

Definition inherit_node_to_dict (inherit : Node) : InheritDict :=
  {| Parent := GetName inherit |}.

Section Extract.

(** [os.path.relpath], taken at the working directory of the process. *)
Variable relpath : string → string.

(** [os.path.relpath] refuses a false path with [ValueError] and anything
    that is not a string when it looks for its methods. *)
Definition get_filepath (interface_node : Node) : Result string :=
  match GetProperty interface_node "FILENAME" PNone with
  | PStr filename =>
      if bool_decide (filename = "") then Raise ValueError
      else Ok (strip _STRIP_FILEPATH (relpath filename))
  | PBool true => Raise AttributeError
  | _ => Raise ValueError
  end.

Definition interface_node_to_dict (interface_node : Node) : Result InterfaceDict :=
  path ← get_filepath interface_node;
  consts ← mapM const_node_to_dict (get_const_node interface_node);
  attrs ← mapM attribute_node_to_dict (get_attribute_node interface_node);
  ops ← mapM operation_node_to_dict (get_operation_node interface_node);
  mret {| Name := GetName interface_node;
          FilePath := path;
          Consts := consts;
          Attributes := attrs;
          Operations := ops;
          ExtAttributes :=
            extattr_node_to_dict <$> get_extattribute_node interface_node;
          Inherit := inherit_node_to_dict <$> get_inherit_node interface_node;
          Partial_FilePaths := None |}.

(** *** The stream of top-level definitions *)

(** The parser, one tree per document path; it is re-run for each pass. *)
Variable parse_file : string → Node.

Definition get_definitions (paths : list string) : list Node :=
  paths ≫= (λ path, GetChildren (parse_file path)).

End Extract.

(** *** Merging *)

(** [interface[member].extend(other.get(member))] *)
Definition extend_member (member : MemberKey)
    (interface other : InterfaceDict) : InterfaceDict :=
  match member with
  | KAttributes =>
      {| Name := Name interface; FilePath := FilePath interface;
         Consts := Consts interface;
         Attributes := Attributes interface ++ Attributes other;
         Operations := Operations interface;
         ExtAttributes := ExtAttributes interface;
         Inherit := Inherit interface;
         Partial_FilePaths := Partial_FilePaths interface |}
  | KOperations =>
      {| Name := Name interface; FilePath := FilePath interface;
         Consts := Consts interface;
         Attributes := Attributes interface;
         Operations := Operations interface ++ Operations other;
         ExtAttributes := ExtAttributes interface;
         Inherit := Inherit interface;
         Partial_FilePaths := Partial_FilePaths interface |}
  | KConsts =>
      {| Name := Name interface; FilePath := FilePath interface;
         Consts := Consts interface ++ Consts other;
         Attributes := Attributes interface;
         Operations := Operations interface;
         ExtAttributes := ExtAttributes interface;
         Inherit := Inherit interface;
         Partial_FilePaths := Partial_FilePaths interface |}
  end.

(** [interface.setdefault('Partial_FilePaths', []).append(path)] *)
Definition append_partial_filepath (interface : InterfaceDict)
    (path : string) : InterfaceDict :=
  {| Name := Name interface; FilePath := FilePath interface;
     Consts := Consts interface;
     Attributes := Attributes interface;
     Operations := Operations interface;
     ExtAttributes := ExtAttributes interface;
     Inherit := Inherit interface;
     Partial_FilePaths :=
       Some (default [] (Partial_FilePaths interface) ++ [path]) |}.

(** [for member in _MEMBERS: interface[member].extend(other.get(member))] *)
Definition extend_members (interface other : InterfaceDict) : InterfaceDict :=
  foldl (λ i member, extend_member member i other) interface _MEMBERS.

(** The body of the loop of [merge_partial_dicts] for a base that exists. *)
Definition merge_partial (interface partial : InterfaceDict) : InterfaceDict :=
  append_partial_filepath (extend_members interface partial) (FilePath partial).

(** One iteration over [partials_dict.iteritems()].  An interface
    dictionary is never empty, so [not interface] holds exactly when
    [get] found nothing.  The base is updated in place. *)
Definition merge_partial_item (interfaces_dict : gmap string InterfaceDict)
    (item : string * InterfaceDict) : gmap string InterfaceDict :=
  let '(interface_name, partial) := item in
  match interfaces_dict !! interface_name with
  | None => interfaces_dict
  | Some interface =>
      <[interface_name := merge_partial interface partial]> interfaces_dict
  end.

Definition merge_partial_dicts
    (interfaces_dict partials_dict : gmap string InterfaceDict)
    : gmap string InterfaceDict :=
  foldl merge_partial_item interfaces_dict (map_to_list partials_dict).

(** A [for] loop whose body may raise. *)
Fixpoint for_each {S A} (body : S → A → Result S) (s : S) (l : list A)
    : Result S :=
  match l with
  | [] => Ok s
  | x :: l' => s' ← body s x; for_each body s' l'
  end.

(** [interfaces_dict[reference]]: the keys of the registry are strings. *)
Definition getitem_val {A} (d : gmap string A) (k : PyVal) : Result A :=
  match k with
  | PStr s => getitem d s
  | _ => Raise KeyError
  end.

(** [interfaces_dict[implement][member].extend(
       interfaces_dict[reference].get(member))]
    the target is looked up first, then the reference; the target's list
    is updated in place. *)
Definition merge_implement_member (implement : string) (reference : PyVal)
    (interfaces_dict : gmap string InterfaceDict) (member : MemberKey)
    : Result (gmap string InterfaceDict) :=
  target ← getitem interfaces_dict implement;
  source ← getitem_val interfaces_dict reference;
  mret (<[implement := extend_member member target source]> interfaces_dict).

(** [implement.GetProperty('REFERENCE')] *)
Definition get_reference (implement : Node) : PyVal :=
  GetProperty implement "REFERENCE" PNone.

(** One iteration of the loop of [merge_implement_node]. *)
Definition merge_implement (interfaces_dict : gmap string InterfaceDict)
    (implement : Node) : Result (gmap string InterfaceDict) :=
  let reference := get_reference implement in
  let implement := GetName implement in
  if negb (truthy reference) then Ok interfaces_dict
  else for_each (merge_implement_member implement reference)
         interfaces_dict _MEMBERS.

Definition merge_implement_node (interfaces_dict : gmap string InterfaceDict)
    (implement_nodes : list Node) : Result (gmap string InterfaceDict) :=
  for_each merge_implement interfaces_dict implement_nodes.

(** Two states of a record that differ in their member lists at most. *)
Definition same_identity (i i' : InterfaceDict) : Prop :=
  Name i' = Name i ∧ FilePath i' = FilePath i ∧ Inherit i' = Inherit i
  ∧ ExtAttributes i' = ExtAttributes i
  ∧ Partial_FilePaths i' = Partial_FilePaths i.

(** *** The registry builder *)

Section Main.

Variable relpath : string → string.
Variable parse_file : string → Node.

(** [{d.GetName(): interface_node_to_dict(d) for d in definitions if keep(d)}]
    a later definition replaces an earlier one of the same name. *)
Fixpoint dict_of_definitions (keep : Node → bool) (definitions : list Node)
    (acc : gmap string InterfaceDict) : Result (gmap string InterfaceDict) :=
  match definitions with
  | [] => Ok acc
  | definition :: rest =>
      if keep definition then
        d ← interface_node_to_dict relpath definition;
        dict_of_definitions keep rest (<[GetName definition := d]> acc)
      else dict_of_definitions keep rest acc
  end.

(** [main] up to the export.  [dictionary] and [interfaces_dict] name one
    object, so what is exported is the registry after both merges. *)
Definition build_registry (path_list : list string)
    : Result (gmap string InterfaceDict) :=
  let definitions := get_definitions parse_file path_list in
  let implement_nodes := filter (λ d, is_implements d = true) definitions in
  interfaces_dict ← dict_of_definitions filter_non_partial definitions ∅;
  partials_dict ← dict_of_definitions filter_partial definitions ∅;
  let dictionary := merge_partial_dicts interfaces_dict partials_dict in
  merge_implement_node dictionary implement_nodes.

End Main.

(** *** Export *)

(** The dictionaries as [json.dump] sees them. *)
Definition json_of_value (v : PyVal) : Value :=
  match v with
  | PNone => Null
  | PBool b => Bool b
  | PStr s => Str s
  end.

Definition json_of_extattr (e : ExtAttrDict) : Value :=
  Obj [("Name", Str (ext_Name e))].

Definition json_of_const (c : ConstDict) : Value :=
  Obj [("Name", Str (const_Name c));
       ("Type", Str (const_Type c));
       ("Value", Str (const_Value c));
       ("ExtAttributes", Arr (json_of_extattr <$> const_ExtAttributes c))].

Definition json_of_attribute (a : AttributeDict) : Value :=
  Obj [("Name", Str (attr_Name a));
       ("Type", Str (attr_Type a));
       ("ExtAttributes", Arr (json_of_extattr <$> attr_ExtAttributes a));
       ("Readonly", json_of_value (attr_Readonly a));
       ("Static", json_of_value (attr_Static a))].

Definition json_of_argument (a : ArgumentDict) : Value :=
  Obj [("Name", Str (arg_Name a)); ("Type", Str (arg_Type a))].

Definition json_of_operation (o : OperationDict) : Value :=
  Obj [("Name", Str (op_Name o));
       ("Arguments", Arr (json_of_argument <$> op_Arguments o));
       ("Type", Str (op_Type o));
       ("ExtAttributes", Arr (json_of_extattr <$> op_ExtAttributes o));
       ("Static", json_of_value (op_Static o))].

Definition json_of_inherit (i : InheritDict) : Value :=
  Obj [("Parent", Str (Parent i))].

Definition json_of_interface (i : InterfaceDict) : Value :=
  Obj ([("Name", Str (Name i));
        ("FilePath", Str (FilePath i));
        ("Consts", Arr (json_of_const <$> Consts i));
        ("Attributes", Arr (json_of_attribute <$> Attributes i));
        ("Operations", Arr (json_of_operation <$> Operations i));
        ("ExtAttributes", Arr (json_of_extattr <$> ExtAttributes i));
        ("Inherit", Arr (json_of_inherit <$> Inherit i))]
       ++ match Partial_FilePaths i with
          | Some paths => [("Partial_FilePaths", Arr (Str <$> paths))]
          | None => []
          end).

Definition json_of_registry (dictionary : gmap string InterfaceDict) : Value :=
  Obj (prod_map id json_of_interface <$> map_to_list dictionary).

(** The text [export_to_jsonfile] writes to [json_file]. *)
Definition export_to_jsonfile (_encoder : string → string)
    (dictionary : gmap string InterfaceDict) : string :=
  dump _encoder (json_of_registry dictionary).

Definition main (relpath : string → string) (parse_file : string → Node)
    (_encoder : string → string) (path_list : list string) : Result string :=
  dictionary ← build_registry relpath parse_file path_list;
  mret (export_to_jsonfile _encoder dictionary).

End Collect.

(** ** The shape of node the extractor relies on *)

Module Grammar.
Import Py IDL Collect.

(** The node has a [Type] child, and the first one has a child. *)
Definition has_type (node : Node) : bool :=
  match GetOneOf node "Type" with
  | Some t => bool_decide (GetChildren t ≠ [])
  | None => false
  end.

(** A constant has its type and its value as first two children. *)
Definition const_ok (const_node : Node) : bool :=
  bool_decide (2 ≤ length (GetChildren const_node)).

(** An operation has an [Arguments] child whose arguments are typed, and a
    type of its own. *)
Definition operation_ok (operation_node : Node) : bool :=
  match GetOneOf operation_node "Arguments" with
  | Some a => forallb has_type (GetListOf a "Argument") && has_type operation_node
  | None => false
  end.

(** [FILENAME] is a string that is not empty. *)
Definition filename_ok (interface_node : Node) : bool :=
  match GetProperty interface_node "FILENAME" PNone with
  | PStr filename => negb (bool_decide (filename = ""))
  | _ => false
  end.

Definition interface_ok (interface_node : Node) : bool :=
  filename_ok interface_node
  && forallb const_ok (get_const_node interface_node)
  && forallb has_type (get_attribute_node interface_node)
  && forallb operation_ok (get_operation_node interface_node).

End Grammar.

(** ** Notions used to state what the merges and the builder do *)

Module Registry.
Import Py IDL Collect.

(** The member lists of [i'] start with those of [i]. *)
Definition members_grow (i i' : InterfaceDict) : Prop :=
  Consts i `prefix_of` Consts i'
  ∧ Attributes i `prefix_of` Attributes i'
  ∧ Operations i `prefix_of` Operations i'.

(** The relation is skipped, or both its names are keys of the registry. *)
Definition resolves (reg : gmap string InterfaceDict) (implement : Node)
    : bool :=
  negb (truthy (get_reference implement))
  || (bool_decide (is_Some (reg !! GetName implement))
      && match get_reference implement with
         | PStr k => bool_decide (is_Some (reg !! k))
         | _ => false
         end).

(** The dictionary of a node, when the extractor returns one. *)
Definition extracted (relpath : string → string) (node : Node)
    : option InterfaceDict :=
  match interface_node_to_dict relpath node with
  | Ok d => Some d
  | Raise _ => None
  end.

(** The last definition of the stream that a pass keeps under a name. *)
Definition last_named (keep : Node → bool) (name : string)
    (definitions : list Node) : option Node :=
  last (filter (λ x, keep x = true ∧ GetName x = name) definitions).

(** The stream holds a non-partial interface of that name. *)
Definition defines (definitions : list Node) (name : string) : Prop :=
  ∃ d, d ∈ definitions ∧ filter_non_partial d = true ∧ GetName d = name.

(** The stream without its non-partial definitions of that name. *)
Definition without_named (name : string) (definitions : list Node)
    : list Node :=
  filter (λ x, ¬ (filter_non_partial x = true ∧ GetName x = name))
    definitions.

End Registry.

(** ** [interface_node_path.py] *)

Module NodePath.

(** [s.endswith(suffix)] *)
Fixpoint endswith (s suffix : string) : bool :=
  bool_decide (s = suffix)
  || match s with
     | EmptyString => false
     | String _ s' => endswith s' suffix
     end.

(** [os.path.join(a, b)] on a POSIX system: an absolute [b] replaces [a],
    otherwise a separator is put between the two unless [a] is empty or
    ends with one. *)
Definition join (a b : string) : string :=
  if String.prefix "/" b then b
  else if bool_decide (a = "") || endswith a "/" then a +:+ b
  else a +:+ "/" +:+ b.

Definition file_type : string := ".idl".
Definition non_idl_set : list string := ["InspectorInstrumentation.idl"].

(** What [os.walk(path)] yields: for each directory its path, the names of
    its sub-directories and the names of its files. *)
Definition Walk : Type := list (string * list string * list string).

Definition get_idl_files (walk : Walk) : list string :=
  '(dir_path, dir_names, file_names) ← walk;
  file_name ← file_names;
  if endswith file_name file_type
     && negb (bool_decide (file_name ∈ non_idl_set))
  then [join dir_path file_name]
  else [].

(** What [main] writes to [filename]: each path followed by a line feed. *)
Definition main (walk : Walk) : string :=
  foldr (λ filepath rest, filepath +:+ String "010" rest) EmptyString
    (get_idl_files walk).

End NodePath.

(** ** [interface_to_json.py] *)

Module ToJson.
Import Py IDL.

(** Iteration over a text file: its lines, each with the line feed that
    ends it; the last line has none when the file does not end with
    one. *)
Fixpoint readlines (content : string) : list string :=
  match content with
  | EmptyString => []
  | String c content' =>
      if bool_decide (c = "010"%char) then String c EmptyString :: readlines content'
      else match readlines content' with
           | [] => [String c EmptyString]
           | line :: rest => String c line :: rest
           end
  end.

(** [line[:-1]] *)
Fixpoint drop_last (line : string) : string :=
  match line with
  | EmptyString => EmptyString
  | String c EmptyString => EmptyString
  | String c line' => String c (drop_last line')
  end.

(** [s.split(sep)] for a separator of one character. *)
Fixpoint split (sep : ascii) (s : string) : list string :=
  match s with
  | EmptyString => [EmptyString]
  | String c s' =>
      if bool_decide (c = sep) then EmptyString :: split sep s'
      else match split sep s' with
           | [] => [String c EmptyString]
           | piece :: rest => String c piece :: rest
           end
  end.

(** [','.join(map(str, line[:-1].split('\t')))] for each line of the file. *)
Definition load_filepath (content : string) : list string :=
  (λ line, String.concat "," (split "009" (drop_last line)))
    <$> readlines content.

(** A path without a tab and without a line feed. *)
Fixpoint plain (path : string) : bool :=
  match path with
  | EmptyString => true
  | String c path' =>
      negb (bool_decide (c = "009"%char))
      && negb (bool_decide (c = "010"%char))
      && plain path'
  end.

Section Extract.

Variable relpath : string → string.
Variable parse_file : string → Node.

Definition get_interface_nodes (content : string) : list Node :=
  node_path ← load_filepath content;
  filter (λ definition, GetClass definition = "Interface")
    (GetChildren (parse_file node_path)).

(** [os.path.relpath(filename)], without any trimming. *)
Definition get_filepath (interface_node : Node) : Result string :=
  match GetProperty interface_node "FILENAME" PNone with
  | PStr filename =>
      if bool_decide (filename = "") then Raise ValueError
      else Ok (relpath filename)
  | PBool true => Raise AttributeError
  | _ => Raise ValueError
  end.

Definition get_partial (interface_node_list : list Node) : list Node :=
  filter (λ n, truthy (GetProperty n "Partial" (PBool false)) = true)
    interface_node_list.

Definition get_non_partial (interface_node_list : list Node) : list Node :=
  filter (λ n, truthy (GetProperty n "Partial" (PBool false)) = false)
    interface_node_list.

Definition get_attributes (interface_node : Node) : list Node :=
  GetListOf interface_node "Attribute".

(** [node.GetListOf('Type')[0].GetChildren()[0].GetName()] *)
Definition get_type (node : Node) : Result string :=
  t ← getindex (GetListOf node "Type") 0;
  c ← getindex (GetChildren t) 0;
  mret (GetName c).

(** The children of every [ExtAttributes] child, whatever their class. *)
Definition get_extattirbutes (node : Node) : list Node :=
  GetListOf node "ExtAttributes" ≫= GetChildren.

Record ExtAttr := { e_Name : string }.

Definition extattr_dict (node : Node) : list ExtAttr :=
  (λ extattribute, {| e_Name := GetName extattribute |})
    <$> get_extattirbutes node.

Record Attr := {
  a_Name : string;
  a_Type : string;
  a_ExtAttribute : list ExtAttr }.

Definition attributes_dict (interface_node : Node) : Result (list Attr) :=
  mapM (λ attribute,
          ty ← get_type attribute;
          mret {| a_Name := GetName attribute;
                  a_Type := ty;
                  a_ExtAttribute := extattr_dict attribute |})
    (get_attributes interface_node).

Definition get_operations (interface_node : Node) : list Node :=
  GetListOf interface_node "Operation".

Definition get_arguments (operation : Node) : Result (list Node) :=
  argument_node ← getindex (GetListOf operation "Arguments") 0;
  mret (GetListOf argument_node "Argument").

Record Arg := { g_Name : string; g_Type : string }.

(** The function returns inside its loop: the dictionary of the first
    argument, or [None] when there is no argument. *)
Definition argument_dict (argument : Node) : Result (option Arg) :=
  arguments ← get_arguments argument;
  match arguments with
  | [] => Ok None
  | arg_name :: _ =>
      ty ← get_type arg_name;
      mret (Some {| g_Name := GetName arg_name; g_Type := ty |})
  end.

Definition get_operation_name (operation : Node) : string :=
  if truthy (GetProperty operation "GETTER" PNone) then "__getter__"
  else if truthy (GetProperty operation "SETTER" PNone) then "__setter__"
  else if truthy (GetProperty operation "DELETER" PNone) then "__deleter__"
  else GetName operation.

Record Op := {
  o_Name : string;
  o_Argument : list (option Arg);
  o_Type : string;
  o_ExtAttributes : list ExtAttr }.

(** One dictionary is filled again for every operation and returned after
    the loop: it holds the last operation, and it is empty ([None]) when
    there is none. *)
Definition operation_dict (interface_node : Node) : Result (option Op) :=
  dicts ← mapM (λ operation,
                  argument ← argument_dict operation;
                  ty ← get_type operation;
                  mret {| o_Name := get_operation_name operation;
                          o_Argument := [argument];
                          o_Type := ty;
                          o_ExtAttributes := extattr_dict operation |})
             (get_operations interface_node);
  mret (last dicts).

Definition get_consts (interface_node : Node) : list Node :=
  GetListOf interface_node "Const".

Definition get_const_type (node : Node) : Result string :=
  c ← getindex (GetChildren node) 0; mret (GetName c).

Definition get_const_value (node : Node) : Result string :=
  c ← getindex (GetChildren node) 1; mret (GetName c).

Record Const := { c_Name : string; c_Type : string; c_Value : string }.

Definition const_dict (interface_node : Node) : Result (list Const) :=
  mapM (λ const,
          ty ← get_const_type const;
          v ← get_const_value const;
          mret {| c_Name := GetName const; c_Type := ty; c_Value := v |})
    (get_consts interface_node).

(** An element of a list of an interface dictionary: a dictionary of the
    interface itself, or a whole list appended by the merge. *)
#[warnings="-register-all"]
Inductive Item (A : Type) :=
  | Own (a : A)
  | Nested (l : list (Item A)).
Global Arguments Own {A} a.
Global Arguments Nested {A} l.

Record Interface := {
  i_Name : string;
  i_FilePath : string;
  i_Attribute : list (Item Attr);
  i_Operation : list (Item (option Op));
  i_ExtAttributes : list (Item ExtAttr);
  i_Constant : list (Item Const);
  i_Partial_FilePath : option (list string) }.

Definition format_interface_dict (interface_node : Node) : Result Interface :=
  path ← get_filepath interface_node;
  attrs ← attributes_dict interface_node;
  op ← operation_dict interface_node;
  consts ← const_dict interface_node;
  mret {| i_Name := GetName interface_node;
          i_FilePath := path;
          i_Attribute := Own <$> attrs;
          i_Operation := [Own op];
          i_ExtAttributes := Own <$> extattr_dict interface_node;
          i_Constant := Own <$> consts;
          i_Partial_FilePath := None |}.

End Extract.

(** The body of the inner loop of [merge_partial_interface] for an
    interface of the partial's name: each list of the partial is appended
    as one element; the constants only when the interface has some. *)
Definition merge_into (interface partial : Interface) : Interface :=
  {| i_Name := i_Name interface;
     i_FilePath := i_FilePath interface;
     i_Attribute := i_Attribute interface ++ [Nested (i_Attribute partial)];
     i_Operation := i_Operation interface ++ [Nested (i_Operation partial)];
     i_ExtAttributes :=
       i_ExtAttributes interface ++ [Nested (i_ExtAttributes partial)];
     i_Constant :=
       match i_Constant interface with
       | [] => []
       | constants => constants ++ [Nested (i_Constant partial)]
       end;
     i_Partial_FilePath :=
       Some (default [] (i_Partial_FilePath interface)
             ++ [i_FilePath partial]) |}.

(** The interfaces are updated in place, partial after partial. *)
Definition merge_partial_interface (interface_dict_list : list Interface)
    (partial_dict_list : list Interface) : list Interface :=
  foldl (λ interfaces partial,
           (λ interface,
              if bool_decide (i_Name interface = i_Name partial)
              then merge_into interface partial
              else interface) <$> interfaces)
    interface_dict_list partial_dict_list.

(** What the partials do to one interface, partial after partial. *)
Definition merged_with (partials : list Interface) (interface : Interface)
    : Interface :=
  foldl (λ i partial,
           if bool_decide (i_Name i = i_Name partial)
           then merge_into i partial else i)
    interface partials.

(** [dictionary.setdefault(name, interface_dict)]: a name that is already
    a key keeps its value. *)
Definition format_dictionary (dictionary_list : list Interface)
    : gmap string Interface :=
  foldl (λ dictionary interface_dict,
           match dictionary !! i_Name interface_dict with
           | Some _ => dictionary
           | None => <[i_Name interface_dict := interface_dict]> dictionary
           end)
    ∅ dictionary_list.

Section Main.

Variable relpath : string → string.
Variable parse_file : string → Node.

(** [main] up to the export: the content of the path file is read twice,
    once for the interfaces and once for the partials. *)
Definition build (content : string) : Result (gmap string Interface) :=
  interface_dict_list ←
    mapM (format_interface_dict relpath)
      (get_non_partial (get_interface_nodes parse_file content));
  partial_dict_list ←
    mapM (format_interface_dict relpath)
      (get_partial (get_interface_nodes parse_file content));
  mret (format_dictionary
          (merge_partial_interface interface_dict_list partial_dict_list)).

End Main.

End ToJson.

(** ** Sample inputs *)

Module Sample.
Import Py IDL Json Collect.

(** Paths are taken as they are: the working directory is the root. *)
Definition relpath (path : string) : string := path.

(** [encode_basestring_ascii] of Python 2.7's [json.encoder], the string
    encoder [json.dump] uses.  The text is read as UTF-8; a quote, a
    backslash and the five control characters of [ESCAPE_DCT] get their
    short escape, the other printable ASCII characters are copied, and
    every other character is written as [\uXXXX], a character beyond
    the basic plane as a surrogate pair. *)

(** One digit of ['{0:04x}'.format(n)]. *)
Definition hex_digit (n : N) : ascii :=
  match N.to_nat (N.land n 15) with
  | 0 => "0" | 1 => "1" | 2 => "2" | 3 => "3" | 4 => "4" | 5 => "5"
  | 6 => "6" | 7 => "7" | 8 => "8" | 9 => "9" | 10 => "a" | 11 => "b"
  | 12 => "c" | 13 => "d" | 14 => "e" | _ => "f"
  end%char.

(** ['\\u{0:04x}'.format(n)], for [n] below [0x10000]. *)
Definition unicode_escape (n : N) : string :=
  String "092"
    (String "u"
       (String (hex_digit (N.shiftr n 12))
          (String (hex_digit (N.shiftr n 8))
             (String (hex_digit (N.shiftr n 4))
                (String (hex_digit n) ""))))).

(** [replace]: what is written for the character of code point [n]. *)
Definition replace (n : N) : string :=
  if (n =? 34)%N then String "092" (String "034" "")
  else if (n =? 92)%N then String "092" (String "092" "")
  else if (n =? 8)%N then String "092" "b"
  else if (n =? 12)%N then String "092" "f"
  else if (n =? 10)%N then String "092" "n"
  else if (n =? 13)%N then String "092" "r"
  else if (n =? 9)%N then String "092" "t"
  else if (32 <=? n)%N && (n <=? 126)%N then String (ascii_of_N n) ""
  else if (n <? 65536)%N then unicode_escape n
  else
    let n' := (n - 65536)%N in
    unicode_escape (N.lor 55296 (N.land (N.shiftr n' 10) 1023))
      +:+ unicode_escape (N.lor 56320 (N.land n' 1023)).

(** A byte that continues a UTF-8 sequence: [(b & 0xc0) == 0x80]. *)
Definition continuation (b : N) : bool := (N.land b 192 =? 128)%N.

(** [s.decode('utf-8')]: the code points of the text, [None] where
    Python raises [UnicodeDecodeError].  As in Python 2.7 a sequence
    that encodes a surrogate is accepted; an overlong sequence and a
    code point above [0x10ffff] are not. *)
Fixpoint decode_utf8 (s : string) : option (list N) :=
  match s with
  | EmptyString => Some []
  | String c0 s1 =>
      let b0 := N_of_ascii c0 in
      if (b0 <? 128)%N then cons b0 <$> decode_utf8 s1
      else if (194 <=? b0)%N && (b0 <=? 223)%N then
        match s1 with
        | String c1 s2 =>
            let b1 := N_of_ascii c1 in
            if continuation b1 then
              cons (N.shiftl (N.land b0 31) 6 + N.land b1 63)%N
                <$> decode_utf8 s2
            else None
        | _ => None
        end
      else if (224 <=? b0)%N && (b0 <=? 239)%N then
        match s1 with
        | String c1 (String c2 s3) =>
            let b1 := N_of_ascii c1 in
            let b2 := N_of_ascii c2 in
            if continuation b1 && continuation b2
               && negb ((b0 =? 224)%N && (b1 <? 160)%N) then
              cons (N.shiftl (N.land b0 15) 12 + N.shiftl (N.land b1 63) 6
                    + N.land b2 63)%N
                <$> decode_utf8 s3
            else None
        | _ => None
        end
      else if (240 <=? b0)%N && (b0 <=? 244)%N then
        match s1 with
        | String c1 (String c2 (String c3 s4)) =>
            let b1 := N_of_ascii c1 in
            let b2 := N_of_ascii c2 in
            let b3 := N_of_ascii c3 in
            if continuation b1 && continuation b2 && continuation b3
               && negb ((b0 =? 240)%N && (b1 <? 144)%N)
               && negb ((b0 =? 244)%N && (143 <? b1)%N) then
              cons (N.shiftl (N.land b0 7) 18 + N.shiftl (N.land b1 63) 12
                    + N.shiftl (N.land b2 63) 6 + N.land b3 63)%N
                <$> decode_utf8 s4
            else None
        | _ => None
        end
      else None
  end.

(** The text between quotes. *)
Definition quoted (s : string) : string :=
  String "034" (s +:+ String "034" "").

(** ['"' + str(ESCAPE_ASCII.sub(replace, s)) + '"'], [None] where the
    text is not UTF-8 and Python raises. *)
Definition encode_basestring_ascii (s : string) : option string :=
  (λ chars, quoted (String.concat "" (replace <$> chars))) <$> decode_utf8 s.

(** The encoder as a function on every text: the empty literal stands
    for the texts that Python does not encode. *)
Definition encode_basestring (s : string) : string :=
  default (quoted "") (encode_basestring_ascii s).

Definition type_node (name : string) : Node :=
  mkNode "Type" "" ∅ [mkNode "PrimitiveType" name ∅ []].

Definition attribute (name type : string) : Node :=
  mkNode "Attribute" name ∅ [type_node type].

Definition item_getter : Node :=
  mkNode "Operation" "item"
    {[ "GETTER" := PBool true; "SETTER" := PBool true ]}
    [mkNode "Arguments" "" ∅ []; type_node "Node"].

Definition item_getter_dict : OperationDict :=
  {| op_Name := "__getter__"; op_Arguments := []; op_Type := "Node";
     op_ExtAttributes := []; op_Static := PBool false |}.

Definition webkit_idl : string :=
  "../chromium/src/third_party/WebKit/public/Foo.idl".

Definition interface (name filename : string) (partial : bool)
    (members : list Node) : Node :=
  mkNode "Interface" name
    (if partial
     then {[ "FILENAME" := PStr filename; "Partial" := PBool true ]}
     else {[ "FILENAME" := PStr filename ]})
    members.

Definition attribute_dict (name type : string) : AttributeDict :=
  {| attr_Name := name; attr_Type := type; attr_ExtAttributes := [];
     attr_Readonly := PBool false; attr_Static := PBool false |}.

Definition interface_dict (name path : string)
    (attributes : list AttributeDict) : InterfaceDict :=
  {| Name := name; FilePath := path; Consts := []; Attributes := attributes;
     Operations := []; ExtAttributes := []; Inherit := [];
     Partial_FilePaths := None |}.

(** Three interfaces with one attribute each. *)
Definition abc : gmap string InterfaceDict :=
  {[ "A" := interface_dict "A" "a.idl" [attribute_dict "a" "long"];
     "B" := interface_dict "B" "b.idl" [attribute_dict "b" "long"];
     "C" := interface_dict "C" "c.idl" [attribute_dict "c" "long"] ]}.

(** Two interfaces whose names differ in case, and the lines of the
    document that is written for them. *)
Definition two : gmap string InterfaceDict :=
  {[ "b" := interface_dict "b" "b.idl" [attribute_dict "x" "long"];
     "B" := interface_dict "B" "B.idl" [] ]}.

Definition two_lines : list (nat * string) :=
  [(0, "{");
   (1, quoted "B" +:+ ": {");
   (2, quoted "Attributes" +:+ ": [], ");
   (2, quoted "Consts" +:+ ": [], ");
   (2, quoted "ExtAttributes" +:+ ": [], ");
   (2, quoted "FilePath" +:+ ": " +:+ quoted "B.idl" +:+ ", ");
   (2, quoted "Inherit" +:+ ": [], ");
   (2, quoted "Name" +:+ ": " +:+ quoted "B" +:+ ", ");
   (2, quoted "Operations" +:+ ": []");
   (1, "}, ");
   (1, quoted "b" +:+ ": {");
   (2, quoted "Attributes" +:+ ": [");
   (3, "{");
   (4, quoted "ExtAttributes" +:+ ": [], ");
   (4, quoted "Name" +:+ ": " +:+ quoted "x" +:+ ", ");
   (4, quoted "Readonly" +:+ ": false, ");
   (4, quoted "Static" +:+ ": false, ");
   (4, quoted "Type" +:+ ": " +:+ quoted "long");
   (3, "}");
   (2, "], ");
   (2, quoted "Consts" +:+ ": [], ");
   (2, quoted "ExtAttributes" +:+ ": [], ");
   (2, quoted "FilePath" +:+ ": " +:+ quoted "b.idl" +:+ ", ");
   (2, quoted "Inherit" +:+ ": [], ");
   (2, quoted "Name" +:+ ": " +:+ quoted "b" +:+ ", ");
   (2, quoted "Operations" +:+ ": []");
   (1, "}");
   (0, "}")].

(** [target implements reference;] *)
Definition implements (target reference : string) : Node :=
  mkNode "Implements" target {[ "REFERENCE" := PStr reference ]} [].

(** A relation without a reference. *)
Definition implements_nothing (target : string) : Node :=
  mkNode "Implements" target ∅ [].

(** [abc] after [A implements B]. *)
Definition abc_after_a_b : gmap string InterfaceDict :=
  {[ "A" := interface_dict "A" "a.idl"
              [attribute_dict "a" "long"; attribute_dict "b" "long"];
     "B" := interface_dict "B" "b.idl" [attribute_dict "b" "long"];
     "C" := interface_dict "C" "c.idl" [attribute_dict "c" "long"] ]}.

(** [abc] after [B implements C]. *)
Definition abc_after_b_c : gmap string InterfaceDict :=
  {[ "A" := interface_dict "A" "a.idl" [attribute_dict "a" "long"];
     "B" := interface_dict "B" "b.idl"
              [attribute_dict "b" "long"; attribute_dict "c" "long"];
     "C" := interface_dict "C" "c.idl" [attribute_dict "c" "long"] ]}.

(** [abc] after [B implements C] and then [A implements B]. *)
Definition abc_after_b_c_a_b : gmap string InterfaceDict :=
  {[ "A" := interface_dict "A" "a.idl"
              [attribute_dict "a" "long"; attribute_dict "b" "long";
               attribute_dict "c" "long"];
     "B" := interface_dict "B" "b.idl"
              [attribute_dict "b" "long"; attribute_dict "c" "long"];
     "C" := interface_dict "C" "c.idl" [attribute_dict "c" "long"] ]}.

(** A base with members of each kind, and a fragment for it. *)
Definition base_foo : InterfaceDict :=
  {| Name := "Foo"; FilePath := "Foo.idl";
     Consts := [];
     Attributes := [attribute_dict "bar" "DOMString"];
     Operations := [];
     ExtAttributes := [{| ext_Name := "Exposed" |}];
     Inherit := [{| Parent := "EventTarget" |}];
     Partial_FilePaths := None |}.

Definition fragment_foo : InterfaceDict :=
  {| Name := "Foo"; FilePath := "FooPart.idl";
     Consts := [];
     Attributes := [attribute_dict "one" "long"];
     Operations := [item_getter_dict];
     ExtAttributes := [{| ext_Name := "RuntimeEnabled" |}];
     Inherit := [{| Parent := "Node" |}];
     Partial_FilePaths := None |}.

(** A corpus of three documents: an interface and two fragments of it. *)
Definition foo_paths : list string :=
  ["Foo.idl"; "FooPart1.idl"; "FooPart2.idl"].

Definition parse_file (path : string) : Node :=
  mkNode "File" path ∅
    (if bool_decide (path = "Foo.idl") then
       [interface "Foo" path false [attribute "bar" "DOMString"]]
     else if bool_decide (path = "FooPart1.idl") then
       [interface "Foo" path true [attribute "one" "long"]]
     else if bool_decide (path = "FooPart2.idl") then
       [interface "Foo" path true [attribute "two" "long"]]
     else []).

(** A stream in which the interface [Foo] is defined twice. *)
Definition foo_twice : list Node :=
  [interface "Foo" "Old.idl" false [attribute "old" "long"];
   interface "Bar" "Bar.idl" false [];
   interface "Foo" "New.idl" false [attribute "new" "long"]].

(** Its last definition, and what comes before. *)
Definition foo_new : Node :=
  interface "Foo" "New.idl" false [attribute "new" "long"].

Definition before_foo_new : list Node :=
  [interface "Foo" "Old.idl" false [attribute "old" "long"];
   interface "Bar" "Bar.idl" false []].

(** A corpus of one document that holds this stream. *)
Definition twice_paths : list string := ["Twice.idl"].

Definition parse_twice (path : string) : Node :=
  mkNode "File" path ∅ (if bool_decide (path = "Twice.idl") then foo_twice
                        else []).

(** The same document without the first definition of [Foo]. *)
Definition parse_once (path : string) : Node :=
  mkNode "File" path ∅
    (if bool_decide (path = "Twice.idl") then
       [interface "Bar" "Bar.idl" false [];
        interface "Foo" "New.idl" false [attribute "new" "long"]]
     else []).



(** A document of the core sources, below the project root. *)
Definition node_idl : string :=
  "../chromium/src/third_party/WebKit/Source/core/dom/Node.idl".

(** A walk of two directories. *)
Definition walk : NodePath.Walk :=
  [("Source/core", ["dom"], ["README"; "InspectorInstrumentation.idl"]);
   ("Source/core/dom", [], ["Node.idl"; "Node.cpp"; "Element.idl"])].

(** An interface with two operations, as [interface_to_json.py] formats
    it. *)
Definition two_operations : Node :=
  mkNode "Interface" "Foo" {[ "FILENAME" := PStr "Foo.idl" ]}
    [mkNode "Operation" "first" ∅
       [mkNode "Arguments" "" ∅ []; type_node "void"];
     mkNode "Operation" "second" ∅
       [mkNode "Arguments" "" ∅
          [mkNode "Argument" "x" ∅ [type_node "long"];
           mkNode "Argument" "y" ∅ [type_node "long"]];
        type_node "long"]].

Definition two_operations_dict : ToJson.Interface :=
  {| ToJson.i_Name := "Foo";
     ToJson.i_FilePath := "Foo.idl";
     ToJson.i_Attribute := [];
     ToJson.i_Operation :=
       [ToJson.Own
          (Some {| ToJson.o_Name := "second";
                   ToJson.o_Argument :=
                     [Some {| ToJson.g_Name := "x"; ToJson.g_Type := "long" |}];
                   ToJson.o_Type := "long";
                   ToJson.o_ExtAttributes := [] |})];
     ToJson.i_ExtAttributes := [];
     ToJson.i_Constant := [];
     ToJson.i_Partial_FilePath := None |}.

End Sample.

(** * Properties *)

(** ** Strings *)

Lemma append_cons c (s1 s2 : string) :
  String c s1 +:+ s2 = String c (s1 +:+ s2).
Proof. reflexivity. Qed.

Lemma append_empty_l (s : string) : "" +:+ s = s.
Proof. reflexivity. Qed.

Lemma append_assoc (s1 s2 s3 : string) :
  (s1 +:+ s2) +:+ s3 = s1 +:+ s2 +:+ s3.
Proof.
  induction s1 as [|c s1 IH]; [done|].
  by rewrite !append_cons, IH.
Qed.

Lemma append_empty_r (s : string) : s +:+ "" = s.
Proof. induction s as [|c s IH]; [done|]. by rewrite append_cons, IH. Qed.

(** ** Lists *)

Lemma filter_none {A} (P : A → Prop) `{∀ x, Decision (P x)} (l : list A) :
  (∀ x, x ∈ l → ¬ P x) → filter P l = [].
Proof.
  induction l as [|x l IH]; intros Hl; [done|].
  rewrite filter_cons_False by (apply Hl; by left).
  apply IH. intros y Hy. apply Hl. by right.
Qed.

(** ** Trimming *)

Section StripFacts.
Import Py.

Lemma lstrip_split chars s :
  ∃ pre, s = pre +:+ lstrip chars s
         ∧ all_in chars pre = true
         ∧ head_outside chars (lstrip chars s) = true.
Proof.
  induction s as [|c s IH]; simpl.
  - by exists "".
  - destruct (in_chars chars c) eqn:Hc.
    + destruct IH as (pre & Hs & Hpre & Hhead).
      exists (String c pre). simpl. rewrite Hc, Hpre, append_cons.
      split_and!; [|done..]. by rewrite <-Hs.
    + exists "". simpl. by rewrite Hc.
Qed.

Lemma rstrip_split chars s :
  ∃ suf, s = rstrip chars s +:+ suf
         ∧ all_in chars suf = true
         ∧ last_outside chars (rstrip chars s) = true.
Proof.
  induction s as [|c s IH]; simpl.
  - by exists "".
  - destruct IH as (suf & Hs & Hsuf & Hlast).
    destruct (rstrip chars s) as [|c' r] eqn:Hr.
    + destruct (in_chars chars c) eqn:Hc.
      * exists (String c suf). simpl. rewrite Hc, Hsuf.
        split_and!; [|done..]. by rewrite Hs.
      * exists suf. simpl. rewrite Hc, append_cons.
        split_and!; [|done..]. by rewrite Hs.
    + exists suf. split_and!; [|done..]. by rewrite append_cons, <-Hs.
Qed.

Lemma rstrip_head_outside chars s :
  head_outside chars s = true → head_outside chars (rstrip chars s) = true.
Proof.
  destruct s as [|c s]; simpl; [done|]. intros Hc.
  destruct (rstrip chars s); [|done].
  apply negb_true_iff in Hc. by rewrite Hc; simpl; rewrite Hc.
Qed.

(** [strip] removes exactly the longest runs of characters of [chars] at
    the two ends. *)
Lemma strip_split chars s :
  ∃ pre suf, s = pre +:+ strip chars s +:+ suf
             ∧ all_in chars pre = true
             ∧ all_in chars suf = true
             ∧ head_outside chars (strip chars s) = true
             ∧ last_outside chars (strip chars s) = true.
Proof.
  destruct (lstrip_split chars s) as (pre & Hs & Hpre & Hhead).
  destruct (rstrip_split chars (lstrip chars s)) as (suf & Hl & Hsuf & Hlast).
  exists pre, suf. unfold strip. split_and!; try done.
  - by rewrite <-Hl.
  - by apply rstrip_head_outside.
Qed.

End StripFacts.

(** ** The error monad *)

Section ResultFacts.
Import Py.

Lemma bind_Ok {A B} (m : Result A) (f : A → Result B) (b : B) :
  m ≫= f = Ok b ↔ ∃ a, m = Ok a ∧ f a = Ok b.
Proof.
  destruct m as [a|e]; simpl.
  - split; [by exists a|]. by intros (a' & [= <-] & ?).
  - split; [done|]. by intros (a' & ? & ?).
Qed.

Lemma bind_Ok_l {A B} (a : A) (f : A → Result B) : Ok a ≫= f = f a.
Proof. reflexivity. Qed.

Lemma for_each_nil {S A} (body : S → A → Result S) s :
  Collect.for_each body s [] = Ok s.
Proof. reflexivity. Qed.

Lemma for_each_cons {S A} (body : S → A → Result S) s x l :
  Collect.for_each body s (x :: l)
  = body s x ≫= λ s', Collect.for_each body s' l.
Proof. reflexivity. Qed.

Lemma for_each_app {S A} (body : S → A → Result S) s l1 l2 :
  Collect.for_each body s (l1 ++ l2)
  = Collect.for_each body s l1 ≫= λ s', Collect.for_each body s' l2.
Proof.
  revert s. induction l1 as [|x l1 IH]; intros s; [done|].
  rewrite <-app_comm_cons, !for_each_cons.
  destruct (body s x) as [s1|e]; [|done]. by rewrite !bind_Ok_l, IH.
Qed.

End ResultFacts.

(** ** Extraction *)

Section ExtractFacts.
Import Py IDL Collect.

(** C4.  The ['FilePath'] of an extracted interface is the relative form
    of the node's [FILENAME] from which the characters of
    ['../chromium/src/third_party/WebKit'] are trimmed at both ends: what
    is removed in front and behind consists of characters of that string
    only, and what is left neither starts nor ends with one of them.  The
    trim works on characters, not on path segments. *)
Theorem filepath_is_character_trim (relpath : string → string)
    (interface_node : Node) (filename : string) (d : InterfaceDict) :
  GetProperty interface_node "FILENAME" PNone = PStr filename →
  interface_node_to_dict relpath interface_node = Ok d →
  FilePath d = strip _STRIP_FILEPATH (relpath filename)
  ∧ ∃ front back,
      relpath filename = front +:+ FilePath d +:+ back
      ∧ all_in _STRIP_FILEPATH front = true
      ∧ all_in _STRIP_FILEPATH back = true
      ∧ head_outside _STRIP_FILEPATH (FilePath d) = true
      ∧ last_outside _STRIP_FILEPATH (FilePath d) = true.
Proof.
  intros Hfile Hd. unfold interface_node_to_dict in Hd.
  apply bind_Ok in Hd as (path & Hpath & Hd).
  apply bind_Ok in Hd as (consts & _ & Hd).
  apply bind_Ok in Hd as (attrs & _ & Hd).
  apply bind_Ok in Hd as (ops & _ & Hd).
  injection Hd as <-. simpl.
  unfold get_filepath in Hpath. rewrite Hfile in Hpath.
  case_bool_decide; [done|]. injection Hpath as <-.
  split; [done|]. apply strip_split.
Qed.

Lemma filepath_is_character_trim_witness :
  FilePath (Sample.interface_dict "Foo" "lic/Foo.idl" [])
  = strip _STRIP_FILEPATH (Sample.relpath Sample.webkit_idl)
  ∧ ∃ front back,
      Sample.relpath Sample.webkit_idl
      = front +:+ FilePath (Sample.interface_dict "Foo" "lic/Foo.idl" []) +:+ back
      ∧ all_in _STRIP_FILEPATH front = true
      ∧ all_in _STRIP_FILEPATH back = true
      ∧ head_outside _STRIP_FILEPATH
          (FilePath (Sample.interface_dict "Foo" "lic/Foo.idl" [])) = true
      ∧ last_outside _STRIP_FILEPATH
          (FilePath (Sample.interface_dict "Foo" "lic/Foo.idl" [])) = true.
Proof.
  apply (filepath_is_character_trim Sample.relpath
           (Sample.interface "Foo" Sample.webkit_idl false [])
           Sample.webkit_idl).
  - reflexivity.
  - reflexivity.
Defined.

(** C7.  The ['Name'] of an extracted operation is ['__getter__'] when
    [GETTER] is set, whatever the declared name and the other flags;
    otherwise ['__setter__'] when [SETTER] is set; otherwise
    ['__deleter__'] when [DELETER] is set; otherwise the declared name. *)
Theorem operation_name_sentinel (cls name : string)
    (props : gmap string PyVal) (children : list Node) (d : OperationDict) :
  operation_node_to_dict (mkNode cls name props children) = Ok d →
  op_Name d =
    match truthy (default PNone (props !! "GETTER")),
          truthy (default PNone (props !! "SETTER")),
          truthy (default PNone (props !! "DELETER")) with
    | true, _, _ => "__getter__"
    | false, true, _ => "__setter__"
    | false, false, true => "__deleter__"
    | false, false, false => name
    end.
Proof.
  intros Hd. unfold operation_node_to_dict in Hd.
  apply bind_Ok in Hd as (args & _ & Hd).
  apply bind_Ok in Hd as (arguments & _ & Hd).
  apply bind_Ok in Hd as (ty & _ & Hd).
  injection Hd as <-. simpl.
  unfold get_operation_name, GetProperty, GetName, default.
  by repeat case_match.
Qed.

Lemma operation_name_sentinel_witness :
  op_Name Sample.item_getter_dict = "__getter__".
Proof.
  exact (operation_name_sentinel "Operation" "item"
           {[ "GETTER" := PBool true; "SETTER" := PBool true ]}
           [mkNode "Arguments" "" ∅ []; Sample.type_node "Node"]
           Sample.item_getter_dict eq_refl).
Defined.

End ExtractFacts.

(** ** The partial merger *)

Section PartialMergeFacts.
Import Py IDL Collect.

Implicit Types (reg partials : gmap string InterfaceDict).

Lemma extend_members_fields i other :
  extend_members i other =
    {| Name := Name i; FilePath := FilePath i;
       Consts := Consts i ++ Consts other;
       Attributes := Attributes i ++ Attributes other;
       Operations := Operations i ++ Operations other;
       ExtAttributes := ExtAttributes i;
       Inherit := Inherit i;
       Partial_FilePaths := Partial_FilePaths i |}.
Proof. reflexivity. Qed.

Lemma merge_partial_fields i fragment :
  merge_partial i fragment =
    {| Name := Name i; FilePath := FilePath i;
       Consts := Consts i ++ Consts fragment;
       Attributes := Attributes i ++ Attributes fragment;
       Operations := Operations i ++ Operations fragment;
       ExtAttributes := ExtAttributes i;
       Inherit := Inherit i;
       Partial_FilePaths :=
         Some (default [] (Partial_FilePaths i) ++ [FilePath fragment]) |}.
Proof. reflexivity. Qed.

Lemma merge_partial_item_lookup reg name fragment k :
  merge_partial_item reg (name, fragment) !! k =
    if decide (name = k)
    then (λ i, merge_partial i fragment) <$> reg !! k
    else reg !! k.
Proof.
  unfold merge_partial_item. case_decide as Hk.
  - subst k. destruct (reg !! name) as [i|] eqn:Hi.
    + by rewrite lookup_insert_eq.
    + by rewrite Hi.
  - destruct (reg !! name); [|done]. by rewrite lookup_insert_ne.
Qed.

(** The loop over the items, whatever the order in which they come. *)
Lemma merge_partial_items_lookup (items : list (string * InterfaceDict)) reg k :
  NoDup items.*1 →
  foldl merge_partial_item reg items !! k =
    match (list_to_map items : gmap string InterfaceDict) !! k with
    | Some fragment => (λ i, merge_partial i fragment) <$> reg !! k
    | None => reg !! k
    end.
Proof.
  revert reg. induction items as [|[name fragment] items IH]; intros reg Hnd.
  - done.
  - apply NoDup_cons in Hnd as [Hname Hnd]. cbn [foldl list_to_map foldr].
    rewrite IH by done. rewrite merge_partial_item_lookup.
    case_decide as Hk.
    + subst k. rewrite lookup_insert_eq.
      by rewrite (not_elem_of_list_to_map_1 _ _ Hname).
    + by rewrite lookup_insert_ne.
Qed.

Lemma merge_partial_dicts_lookup reg partials k :
  merge_partial_dicts reg partials !! k =
    match partials !! k with
    | Some fragment => (λ i, merge_partial i fragment) <$> reg !! k
    | None => reg !! k
    end.
Proof.
  unfold merge_partial_dicts.
  rewrite merge_partial_items_lookup by apply NoDup_fst_map_to_list.
  by rewrite list_to_map_to_list.
Qed.

End PartialMergeFacts.

(** ** The mixin merger *)

Section MixinMergeFacts.
Import Py IDL Collect Registry.

Implicit Types (reg : gmap string InterfaceDict).

Lemma getitem_Ok {A} (d : gmap string A) k x :
  getitem d k = Ok x ↔ d !! k = Some x.
Proof. unfold getitem. destruct (d !! k); split; congruence. Qed.

Lemma getitem_val_Ok {A} (d : gmap string A) v x :
  getitem_val d v = Ok x ↔ ∃ k, v = PStr k ∧ d !! k = Some x.
Proof.
  destruct v as [|b|k]; simpl.
  - split; [done|]. by intros (k & ? & _).
  - split; [done|]. by intros (k & ? & _).
  - rewrite getitem_Ok. split; [by exists k|]. by intros (k' & [= <-] & ?).
Qed.

Lemma getitem_val_insert reg a i v :
  is_Some (reg !! a) →
  getitem_val (<[a := i]> reg) v =
    match getitem_val reg v with
    | Ok x => Ok (if bool_decide (v = PStr a) then i else x)
    | Raise e => Raise e
    end.
Proof.
  intros [ra Hra]. destruct v as [|b|k]; simpl; [done..|].
  unfold getitem. destruct (decide (a = k)) as [->|Hk].
  - rewrite lookup_insert_eq, Hra. by rewrite bool_decide_eq_true_2.
  - rewrite lookup_insert_ne by done. destruct (reg !! k); [|done].
    rewrite bool_decide_eq_false_2; [done|congruence].
Qed.

Lemma merge_implement_member_Ok reg a v member ra rb :
  reg !! a = Some ra → getitem_val reg v = Ok rb →
  merge_implement_member a v reg member
  = Ok (<[a := extend_member member ra rb]> reg).
Proof.
  intros Ha Hb. unfold merge_implement_member, getitem.
  by rewrite Ha; simpl; rewrite Hb.
Qed.

(** The loop over [_MEMBERS] for one relation whose two names resolve. *)
Lemma merge_implement_members_Ok reg a v ra rb :
  reg !! a = Some ra → getitem_val reg v = Ok rb →
  for_each (merge_implement_member a v) reg _MEMBERS
  = Ok (<[a := extend_members ra rb]> reg).
Proof.
  intros Ha Hb. unfold _MEMBERS. rewrite for_each_cons.
  rewrite (merge_implement_member_Ok _ _ _ _ ra rb), bind_Ok_l by done.
  set (r1 := extend_member KAttributes ra rb).
  assert (getitem_val (<[a:=r1]> reg) v
          = Ok (if bool_decide (v = PStr a) then r1 else rb)) as Hb1.
  { rewrite getitem_val_insert by eauto. by rewrite Hb. }
  rewrite for_each_cons.
  rewrite (merge_implement_member_Ok (<[a:=r1]> reg) a v KOperations r1 _
             (lookup_insert_eq _ _ _) Hb1), bind_Ok_l.
  rewrite insert_insert_eq.
  set (r2 := extend_member KOperations r1 _).
  assert (getitem_val (<[a:=r2]> reg) v
          = Ok (if bool_decide (v = PStr a) then r2 else rb)) as Hb2.
  { rewrite getitem_val_insert by eauto. by rewrite Hb. }
  rewrite for_each_cons.
  rewrite (merge_implement_member_Ok (<[a:=r2]> reg) a v KConsts r2 _
             (lookup_insert_eq _ _ _) Hb2), bind_Ok_l, for_each_nil.
  rewrite insert_insert_eq. do 2 f_equal.
  subst r1 r2. case_bool_decide as Hv; [|done].
  subst v. apply getitem_val_Ok in Hb as (k & [= <-] & Hk).
  by replace rb with ra by congruence.
Qed.

Lemma merge_implement_skip reg implement :
  truthy (get_reference implement) = false →
  merge_implement reg implement = Ok reg.
Proof. intros Href. unfold merge_implement. by rewrite Href. Qed.

Lemma merge_implement_resolved reg implement ra rb :
  truthy (get_reference implement) = true →
  reg !! GetName implement = Some ra →
  getitem_val reg (get_reference implement) = Ok rb →
  merge_implement reg implement
  = Ok (<[GetName implement := extend_members ra rb]> reg).
Proof.
  intros Href Ha Hb. unfold merge_implement. rewrite Href. cbn [negb].
  by apply merge_implement_members_Ok.
Qed.

Lemma getitem_val_Raise {A} (d : gmap string A) v e :
  getitem_val d v = Raise e → e = KeyError.
Proof.
  destruct v as [|b|k]; simpl; [congruence..|].
  unfold getitem. destruct (d !! k); congruence.
Qed.

Lemma merge_implement_member_unresolved reg a v member :
  reg !! a = None ∨ (∀ k, v = PStr k → reg !! k = None) →
  merge_implement_member a v reg member = Raise KeyError.
Proof.
  intros Hmiss. unfold merge_implement_member, getitem.
  destruct (reg !! a) as [ra|] eqn:Ha; [|reflexivity].
  destruct Hmiss as [?|Hmiss]; [done|]. rewrite bind_Ok_l.
  destruct (getitem_val reg v) as [rb|e] eqn:Hb.
  - apply getitem_val_Ok in Hb as (k & Hk & Hrb).
    specialize (Hmiss k Hk). congruence.
  - by rewrite (getitem_val_Raise _ _ _ Hb).
Qed.

Lemma merge_implement_unresolved reg implement :
  truthy (get_reference implement) = true →
  reg !! GetName implement = None
  ∨ (∀ k, get_reference implement = PStr k → reg !! k = None) →
  merge_implement reg implement = Raise KeyError.
Proof.
  intros Href Hmiss. unfold merge_implement. rewrite Href. cbn [negb].
  unfold _MEMBERS. rewrite for_each_cons.
  by rewrite merge_implement_member_unresolved.
Qed.

(** What an iteration that returns has done. *)
Lemma merge_implement_Ok reg implement reg' :
  merge_implement reg implement = Ok reg' →
  (truthy (get_reference implement) = false ∧ reg' = reg)
  ∨ (truthy (get_reference implement) = true
     ∧ ∃ ra rb, reg !! GetName implement = Some ra
                ∧ getitem_val reg (get_reference implement) = Ok rb
                ∧ reg' = <[GetName implement := extend_members ra rb]> reg).
Proof.
  intros Hok. destruct (truthy (get_reference implement)) eqn:Href.
  - right. split; [done|].
    destruct (reg !! GetName implement) as [ra|] eqn:Ha.
    + destruct (getitem_val reg (get_reference implement)) as [rb|e] eqn:Hb.
      * exists ra, rb. split_and!; [done..|].
        rewrite (merge_implement_resolved _ _ ra rb) in Hok by done.
        congruence.
      * rewrite merge_implement_unresolved in Hok; [done..|].
        right. intros k Hk. rewrite Hk in Hb. simpl in Hb.
        unfold getitem in Hb. by destruct (reg !! k).
    + rewrite merge_implement_unresolved in Hok; [done..|by left].
  - left. rewrite merge_implement_skip in Hok by done. split; congruence.
Qed.

Lemma merge_implement_Raise reg implement e :
  merge_implement reg implement = Raise e → e = KeyError.
Proof.
  intros Hraise. destruct (truthy (get_reference implement)) eqn:Href.
  - destruct (reg !! GetName implement) as [ra|] eqn:Ha.
    + destruct (getitem_val reg (get_reference implement)) as [rb|e'] eqn:Hb.
      * by rewrite (merge_implement_resolved _ _ ra rb) in Hraise.
      * rewrite merge_implement_unresolved in Hraise; [congruence|done|].
        right. intros k Hk. rewrite Hk in Hb. simpl in Hb.
        unfold getitem in Hb. by destruct (reg !! k).
    + rewrite merge_implement_unresolved in Hraise; [congruence|done|by left].
  - by rewrite merge_implement_skip in Hraise.
Qed.

Lemma same_identity_refl i : same_identity i i.
Proof. by repeat split. Qed.

Lemma same_identity_trans i1 i2 i3 :
  same_identity i1 i2 → same_identity i2 i3 → same_identity i1 i3.
Proof. unfold same_identity. intros (?&?&?&?&?) (?&?&?&?&?). split_and!; congruence. Qed.

Lemma merge_implement_frame reg implement reg' :
  merge_implement reg implement = Ok reg' →
  (∀ k, (truthy (get_reference implement) = true → GetName implement ≠ k) →
        reg' !! k = reg !! k)
  ∧ (∀ k, option_Forall2 same_identity (reg !! k) (reg' !! k)).
Proof.
  intros [[Href ->]|(Href & ra & rb & Ha & Hb & ->)]%merge_implement_Ok.
  - split; [done|]. intros k. destruct (reg !! k); constructor.
    apply same_identity_refl.
  - split.
    + intros k Hk. rewrite lookup_insert_ne; [done|]. by apply Hk.
    + intros k. destruct (decide (GetName implement = k)) as [<-|Hk].
      * rewrite lookup_insert_eq, Ha. constructor. by repeat split.
      * rewrite lookup_insert_ne by done. destruct (reg !! k); constructor.
        apply same_identity_refl.
Qed.

Lemma merge_implement_node_frame reg implement_nodes reg' :
  merge_implement_node reg implement_nodes = Ok reg' →
  (∀ k, (∀ implement, implement ∈ implement_nodes →
           truthy (get_reference implement) = true → GetName implement ≠ k) →
        reg' !! k = reg !! k)
  ∧ (∀ k, option_Forall2 same_identity (reg !! k) (reg' !! k)).
Proof.
  unfold merge_implement_node. revert reg.
  induction implement_nodes as [|implement rest IH]; intros reg Hok.
  - injection Hok as <-. split; [done|].
    intros k. destruct (reg !! k); constructor. apply same_identity_refl.
  - rewrite for_each_cons in Hok. apply bind_Ok in Hok as (reg1 & H1 & Hrest).
    apply merge_implement_frame in H1 as [Hkeep1 Hsame1].
    apply IH in Hrest as [Hkeep Hsame]. split.
    + intros k Hk. rewrite Hkeep, Hkeep1; [done|..].
      * apply Hk. by left.
      * intros implement' ?. apply Hk. by right.
    + intros k. specialize (Hsame1 k). specialize (Hsame k).
      destruct Hsame1; inversion Hsame; subst; constructor.
      by eapply same_identity_trans.
Qed.

Lemma merge_implement_node_Raise reg implement_nodes e :
  merge_implement_node reg implement_nodes = Raise e → e = KeyError.
Proof.
  unfold merge_implement_node. revert reg.
  induction implement_nodes as [|implement rest IH]; intros reg; [done|].
  rewrite for_each_cons.
  destruct (merge_implement reg implement) as [reg1|e1] eqn:H1.
  - rewrite bind_Ok_l. apply IH.
  - simpl. intros [= <-]. by eapply merge_implement_Raise.
Qed.

Lemma merge_implement_node_dom reg implement_nodes reg' k :
  merge_implement_node reg implement_nodes = Ok reg' →
  reg' !! k = None ↔ reg !! k = None.
Proof.
  intros [_ Hsame]%merge_implement_node_frame. specialize (Hsame k).
  by destruct Hsame.
Qed.

(** C2.  A relation whose reference is absent (or false) is skipped: the
    registry is as if the relation were not in the list.  A relation
    with a reference whose target name or reference name is not a key of
    the registry makes the mixin merge raise [KeyError].  The partial
    merger instead leaves the registry as it is for a fragment without a
    base. *)
Theorem mixin_merge_skips_or_raises :
  (∀ reg before implement after,
     truthy (get_reference implement) = false →
     merge_implement reg implement = Ok reg
     ∧ merge_implement_node reg (before ++ implement :: after)
       = merge_implement_node reg (before ++ after))
  ∧ (∀ reg implement_nodes implement,
       implement ∈ implement_nodes →
       truthy (get_reference implement) = true →
       reg !! GetName implement = None
       ∨ (∀ k, get_reference implement = PStr k → reg !! k = None) →
       merge_implement_node reg implement_nodes = Raise KeyError)
  ∧ (∀ reg name fragment,
       reg !! name = None → merge_partial_item reg (name, fragment) = reg).
Proof.
  split_and!.
  - intros reg before implement after Href.
    split; [by apply merge_implement_skip|].
    unfold merge_implement_node. rewrite !for_each_app.
    destruct (for_each merge_implement reg before) as [reg1|e]; [|done].
    rewrite !bind_Ok_l, for_each_cons.
    by rewrite merge_implement_skip.
  - intros reg implement_nodes implement Hin Href Hmiss. revert reg Hmiss.
    induction Hin as [implement rest|implement other rest Hin IH];
      intros reg Hmiss; unfold merge_implement_node; rewrite for_each_cons.
    + by rewrite merge_implement_unresolved.
    + destruct (merge_implement reg other) as [reg1|e] eqn:H1.
      * rewrite bind_Ok_l. apply IH; [done|].
        assert (∀ k, reg1 !! k = None ↔ reg !! k = None) as Hdom.
        { intros k. apply (merge_implement_node_dom reg [other]).
          unfold merge_implement_node. by rewrite for_each_cons, H1. }
        destruct Hmiss as [Ha|Hb]; [left; by apply Hdom|right].
        intros k Hk. apply Hdom. by apply Hb.
      * by rewrite (merge_implement_Raise _ _ _ H1).
  - intros reg name fragment Hname. unfold merge_partial_item.
    by rewrite Hname.
Qed.

Lemma mixin_merge_skips_or_raises_witness :
  merge_implement_node Sample.abc
    [Sample.implements_nothing "Z"; Sample.implements "A" "B"]
  = merge_implement_node Sample.abc [Sample.implements "A" "B"]
  ∧ merge_implement_node Sample.abc
      [Sample.implements "A" "B"; Sample.implements "A" "Z"]
    = Raise KeyError
  ∧ merge_partial_item Sample.abc ("Z", Sample.interface_dict "Z" "z.idl" [])
    = Sample.abc.
Proof.
  destruct mixin_merge_skips_or_raises as (Hskip & Hraise & Hdrop).
  split_and!.
  - exact (proj2 (Hskip Sample.abc [] (Sample.implements_nothing "Z")
                    [Sample.implements "A" "B"] eq_refl)).
  - apply (Hraise _ _ (Sample.implements "A" "Z")).
    + do 2 constructor.
    + reflexivity.
    + right. intros k [= <-]. reflexivity.
  - apply Hdrop. reflexivity.
Defined.

Lemma members_grow_refl i : members_grow i i.
Proof. by repeat split. Qed.

Lemma members_grow_trans i1 i2 i3 :
  members_grow i1 i2 → members_grow i2 i3 → members_grow i1 i3.
Proof.
  intros (?&?&?) (?&?&?). repeat split; by etrans.
Qed.

Lemma members_grow_extend i other : members_grow i (extend_members i other).
Proof. rewrite extend_members_fields. repeat split; by apply prefix_app_r. Qed.

Lemma members_grow_merge_partial i fragment :
  members_grow i (merge_partial i fragment).
Proof. rewrite merge_partial_fields. repeat split; by apply prefix_app_r. Qed.

Lemma merge_implement_grows reg implement reg' k :
  merge_implement reg implement = Ok reg' →
  option_Forall2 members_grow (reg !! k) (reg' !! k).
Proof.
  intros [[Href ->]|(Href & ra & rb & Ha & Hb & ->)]%merge_implement_Ok.
  - destruct (reg !! k); constructor. apply members_grow_refl.
  - destruct (decide (GetName implement = k)) as [<-|Hk].
    + rewrite lookup_insert_eq, Ha. constructor. apply members_grow_extend.
    + rewrite lookup_insert_ne by done. destruct (reg !! k); constructor.
      apply members_grow_refl.
Qed.

Lemma merge_implement_node_grows reg implement_nodes reg' k :
  merge_implement_node reg implement_nodes = Ok reg' →
  option_Forall2 members_grow (reg !! k) (reg' !! k).
Proof.
  unfold merge_implement_node. revert reg.
  induction implement_nodes as [|implement rest IH]; intros reg Hok.
  - injection Hok as <-. destruct (reg !! k); constructor.
    apply members_grow_refl.
  - rewrite for_each_cons in Hok. apply bind_Ok in Hok as (reg1 & H1 & Hrest).
    apply (merge_implement_grows _ _ _ k) in H1. apply IH in Hrest.
    destruct H1; inversion Hrest; subst; constructor.
    by eapply members_grow_trans.
Qed.

(** C6.  When the mixin merge returns, no record has appeared or
    disappeared; every record has its ['Name'], ['FilePath'],
    ['Inherit'], ['ExtAttributes'] and ['Partial_FilePaths'] as before,
    and its ['Consts'], ['Attributes'] and ['Operations'] begin with
    the lists it had; a record that is the target of no processed
    relation is unchanged in every field. *)
Theorem mixin_merge_frame reg implement_nodes reg' :
  merge_implement_node reg implement_nodes = Ok reg' →
  (∀ k, reg' !! k = None ↔ reg !! k = None)
  ∧ (∀ k i', reg' !! k = Some i' →
       ∃ i, reg !! k = Some i
            ∧ Name i' = Name i ∧ FilePath i' = FilePath i
            ∧ Inherit i' = Inherit i
            ∧ ExtAttributes i' = ExtAttributes i
            ∧ Partial_FilePaths i' = Partial_FilePaths i
            ∧ Consts i `prefix_of` Consts i'
            ∧ Attributes i `prefix_of` Attributes i'
            ∧ Operations i `prefix_of` Operations i')
  ∧ (∀ k, (∀ implement, implement ∈ implement_nodes →
             truthy (get_reference implement) = true →
             GetName implement ≠ k) →
          reg' !! k = reg !! k).
Proof.
  intros Hok. split_and!.
  - intros k. by eapply merge_implement_node_dom.
  - intros k i' Hi'.
    pose proof (merge_implement_node_grows _ _ _ k Hok) as Hgrow.
    apply merge_implement_node_frame in Hok as [_ Hsame].
    specialize (Hsame k). rewrite Hi' in Hsame, Hgrow.
    inversion Hsame as [i ? (?&?&?&?&?) Hi|]; subst.
    rewrite <- Hi in Hgrow. inversion Hgrow as [? ? (?&?&?)|]; subst.
    exists i. by split_and!.
  - by apply merge_implement_node_frame.
Qed.

Lemma mixin_merge_frame_witness :
  (∀ k, Sample.abc_after_a_b !! k = None ↔ Sample.abc !! k = None)
  ∧ (∀ k i', Sample.abc_after_a_b !! k = Some i' →
       ∃ i, Sample.abc !! k = Some i
            ∧ Name i' = Name i ∧ FilePath i' = FilePath i
            ∧ Inherit i' = Inherit i
            ∧ ExtAttributes i' = ExtAttributes i
            ∧ Partial_FilePaths i' = Partial_FilePaths i
            ∧ Consts i `prefix_of` Consts i'
            ∧ Attributes i `prefix_of` Attributes i'
            ∧ Operations i `prefix_of` Operations i')
  ∧ (∀ k, (∀ implement, implement ∈ [Sample.implements "A" "B"] →
             truthy (get_reference implement) = true →
             GetName implement ≠ k) →
          Sample.abc_after_a_b !! k = Sample.abc !! k).
Proof.
  apply (mixin_merge_frame Sample.abc [Sample.implements "A" "B"]).
  vm_compute. reflexivity.
Defined.

(** C3, as stated, fails: with [B implements C] listed before
    [A implements B], the members [A] receives are those of [B] after
    [C]'s were appended to it, not those of [B] before the merge. *)
Lemma mixin_propagation_chains :
  ∃ final rA rB rA',
    merge_implement_node Sample.abc
      [Sample.implements "B" "C"; Sample.implements "A" "B"] = Ok final
    ∧ Sample.abc !! "A" = Some rA
    ∧ Sample.abc !! "B" = Some rB
    ∧ final !! "A" = Some rA'
    ∧ Attributes rA' ≠ Attributes rA ++ Attributes rB.
Proof.
  exists Sample.abc_after_b_c_a_b,
    (Sample.interface_dict "A" "a.idl" [Sample.attribute_dict "a" "long"]),
    (Sample.interface_dict "B" "b.idl" [Sample.attribute_dict "b" "long"]),
    (Sample.interface_dict "A" "a.idl"
       [Sample.attribute_dict "a" "long"; Sample.attribute_dict "b" "long";
        Sample.attribute_dict "c" "long"]).
  split_and!; [by vm_compute..|]. simpl. discriminate.
Qed.

(** C3, amended.  Relations are processed in list order on the registry
    as it then is.  Processing [A implements B] turns [A]'s member lists
    into [A]'s lists just before the relation followed by [B]'s lists at
    that moment, which hold what earlier relations of the batch appended
    to [B].  They are the lists of before the merge when no earlier
    processed relation has [A] or [B] as its target. *)
Theorem mixin_propagation_in_order reg before implement a b reg1 ra rb :
  GetName implement = a →
  get_reference implement = PStr b →
  b ≠ "" →
  merge_implement_node reg before = Ok reg1 →
  reg1 !! a = Some ra →
  reg1 !! b = Some rb →
  (∃ ra', merge_implement_node reg (before ++ [implement])
          = Ok (<[a := ra']> reg1)
          ∧ Consts ra' = Consts ra ++ Consts rb
          ∧ Attributes ra' = Attributes ra ++ Attributes rb
          ∧ Operations ra' = Operations ra ++ Operations rb)
  ∧ ((∀ earlier, earlier ∈ before →
        truthy (get_reference earlier) = true →
        GetName earlier ≠ a ∧ GetName earlier ≠ b) →
     reg !! a = Some ra ∧ reg !! b = Some rb).
Proof.
  intros <- Hb Hne Hbefore Hra Hrb. split.
  - exists (extend_members ra rb). split; [|done].
    unfold merge_implement_node in *.
    rewrite for_each_app, Hbefore, bind_Ok_l, for_each_cons.
    rewrite (merge_implement_resolved _ _ ra rb); [done|..].
    + rewrite Hb. simpl. by rewrite bool_decide_eq_false_2.
    + done.
    + rewrite Hb. simpl. by apply getitem_Ok.
  - intros Hfresh.
    apply merge_implement_node_frame in Hbefore as [Hkeep _].
    rewrite <-!Hkeep; [done|..]; intros earlier ??; by apply Hfresh.
Qed.

Lemma mixin_propagation_in_order_witness :
  (∃ ra', merge_implement_node Sample.abc
            ([Sample.implements "B" "C"] ++ [Sample.implements "A" "B"])
          = Ok (<["A" := ra']> Sample.abc_after_b_c)
          ∧ Consts ra' = [] ++ []
          ∧ Attributes ra'
            = [Sample.attribute_dict "a" "long"]
              ++ [Sample.attribute_dict "b" "long";
                  Sample.attribute_dict "c" "long"]
          ∧ Operations ra' = [] ++ [])
  ∧ ((∀ earlier, earlier ∈ [Sample.implements "B" "C"] →
        truthy (get_reference earlier) = true →
        GetName earlier ≠ "A" ∧ GetName earlier ≠ "B") →
     Sample.abc !! "A"
     = Some (Sample.interface_dict "A" "a.idl"
               [Sample.attribute_dict "a" "long"])
     ∧ Sample.abc !! "B"
       = Some (Sample.interface_dict "B" "b.idl"
                 [Sample.attribute_dict "b" "long";
                  Sample.attribute_dict "c" "long"])).
Proof.
  apply (mixin_propagation_in_order Sample.abc [Sample.implements "B" "C"]
           (Sample.implements "A" "B") "A" "B" Sample.abc_after_b_c
           (Sample.interface_dict "A" "a.idl"
              [Sample.attribute_dict "a" "long"])
           (Sample.interface_dict "B" "b.idl"
              [Sample.attribute_dict "b" "long";
               Sample.attribute_dict "c" "long"])).
  - reflexivity.
  - reflexivity.
  - discriminate.
  - vm_compute. reflexivity.
  - vm_compute. reflexivity.
  - vm_compute. reflexivity.
Defined.

End MixinMergeFacts.

(** ** What the partial merger does to the registry *)

Section PartialMergeClaims.
Import Py IDL Collect.

Implicit Types (reg partials : gmap string InterfaceDict).

(** C5.  A fragment whose name is not a key of the registry is dropped:
    its iteration returns the registry as it was, the merge is the one
    the other fragments alone would give, and neither the merged registry
    nor the registry the mixin merge then returns has a record under that
    name.  The partial merge is a total function: nothing is raised. *)
Theorem orphan_partial_is_dropped reg partials name fragment :
  partials !! name = Some fragment →
  reg !! name = None →
  merge_partial_item reg (name, fragment) = reg
  ∧ merge_partial_dicts reg partials
    = merge_partial_dicts reg (delete name partials)
  ∧ merge_partial_dicts reg partials !! name = None
  ∧ (∀ implement_nodes final,
       merge_implement_node (merge_partial_dicts reg partials) implement_nodes
       = Ok final →
       final !! name = None).
Proof.
  intros Hfragment Hname.
  assert (merge_partial_dicts reg partials !! name = None) as Hnone.
  { by rewrite merge_partial_dicts_lookup, Hfragment, Hname. }
  split_and!.
  - unfold merge_partial_item. by rewrite Hname.
  - apply map_eq. intros k. rewrite !merge_partial_dicts_lookup.
    destruct (decide (name = k)) as [<-|Hk].
    + by rewrite lookup_delete_eq, Hfragment, Hname.
    + by rewrite lookup_delete_ne.
  - done.
  - intros implement_nodes final Hfinal.
    by apply (merge_implement_node_dom _ _ _ name) in Hfinal as ->.
Qed.

Lemma orphan_partial_is_dropped_witness :
  merge_partial_item Sample.abc ("Foo", Sample.fragment_foo) = Sample.abc
  ∧ merge_partial_dicts Sample.abc {[ "Foo" := Sample.fragment_foo ]}
    = merge_partial_dicts Sample.abc
        (delete "Foo" {[ "Foo" := Sample.fragment_foo ]})
  ∧ merge_partial_dicts Sample.abc {[ "Foo" := Sample.fragment_foo ]} !! "Foo"
    = None
  ∧ (∀ implement_nodes final,
       merge_implement_node
         (merge_partial_dicts Sample.abc {[ "Foo" := Sample.fragment_foo ]})
         implement_nodes
       = Ok final →
       final !! "Foo" = None).
Proof.
  apply (orphan_partial_is_dropped Sample.abc
           {[ "Foo" := Sample.fragment_foo ]} "Foo" Sample.fragment_foo).
  - reflexivity.
  - reflexivity.
Defined.

(** C9.  After the partial merge, a base with a fragment has its own
    ['Name'], ['FilePath'], ['ExtAttributes'] and ['Inherit']; its
    ['Consts'], ['Attributes'] and ['Operations'] are its own followed by
    the fragment's; its ['Partial_FilePaths'] is the list it had (empty
    when the key was absent) followed by the fragment's ['FilePath'].
    Nothing else of the fragment reaches the base, and a record without a
    fragment is left as it was. *)
Theorem partial_merge_propagates_members_only reg partials name base fragment :
  reg !! name = Some base →
  partials !! name = Some fragment →
  merge_partial_dicts reg partials !! name
  = Some {| Name := Name base;
            FilePath := FilePath base;
            Consts := Consts base ++ Consts fragment;
            Attributes := Attributes base ++ Attributes fragment;
            Operations := Operations base ++ Operations fragment;
            ExtAttributes := ExtAttributes base;
            Inherit := Inherit base;
            Partial_FilePaths :=
              Some (default [] (Partial_FilePaths base)
                    ++ [FilePath fragment]) |}
  ∧ (∀ other, partials !! other = None →
       merge_partial_dicts reg partials !! other = reg !! other).
Proof.
  intros Hbase Hfragment. split.
  - rewrite merge_partial_dicts_lookup, Hfragment, Hbase. simpl.
    by rewrite merge_partial_fields.
  - intros other Hother. by rewrite merge_partial_dicts_lookup, Hother.
Qed.

Lemma partial_merge_propagates_members_only_witness :
  merge_partial_dicts {[ "Foo" := Sample.base_foo ]}
    {[ "Foo" := Sample.fragment_foo ]} !! "Foo"
  = Some {| Name := "Foo";
            FilePath := "Foo.idl";
            Consts := [] ++ [];
            Attributes := [Sample.attribute_dict "bar" "DOMString"]
                          ++ [Sample.attribute_dict "one" "long"];
            Operations := [] ++ [Sample.item_getter_dict];
            ExtAttributes := [{| ext_Name := "Exposed" |}];
            Inherit := [{| Parent := "EventTarget" |}];
            Partial_FilePaths := Some ([] ++ ["FooPart.idl"]) |}
  ∧ (∀ other,
       ({[ "Foo" := Sample.fragment_foo ]} : gmap string InterfaceDict)
         !! other = None →
       merge_partial_dicts {[ "Foo" := Sample.base_foo ]}
         {[ "Foo" := Sample.fragment_foo ]} !! other
       = ({[ "Foo" := Sample.base_foo ]} : gmap string InterfaceDict)
           !! other).
Proof.
  apply (partial_merge_propagates_members_only {[ "Foo" := Sample.base_foo ]}
           {[ "Foo" := Sample.fragment_foo ]} "Foo"
           Sample.base_foo Sample.fragment_foo).
  - reflexivity.
  - reflexivity.
Defined.

End PartialMergeClaims.

(** ** The registry builder *)

Section BuilderFacts.
Import Py IDL Collect.

Variable relpath : string → string.

(** The comprehension returns when each definition it keeps can be
    extracted, and a key then holds the dictionary of the last kept
    definition of that name. *)
Lemma dict_of_definitions_lookup (keep : Node → bool) definitions
    (acc : gmap string InterfaceDict) :
  (∀ x, x ∈ definitions → keep x = true →
        ∃ d, interface_node_to_dict relpath x = Ok d) →
  ∃ m, dict_of_definitions relpath keep definitions acc = Ok m
       ∧ ∀ k, m !! k =
           match last (filter (λ x, keep x = true ∧ GetName x = k)
                         definitions) with
           | Some x =>
               match interface_node_to_dict relpath x with
               | Ok d => Some d
               | Raise _ => None
               end
           | None => acc !! k
           end.
Proof.
  revert acc. induction definitions as [|x rest IH]; intros acc Hok.
  - by exists acc.
  - cbn [dict_of_definitions]. destruct (keep x) eqn:Hkeep.
    + destruct (Hok x) as [d Hd]; [by left|done|]. rewrite Hd, bind_Ok_l.
      destruct (IH (<[GetName x := d]> acc)) as (m & Hm & Hlookup).
      { intros y Hy. apply Hok. by right. }
      exists m. split; [done|]. intros k. rewrite Hlookup.
      destruct (decide (GetName x = k)) as [Hk|Hk].
      * rewrite filter_cons_True by done. rewrite last_cons.
        destruct (last _); [done|]. by rewrite Hd, <-Hk, lookup_insert_eq.
      * rewrite filter_cons_False by (by intros [_ ?]).
        destruct (last _); [done|]. by rewrite lookup_insert_ne.
    + destruct (IH acc) as (m & Hm & Hlookup).
      { intros y Hy. apply Hok. by right. }
      exists m. split; [done|]. intros k. rewrite Hlookup.
      by rewrite filter_cons_False by (intros [? _]; congruence).
Qed.

(** Of several kept definitions of one name, the comprehension files the
    one that comes last. *)
Lemma dict_of_definitions_last (keep : Node → bool) before definition after d :
  keep definition = true →
  (∀ later, later ∈ after → keep later = true →
            GetName later ≠ GetName definition) →
  (∀ x, x ∈ before ++ definition :: after → keep x = true →
        ∃ d', interface_node_to_dict relpath x = Ok d') →
  interface_node_to_dict relpath definition = Ok d →
  ∃ interfaces_dict,
    dict_of_definitions relpath keep
      (before ++ definition :: after) ∅ = Ok interfaces_dict
    ∧ interfaces_dict !! GetName definition = Some d.
Proof.
  intros Hkeep Hlast Hok Hd.
  destruct (dict_of_definitions_lookup keep _ ∅ Hok)
    as (m & Hm & Hlookup).
  exists m. split; [done|]. rewrite Hlookup.
  rewrite filter_app, filter_cons_True by done.
  assert (filter (λ x, keep x = true
                       ∧ GetName x = GetName definition) after = []) as ->.
  { apply filter_none. intros x Hx [Hx1 Hx2]. by apply (Hlast x). }
  by rewrite last_snoc, Hd.
Qed.

End BuilderFacts.

(** ** Runs on the sample corpus *)

Section BuilderRuns.
Import Py IDL Collect.

(** C1 fails on the code.  The fragments are collected in a dictionary
    keyed by the interface name, so of two fragments of [Foo] only the
    last one is left when the merge starts: the attribute of the first
    fragment and its path are missing from the merged record. *)
Theorem partial_fragments_collapse :
  build_registry Sample.relpath Sample.parse_file Sample.foo_paths
  = Ok {[ "Foo" :=
            {| Name := "Foo"; FilePath := "Foo.idl";
               Consts := [];
               Attributes := [Sample.attribute_dict "bar" "DOMString";
                              Sample.attribute_dict "two" "long"];
               Operations := [];
               ExtAttributes := [];
               Inherit := [];
               Partial_FilePaths := Some ["FooPart2.idl"] |} ]}.
Proof. vm_compute. reflexivity. Qed.

End BuilderRuns.

(** ** The JSON encoder *)

Section SortFacts.

(** Sorting by key commutes with a map that keeps the keys. *)
Context {A B : Type} (R : relation A) (R' : relation B)
  `{!RelDecision R, !RelDecision R'} (f : A → B).
Hypothesis f_mono : ∀ x y, R' (f x) (f y) ↔ R x y.

Lemma list_merge_fmap (l1 l2 : list A) :
  list_merge R' (f <$> l1) (f <$> l2) = f <$> list_merge R l1 l2.
Proof.
  revert l2. induction l1 as [|x1 l1 IH1]; intros l2.
  - by rewrite fmap_nil, !list_merge_nil_l.
  - induction l2 as [|x2 l2 IH2].
    + by rewrite fmap_nil, !list_merge_nil_r.
    + rewrite !fmap_cons, !list_merge_cons.
      destruct (decide (R x1 x2)) as [Hx|Hx].
      * rewrite decide_True by (by apply f_mono).
        by rewrite fmap_cons, <-IH1.
      * rewrite decide_False by (by rewrite f_mono).
        by rewrite fmap_cons, <-IH2.
Qed.

(** The map on the stack of runs the sort keeps. *)
Let stack_fmap (st : list (option (list A))) : list (option (list B)) :=
  fmap (M:=list) (fmap (M:=option) (fmap (M:=list) f)) st.

Lemma merge_list_to_stack_fmap (st : list (option (list A))) (l : list A) :
  merge_list_to_stack R' (stack_fmap st) (f <$> l)
  = stack_fmap (merge_list_to_stack R st l).
Proof.
  revert l. induction st as [|[l'|] st IH]; intros l; [done| |done].
  unfold stack_fmap in *. rewrite fmap_cons. simpl.
  f_equal. rewrite list_merge_fmap. apply IH.
Qed.

Lemma merge_stack_fmap (st : list (option (list A))) :
  merge_stack R' (stack_fmap st) = f <$> merge_stack R st.
Proof.
  induction st as [|[l|] st IH]; [done| |done].
  unfold stack_fmap in *. rewrite fmap_cons. simpl.
  by rewrite IH, list_merge_fmap.
Qed.

Lemma merge_sort_aux_fmap (st : list (option (list A))) (l : list A) :
  merge_sort_aux R' (stack_fmap st) (f <$> l)
  = f <$> merge_sort_aux R st l.
Proof.
  revert st. induction l as [|x l IH]; intros st.
  - apply merge_stack_fmap.
  - rewrite fmap_cons. cbn [merge_sort_aux].
    rewrite <-IH. f_equal. apply (merge_list_to_stack_fmap st [x]).
Qed.

Lemma merge_sort_fmap (l : list A) :
  merge_sort R' (f <$> l) = f <$> merge_sort R l.
Proof. apply (merge_sort_aux_fmap []). Qed.

End SortFacts.

Section JsonFacts.
Import Json.

(** Induction on a value, with the hypothesis for every element of a list
    and every value of a dictionary. *)
Lemma Value_nested_ind (P : Value → Prop) :
  P Null →
  (∀ b, P (Bool b)) →
  (∀ s, P (Str s)) →
  (∀ lst, Forall P lst → P (Arr lst)) →
  (∀ dct, Forall (λ kv, P kv.2) dct → P (Obj dct)) →
  ∀ o, P o.
Proof.
  intros HNull HBool HStr HArr HObj. fix IH 1. intros [|b|s|lst|dct].
  - exact HNull.
  - apply HBool.
  - apply HStr.
  - apply HArr. revert lst. fix IHlst 1. intros [|value lst].
    + constructor.
    + constructor; [apply IH|apply IHlst].
  - apply HObj. revert dct. fix IHdct 1. intros [|[key value] dct].
    + constructor.
    + constructor; [apply IH|apply IHdct].
Qed.

Global Instance key_le_trans {A} : Transitive (@key_le A).
Proof. intros a b c. unfold key_le. apply transitivity. Qed.

Global Instance key_le_total {A} : Total (@key_le A).
Proof. intros a b. unfold key_le. apply total, _. Qed.

Lemma merge_sort_nil_inv {A} (R : relation A) `{!RelDecision R} (l : list A) :
  merge_sort R l = [] → l = [].
Proof.
  intros Hnil. apply Permutation_nil. by rewrite <-(merge_sort_Permutation R l), Hnil.
Qed.

Variable _encoder : string → string.
Variable _indent : nat.

Lemma iterencode_Arr sort lst level :
  iterencode _encoder _indent sort (Arr lst) level =
    match lst with
    | [] => "[]"
    | _ =>
        block _indent "[" "]" level
          ((λ value, iterencode _encoder _indent sort value (S level)) <$> lst)
    end.
Proof. by destruct lst. Qed.

Lemma iterencode_Obj sort dct level :
  iterencode _encoder _indent sort (Obj dct) level =
    match dct with
    | [] => "{}"
    | _ =>
        block _indent "{" "}" level
          ((λ kv, _encoder kv.1 +:+ _key_separator +:+ kv.2)
             <$> (if sort
                  then merge_sort key_le
                         ((λ kv, (kv.1, iterencode _encoder _indent sort kv.2
                                          (S level))) <$> dct)
                  else (λ kv, (kv.1, iterencode _encoder _indent sort kv.2
                                       (S level))) <$> dct))
    end.
Proof. by destruct dct. Qed.

(** Encoding with [sort_keys] is encoding, in the order given, the value
    whose dictionaries are put in key order. *)
Lemma iterencode_canonical o level :
  iterencode _encoder _indent true o level
  = iterencode _encoder _indent false (canonical o) level.
Proof.
  revert level. induction o as [|b|s|lst IH|dct IH] using Value_nested_ind;
    intros level; try done.
  - cbn [canonical]. rewrite !iterencode_Arr.
    assert ((λ value, iterencode _encoder _indent true value (S level)) <$> lst
            = (λ value, iterencode _encoder _indent false value (S level))
                <$> (canonical <$> lst)) as ->.
    { rewrite <-list_fmap_compose. apply Forall_fmap_ext_1.
      eapply Forall_impl; [exact IH|]. intros v Hv. apply Hv. }
    by destruct lst.
  - cbn [canonical]. rewrite !iterencode_Obj.
    assert ((λ kv : string * Value,
               (kv.1, iterencode _encoder _indent true kv.2 (S level))) <$> dct
            = (λ kv : string * Value,
                 (kv.1, iterencode _encoder _indent false kv.2 (S level)))
                <$> ((λ kv, (kv.1, canonical kv.2)) <$> dct)) as ->.
    { rewrite <-list_fmap_compose. apply Forall_fmap_ext_1.
      eapply Forall_impl; [exact IH|]. intros kv Hkv. simpl. by rewrite Hkv. }
    rewrite (merge_sort_fmap key_le key_le) by done.
    destruct dct as [|item dct]; [done|].
    destruct (merge_sort key_le _) as [|item' sorted'] eqn:Hsorted; [|done].
    by apply merge_sort_nil_inv in Hsorted.
Qed.

Lemma Sorted_ascending {A} (l : list (string * A)) :
  Sorted key_le l → ascending (l.*1) = true.
Proof.
  induction 1 as [|x l Hsorted IH Hhd]; [done|].
  destruct Hhd as [|y l Hxy]; [done|].
  change (ascending ((x :: y :: l).*1))
    with (String.leb x.1 y.1 && ascending ((y :: l).*1)).
  rewrite IH, andb_true_r. by apply Is_true_true.
Qed.

(** The canonical value has its dictionaries in key order at every level. *)
Lemma canonical_keys_sorted o : keys_sorted (canonical o) = true.
Proof.
  induction o as [|b|s|lst IH|dct IH] using Value_nested_ind; try done.
  - cbn [canonical keys_sorted]. apply Is_true_true, forallb_True, Forall_fmap.
    eapply Forall_impl; [exact IH|]. intros v Hv. by apply Is_true_true.
  - cbn [canonical keys_sorted]. apply andb_true_iff. split.
    + apply Sorted_ascending, Sorted_merge_sort, _.
    + apply Is_true_true, forallb_True.
      rewrite merge_sort_Permutation. apply Forall_fmap.
      eapply Forall_impl; [exact IH|]. intros kv Hkv. by apply Is_true_true.
Qed.

Lemma NoDup_fst_inj {A} (l : list (string * A)) x y :
  NoDup (l.*1) → x ∈ l → y ∈ l → x.1 = y.1 → x = y.
Proof.
  induction l as [|z l IH]; intros Hnd Hx Hy Hxy.
  - by apply elem_of_nil in Hx.
  - rewrite fmap_cons in Hnd. apply NoDup_cons in Hnd as [Hz Hnd].
    apply elem_of_cons in Hx as [->|Hx]; apply elem_of_cons in Hy as [->|Hy].
    + done.
    + destruct Hz. rewrite Hxy. by apply list_elem_of_fmap_2.
    + destruct Hz. rewrite <-Hxy. by apply list_elem_of_fmap_2.
    + by apply IH.
Qed.

(** Items with distinct keys have one key order. *)
Lemma merge_sort_key_le_unique {A} (l1 l2 : list (string * A)) :
  NoDup (l1.*1) → l1 ≡ₚ l2 →
  merge_sort key_le l1 = merge_sort key_le l2.
Proof.
  intros Hnd Hperm.
  apply (StronglySorted_unique_strong key_le).
  - intros x1 x2 Hx1 Hx2 H12 H21.
    apply (NoDup_fst_inj l1); [done|..].
    + by rewrite <-(merge_sort_Permutation key_le l1).
    + by rewrite Hperm, <-(merge_sort_Permutation key_le l2).
    + by apply (anti_symm String.le).
  - apply StronglySorted_merge_sort; apply _.
  - apply StronglySorted_merge_sort; apply _.
  - by rewrite !merge_sort_Permutation.
Qed.

(** Two values that are the same document have one canonical value. *)
Lemma canonical_same_document o1 o2 :
  same_document o1 o2 → keys_distinct o1 = true →
  canonical o1 = canonical o2.
Proof.
  revert o2. induction o1 as [|b|s|lst IH|dct IH] using Value_nested_ind;
    intros o2 Hsame Hdistinct; inversion Hsame as [| | |? l2 Hall|? d ? Hall Hperm];
    subst; try done.
  - cbn [canonical keys_distinct] in *. f_equal.
    apply Is_true_true, forallb_True in Hdistinct. clear Hsame.
    induction Hall as [|v1 v2 l1 l2 Hv Hall IHall]; [done|].
    apply Forall_cons in IH as [IHv IH].
    apply Forall_cons in Hdistinct as [Hd1 Hdistinct].
    rewrite !fmap_cons. f_equal; [|by apply IHall].
    apply IHv; [done|]. by apply Is_true_true.
  - cbn [canonical keys_distinct] in *. f_equal.
    apply andb_true_iff in Hdistinct as [Hnd Hdistinct].
    apply bool_decide_eq_true in Hnd.
    apply Is_true_true, forallb_True in Hdistinct.
    assert ((λ kv : string * Value, (kv.1, canonical kv.2)) <$> dct
            = (λ kv : string * Value, (kv.1, canonical kv.2)) <$> d) as Hmap.
    { clear Hperm Hnd Hsame. induction Hall as [|a b l1 l2 [Hk Hv] Hall IHall]; [done|].
      apply Forall_cons in IH as [IHv IH].
      apply Forall_cons in Hdistinct as [Hd1 Hdistinct].
      rewrite !fmap_cons. f_equal; [|by apply IHall].
      f_equal; [done|]. apply IHv; [done|]. by apply Is_true_true. }
    rewrite Hmap. apply merge_sort_key_le_unique.
    + rewrite <-Hmap, <-list_fmap_compose. done.
    + by rewrite Hperm.
Qed.

(** The canonical value is the same document. *)
Lemma canonical_is_same_document o : same_document o (canonical o).
Proof.
  induction o as [|b|s|lst IH|dct IH] using Value_nested_ind;
    try (by constructor).
  - cbn [canonical]. constructor.
    induction IH as [|value lst Hvalue _ IHlst]; [constructor|].
    rewrite fmap_cons. by constructor.
  - cbn [canonical].
    apply (same_Obj dct ((λ kv, (kv.1, canonical kv.2)) <$> dct)).
    + induction IH as [|item dct Hitem _ IHdct]; [constructor|].
      rewrite fmap_cons. by constructor.
    + by rewrite merge_sort_Permutation.
Qed.

(** *** Lines *)

Lemma no_newline_app s t :
  no_newline (s +:+ t) = no_newline s && no_newline t.
Proof.
  induction s as [|c s IH]; [done|].
  rewrite append_cons. cbn [no_newline]. by rewrite IH, andb_assoc.
Qed.

Lemma line_text_no_newline s : line_text s = true → no_newline s = true.
Proof. destruct s; [done|]. cbn [line_text]. by intros [_ ?]%andb_true_iff. Qed.

Lemma line_text_app s t :
  line_text s = true → no_newline t = true → line_text (s +:+ t) = true.
Proof.
  destruct s as [|c s]; [done|]. rewrite append_cons. cbn [line_text].
  intros [Hc Hs]%andb_true_iff Ht. rewrite Hc. cbn [andb].
  change (String c (s +:+ t)) with (String c s +:+ t).
  by rewrite no_newline_app, Hs, Ht.
Qed.

Lemma layout_app_l t first rest :
  t +:+ layout _indent first rest = layout _indent (t +:+ first) rest.
Proof. destruct rest; [done|]. cbn [layout]. by rewrite append_assoc. Qed.

Lemma layout_snoc first rest line :
  layout _indent first (rest ++ [line])
  = layout _indent first rest +:+ indented_line _indent line.
Proof.
  revert first. induction rest as [|l rest IH]; intros first; [done|].
  rewrite <-app_comm_cons. cbn [layout]. by rewrite IH, append_assoc.
Qed.

Lemma layout_line first rest d first2 rest2 :
  layout _indent first rest
    +:+ newline_indent _indent d +:+ layout _indent first2 rest2
  = layout _indent first (rest ++ (d, first2) :: rest2).
Proof.
  revert first. induction rest as [|l rest IH]; intros first.
  - cbn [layout app]. by rewrite layout_app_l.
  - rewrite <-app_comm_cons. cbn [layout]. by rewrite append_assoc, IH.
Qed.

Lemma laid_out_text t : line_text t = true → laid_out _indent t.
Proof. intros Ht. by exists t, []. Qed.

Lemma laid_out_line s d s2 :
  laid_out _indent s → laid_out _indent s2 →
  laid_out _indent (s +:+ newline_indent _indent d +:+ s2).
Proof.
  intros (first & rest & -> & Hfirst & Hrest)
         (first2 & rest2 & -> & Hfirst2 & Hrest2).
  exists first, (rest ++ (d, first2) :: rest2).
  split_and!; [apply layout_line|done|].
  apply Forall_app. split; [done|]. by constructor.
Qed.

Lemma laid_out_app_text s t :
  laid_out _indent s → no_newline t = true → laid_out _indent (s +:+ t).
Proof.
  intros (first & rest & -> & Hfirst & Hrest) Ht.
  destruct rest as [|line rest _] using rev_ind.
  - exists (first +:+ t), []. split_and!; [done| |done].
    by apply line_text_app.
  - apply Forall_app in Hrest as [Hrest Hline].
    rewrite Forall_singleton in Hline.
    exists first, (rest ++ [(line.1, line.2 +:+ t)]). split_and!; [|done|].
    + rewrite !layout_snoc, append_assoc. f_equal.
      unfold indented_line. cbn [fst snd]. by rewrite append_assoc.
    + apply Forall_app. split; [done|]. apply Forall_singleton.
      by apply line_text_app.
Qed.

Lemma laid_out_prepend t s :
  line_text t = true → laid_out _indent s → laid_out _indent (t +:+ s).
Proof.
  intros Ht (first & rest & -> & Hfirst & Hrest).
  exists (t +:+ first), rest. split_and!; [by rewrite layout_app_l| |done].
  by apply line_text_app, line_text_no_newline.
Qed.

Lemma laid_out_concat prefix d chunks :
  laid_out _indent prefix →
  chunks ≠ [] →
  Forall (laid_out _indent) chunks →
  laid_out _indent
    (prefix +:+ newline_indent _indent d
       +:+ String.concat (_item_separator +:+ newline_indent _indent d) chunks).
Proof.
  intros Hprefix Hne Hchunks. revert prefix Hprefix.
  induction Hchunks as [|chunk chunks Hchunk Hchunks IH]; intros prefix Hprefix;
    [done|].
  destruct chunks as [|chunk' chunks].
  - by apply laid_out_line.
  - set (sep := _item_separator +:+ newline_indent _indent d) in *.
    change (String.concat sep (chunk :: chunk' :: chunks))
      with (chunk +:+ sep +:+ String.concat sep (chunk' :: chunks)).
    replace (prefix +:+ newline_indent _indent d
               +:+ chunk +:+ sep +:+ String.concat sep (chunk' :: chunks))
      with (((prefix +:+ newline_indent _indent d +:+ chunk)
               +:+ _item_separator)
              +:+ newline_indent _indent d
              +:+ String.concat sep (chunk' :: chunks))
      by (subst sep; by rewrite !append_assoc).
    apply IH; [done|].
    apply laid_out_app_text; [|done]. by apply laid_out_line.
Qed.

Lemma laid_out_block opening closing level chunks :
  line_text opening = true →
  line_text closing = true →
  chunks ≠ [] →
  Forall (laid_out _indent) chunks →
  laid_out _indent (block _indent opening closing level chunks).
Proof.
  intros Hopen Hclose Hne Hchunks. unfold block.
  set (sep := _item_separator +:+ newline_indent _indent (S level)).
  replace (opening +:+ newline_indent _indent (S level)
             +:+ String.concat sep chunks
             +:+ newline_indent _indent level +:+ closing)
    with ((opening +:+ newline_indent _indent (S level)
             +:+ String.concat sep chunks)
            +:+ newline_indent _indent level +:+ closing)
    by (by rewrite !append_assoc).
  apply laid_out_line; [|by apply laid_out_text].
  apply laid_out_concat; [by apply laid_out_text|done..].
Qed.

(** When the string encoder writes one line that starts with no space,
    the text is laid out in lines indented by multiples of [_indent]. *)
Lemma iterencode_laid_out sort o level :
  (∀ s, line_text (_encoder s) = true) →
  laid_out _indent (iterencode _encoder _indent sort o level).
Proof.
  intros Hencoder. revert level.
  induction o as [|b|s|lst IH|dct IH] using Value_nested_ind; intros level.
  - apply laid_out_text. reflexivity.
  - destruct b; apply laid_out_text; reflexivity.
  - apply laid_out_text, Hencoder.
  - rewrite iterencode_Arr. destruct lst as [|value lst].
    { apply laid_out_text. reflexivity. }
    apply laid_out_block; [done..|].
    apply Forall_fmap. eapply Forall_impl; [exact IH|].
    intros v Hv. apply Hv.
  - rewrite iterencode_Obj. destruct dct as [|item dct].
    { apply laid_out_text. reflexivity. }
    set (encoded := _ <$> item :: dct).
    assert (Forall (λ kv : string * string, laid_out _indent kv.2) encoded)
      as Hencoded.
    { apply Forall_fmap. eapply Forall_impl; [exact IH|].
      intros kv Hkv. apply Hkv. }
    assert (∀ items : list (string * string),
              items ≡ₚ encoded →
              laid_out _indent
                (block _indent "{" "}" level
                   ((λ kv, _encoder kv.1 +:+ _key_separator +:+ kv.2)
                      <$> items))) as Hitems.
    { intros items Hperm. apply laid_out_block; [done..| |].
      - intros Hnil. apply fmap_nil_inv in Hnil. subst items.
        by apply Permutation_nil in Hperm.
      - apply Forall_fmap. rewrite Hperm.
        eapply Forall_impl; [exact Hencoded|]. intros kv Hkv.
        apply laid_out_prepend; [done|]. by apply laid_out_prepend. }
    destruct sort; apply Hitems; [apply merge_sort_Permutation|done].
Qed.

(** *** The specified document *)

Lemma layout_app first rest1 rest2 :
  layout _indent first (rest1 ++ rest2)
  = layout _indent (layout _indent first rest1) rest2.
Proof.
  revert first. induction rest1 as [|line rest1 IH]; intros first; [done|].
  rewrite <-app_comm_cons. cbn [layout]. by rewrite IH, layout_app_l.
Qed.

Lemma layout_cons first d text rest :
  layout _indent first ((d, text) :: rest)
  = first +:+ newline_indent _indent d +:+ layout _indent text rest.
Proof.
  cbn [layout]. f_equal.
  change (indented_line _indent (d, text))
    with (newline_indent _indent d +:+ text).
  by rewrite layout_app_l.
Qed.

Lemma concat_cons_cons sep (x y : string) l :
  String.concat sep (x :: y :: l) = x +:+ sep +:+ String.concat sep (y :: l).
Proof. reflexivity. Qed.

(** The text of a list of lines is its first line, indented, and the
    others each after a line feed. *)
Lemma text_of_lines_layout d text rest :
  text_of_lines _indent ((d, text) :: rest)
  = spaces (_indent * d) +:+ layout _indent text rest.
Proof.
  revert d text. induction rest as [|[d' text'] rest IH]; intros d text.
  - reflexivity.
  - change (text_of_lines _indent ((d, text) :: (d', text') :: rest))
      with ((spaces (_indent * d) +:+ text) +:+ String "010" ""
              +:+ text_of_lines _indent ((d', text') :: rest)).
    rewrite IH, layout_cons. unfold newline_indent.
    by rewrite !append_assoc.
Qed.

(** The lines of the items of a container are the chunks of the items,
    each on a line of its own one level deeper. *)
Lemma lines_of_items_layout {A} (lines_of : A → string → list (nat * string))
    (chunk : A → string) level (items : list A) :
  items ≠ [] →
  Forall (λ item, ∀ trail, ∃ first rest,
            lines_of item trail = (S level, first) :: rest
            ∧ chunk item +:+ trail = layout _indent first rest) items →
  ∀ prefix,
    layout _indent prefix (lines_of_items lines_of items)
    = prefix +:+ newline_indent _indent (S level)
        +:+ String.concat (_item_separator +:+ newline_indent _indent (S level))
              (chunk <$> items).
Proof.
  intros Hne Hitems.
  induction Hitems as [|item items Hitem _ IH]; intros prefix; [done|].
  destruct items as [|item' items].
  - destruct (Hitem "") as (first & rest & Hlines & Htext).
    cbn [lines_of_items]. rewrite app_nil_r, Hlines, layout_cons, <-Htext.
    by rewrite append_empty_r.
  - destruct (Hitem ", ") as (first & rest & Hlines & Htext).
    change (lines_of_items lines_of (item :: item' :: items))
      with (lines_of item ", " ++ lines_of_items lines_of (item' :: items)).
    rewrite layout_app, Hlines, layout_cons, <-Htext, IH by done.
    rewrite !fmap_cons, concat_cons_cons.
    unfold _item_separator. by rewrite !append_assoc.
Qed.

(** The in-order encoding of a value is the text of its lines. *)
Lemma iterencode_document_lines o level lead trail :
  ∃ first rest,
    document_lines _encoder o level lead trail = (level, first) :: rest
    ∧ lead +:+ iterencode _encoder _indent false o level +:+ trail
      = layout _indent first rest.
Proof.
  revert level lead trail.
  induction o as [|b|s|lst IH|dct IH] using Value_nested_ind;
    intros level lead trail.
  - by eexists _, [].
  - destruct b; by eexists _, [].
  - by eexists _, [].
  - rewrite iterencode_Arr. destruct lst as [|value lst]; [by eexists _, []|].
    eexists _, _. split; [reflexivity|].
    rewrite layout_snoc.
    rewrite (lines_of_items_layout _
               (λ value, iterencode _encoder _indent false value (S level))
               level) by
      (first [done
             |eapply Forall_impl; [exact IH|]; intros v Hv trail';
              destruct (Hv (S level) "" trail') as (first & rest & ? & ?);
              by exists first, rest]).
    unfold block. change (indented_line _indent (level, "]" +:+ trail))
      with (newline_indent _indent level +:+ "]" +:+ trail).
    by rewrite !append_assoc.
  - rewrite iterencode_Obj. destruct dct as [|item dct]; [by eexists _, []|].
    eexists _, _. split; [reflexivity|].
    rewrite layout_snoc.
    rewrite (lines_of_items_layout _
               (λ kv : string * Value,
                  _encoder kv.1 +:+ _key_separator
                    +:+ iterencode _encoder _indent false kv.2 (S level))
               level) by
      (first [done
             |eapply Forall_impl; [exact IH|]; intros kv Hkv trail';
              destruct (Hkv (S level) (_encoder kv.1 +:+ ": ") trail')
                as (first & rest & Hlines & Htext);
              exists first, rest; split; [done|];
              rewrite <-Htext; unfold _key_separator;
              by rewrite !append_assoc]).
    rewrite <-list_fmap_compose.
    unfold block. change (indented_line _indent (level, "}" +:+ trail))
      with (newline_indent _indent level +:+ "}" +:+ trail).
    by rewrite !append_assoc.
Qed.

Lemma iterencode_text_of_lines o :
  iterencode _encoder _indent false o 0
  = text_of_lines _indent (document_lines _encoder o 0 "" "").
Proof.
  destruct (iterencode_document_lines o 0 "" "")
    as (first & rest & -> & Htext).
  rewrite text_of_lines_layout, Nat.mul_0_r, <-Htext.
  by rewrite append_empty_r.
Qed.

(** The lines of the specified document are lines: none is empty, holds a
    line feed or starts with a space, so that a line of depth [d] starts
    with [_indent * d] spaces and no more. *)
Lemma line_text_lead lead text :
  lead = "" ∨ line_text lead = true → line_text text = true →
  line_text (lead +:+ text) = true.
Proof.
  intros [->|Hlead] Htext; [done|].
  by apply line_text_app, line_text_no_newline.
Qed.

Lemma lines_of_items_Forall {A} (P : nat * string → Prop)
    (lines_of : A → string → list (nat * string)) (items : list A) :
  Forall (λ item, ∀ trail, no_newline trail = true →
                           Forall P (lines_of item trail)) items →
  Forall P (lines_of_items lines_of items).
Proof.
  induction 1 as [|item items Hitem _ IH]; [constructor|].
  cbn [lines_of_items]. apply Forall_app. split; [|done].
  apply Hitem. by destruct items.
Qed.

Lemma document_lines_line_text o depth lead trail :
  (∀ s, line_text (_encoder s) = true) →
  lead = "" ∨ line_text lead = true →
  no_newline trail = true →
  Forall (λ line, line_text line.2 = true)
    (document_lines _encoder o depth lead trail).
Proof.
  intros Hencoder. revert depth lead trail.
  induction o as [|b|s|lst IH|dct IH] using Value_nested_ind;
    intros depth lead trail Hlead Htrail.
  - apply Forall_singleton, line_text_lead; [done|]. by apply line_text_app.
  - destruct b; apply Forall_singleton, line_text_lead; try done;
      by apply line_text_app.
  - apply Forall_singleton, line_text_lead; [done|]. by apply line_text_app.
  - destruct lst as [|value lst].
    { apply Forall_singleton, line_text_lead; [done|]. by apply line_text_app. }
    cbn [document_lines]. apply Forall_cons. split; [by apply line_text_lead|].
    apply Forall_app. split.
    + apply lines_of_items_Forall. eapply Forall_impl; [exact IH|].
      intros v Hv trail' Htrail'. apply Hv; [by left|done].
    + apply Forall_singleton. by apply line_text_app.
  - destruct dct as [|item dct].
    { apply Forall_singleton, line_text_lead; [done|]. by apply line_text_app. }
    cbn [document_lines]. apply Forall_cons. split; [by apply line_text_lead|].
    apply Forall_app. split.
    + apply lines_of_items_Forall. eapply Forall_impl; [exact IH|].
      intros kv Hkv trail' Htrail'. apply Hkv; [right|done].
      by apply line_text_app.
    + apply Forall_singleton. by apply line_text_app.
Qed.

(** *** Documents in key order *)

Lemma ascending_Sorted {A} (l : list (string * A)) :
  ascending (l.*1) = true → Sorted key_le l.
Proof.
  induction l as [|x l IH]; intros Hl; [constructor|].
  destruct l as [|y l]; [by repeat constructor|].
  change (ascending ((x :: y :: l).*1))
    with (String.leb x.1 y.1 && ascending ((y :: l).*1)) in Hl.
  apply andb_true_iff in Hl as [Hxy Hl].
  constructor; [by apply IH|]. constructor. by apply Is_true_true.
Qed.

Lemma merge_sort_sorted {A} (l : list (string * A)) :
  NoDup (l.*1) → Sorted key_le l → merge_sort key_le l = l.
Proof.
  intros Hnd Hsorted.
  apply (StronglySorted_unique_strong key_le).
  - intros x1 x2 Hx1 Hx2 H12 H21.
    apply (NoDup_fst_inj l); [done|..|by apply (anti_symm String.le)].
    + by rewrite <-(merge_sort_Permutation key_le l).
    + done.
  - apply StronglySorted_merge_sort; apply _.
  - apply Sorted_StronglySorted; [apply _|done].
  - by rewrite merge_sort_Permutation.
Qed.

(** A value whose dictionaries are in key order, with distinct keys, is
    its own canonical value. *)
Lemma canonical_sorted o :
  keys_sorted o = true → keys_distinct o = true → canonical o = o.
Proof.
  induction o as [|b|s|lst IH|dct IH] using Value_nested_ind;
    intros Hsorted Hdistinct; try done.
  - cbn [canonical keys_sorted keys_distinct] in *. f_equal.
    apply Is_true_true, forallb_True in Hsorted.
    apply Is_true_true, forallb_True in Hdistinct.
    induction IH as [|value lst Hvalue _ IHlst]; [done|].
    apply Forall_cons in Hsorted as [Hs1 Hsorted].
    apply Forall_cons in Hdistinct as [Hd1 Hdistinct].
    rewrite fmap_cons. f_equal; [|by apply IHlst].
    apply Hvalue; by apply Is_true_true.
  - cbn [canonical keys_sorted keys_distinct] in *. f_equal.
    apply andb_true_iff in Hsorted as [Hascending Hsorted].
    apply andb_true_iff in Hdistinct as [Hnd Hdistinct].
    apply bool_decide_eq_true in Hnd.
    apply Is_true_true, forallb_True in Hsorted.
    apply Is_true_true, forallb_True in Hdistinct.
    assert ((λ kv : string * Value, (kv.1, canonical kv.2)) <$> dct = dct)
      as ->.
    { clear Hascending Hnd.
      induction IH as [|[key value] dct Hvalue _ IHdct]; [done|].
      apply Forall_cons in Hsorted as [Hs1 Hsorted].
      apply Forall_cons in Hdistinct as [Hd1 Hdistinct].
      rewrite fmap_cons. f_equal; [|by apply IHdct].
      cbn [fst snd] in *. f_equal. apply Hvalue; by apply Is_true_true. }
    apply merge_sort_sorted; [done|]. by apply ascending_Sorted.
Qed.

Lemma same_document_refl o : same_document o o.
Proof.
  induction o as [|b|s|lst IH|dct IH] using Value_nested_ind;
    try (by constructor).
  - constructor. induction IH; by constructor.
  - apply (same_Obj dct dct); [|done]. induction IH; by constructor.
Qed.

(** The same document has distinct keys too. *)
Lemma same_document_keys_distinct o1 o2 :
  same_document o1 o2 → keys_distinct o1 = true → keys_distinct o2 = true.
Proof.
  revert o2. induction o1 as [|b|s|lst IH|dct IH] using Value_nested_ind;
    intros o2 Hsame Hdistinct;
    inversion Hsame as [| | |? l2 Hall|? d ? Hall Hperm]; subst; try done.
  - cbn [keys_distinct] in *.
    apply Is_true_true, forallb_True in Hdistinct.
    apply Is_true_true, forallb_True. clear Hsame.
    induction Hall as [|v1 v2 l1 l2 Hv Hall IHall]; [constructor|].
    apply Forall_cons in IH as [IHv IH].
    apply Forall_cons in Hdistinct as [Hd1 Hdistinct].
    constructor; [|by apply IHall].
    apply Is_true_true, IHv; [done|]. by apply Is_true_true.
  - cbn [keys_distinct] in *.
    apply andb_true_iff in Hdistinct as [Hnd Hdistinct].
    apply bool_decide_eq_true in Hnd.
    apply Is_true_true, forallb_True in Hdistinct.
    assert (dct.*1 = d.*1
            ∧ Forall (λ kv : string * Value,
                        Is_true (keys_distinct kv.2)) d) as [Hkeys Hd].
    { clear Hperm Hnd Hsame.
      induction Hall as [|a b l1 l2 [Hk Hv] Hall IHall]; [done|].
      apply Forall_cons in IH as [IHv IH].
      apply Forall_cons in Hdistinct as [Hd1 Hdistinct].
      destruct (IHall IH Hdistinct) as [Hkeys Hd].
      rewrite !fmap_cons. split; [by f_equal|].
      constructor; [|done]. apply Is_true_true, IHv; [done|].
      by apply Is_true_true. }
    apply andb_true_iff. split.
    + apply bool_decide_eq_true. by rewrite <-Hperm, <-Hkeys.
    + apply Is_true_true, forallb_True. by rewrite <-Hperm.
Qed.

End JsonFacts.

(** ** The export *)

Section ExportFacts.
Import Py IDL Json Collect.

Lemma keys_distinct_Arr {A} (f : A → Value) (l : list A) :
  (∀ x, keys_distinct (f x) = true) → forallb keys_distinct (f <$> l) = true.
Proof.
  intros Hf. apply Is_true_true, forallb_True, Forall_fmap.
  apply Forall_forall. intros x _. by apply Is_true_true.
Qed.

Lemma keys_distinct_value v : keys_distinct (json_of_value v) = true.
Proof. by destruct v. Qed.

Lemma keys_distinct_extattr e : keys_distinct (json_of_extattr e) = true.
Proof. reflexivity. Qed.

Lemma keys_distinct_const c : keys_distinct (json_of_const c) = true.
Proof.
  unfold json_of_const. cbn [keys_distinct forallb snd].
  rewrite (keys_distinct_Arr _ _ keys_distinct_extattr). reflexivity.
Qed.

Lemma keys_distinct_attribute a : keys_distinct (json_of_attribute a) = true.
Proof.
  unfold json_of_attribute. cbn [keys_distinct forallb snd].
  rewrite (keys_distinct_Arr _ _ keys_distinct_extattr), !keys_distinct_value.
  reflexivity.
Qed.

Lemma keys_distinct_argument a : keys_distinct (json_of_argument a) = true.
Proof. reflexivity. Qed.

Lemma keys_distinct_operation o : keys_distinct (json_of_operation o) = true.
Proof.
  unfold json_of_operation. cbn [keys_distinct forallb snd].
  rewrite (keys_distinct_Arr _ _ keys_distinct_extattr).
  rewrite (keys_distinct_Arr _ _ keys_distinct_argument), keys_distinct_value.
  reflexivity.
Qed.

Lemma keys_distinct_inherit i : keys_distinct (json_of_inherit i) = true.
Proof. reflexivity. Qed.

Lemma keys_distinct_interface i : keys_distinct (json_of_interface i) = true.
Proof.
  unfold json_of_interface.
  destruct (Partial_FilePaths i) as [paths|];
    cbn [app keys_distinct forallb snd];
    rewrite (keys_distinct_Arr _ _ keys_distinct_extattr);
    rewrite (keys_distinct_Arr _ _ keys_distinct_const);
    rewrite (keys_distinct_Arr _ _ keys_distinct_attribute);
    rewrite (keys_distinct_Arr _ _ keys_distinct_operation);
    rewrite (keys_distinct_Arr _ _ keys_distinct_inherit);
    [rewrite (keys_distinct_Arr Str paths (λ _, eq_refl))|]; reflexivity.
Qed.

(** A registry is a dictionary of dictionaries with distinct keys. *)
Lemma keys_distinct_registry (dictionary : gmap string InterfaceDict) :
  keys_distinct (json_of_registry dictionary) = true.
Proof.
  unfold json_of_registry. cbn [keys_distinct]. apply andb_true_iff. split.
  - apply bool_decide_eq_true. rewrite <-list_fmap_compose.
    apply (NoDup_fst_map_to_list dictionary).
  - apply Is_true_true, forallb_True, Forall_fmap, Forall_forall.
    intros [name i] _. apply Is_true_true, keys_distinct_interface.
Qed.

Lemma hex_digit_not_newline n : Sample.hex_digit n ≠ "010"%char.
Proof.
  unfold Sample.hex_digit.
  destruct (N.to_nat (N.land n 15)) as [|k]; [done|].
  do 14 (destruct k as [|k]; [done|]). done.
Qed.

Lemma no_newline_unicode_escape n :
  no_newline (Sample.unicode_escape n) = true.
Proof.
  unfold Sample.unicode_escape. cbn [no_newline].
  by rewrite !bool_decide_eq_false_2
    by first [apply hex_digit_not_newline|done].
Qed.

Lemma no_newline_replace n : no_newline (Sample.replace n) = true.
Proof.
  unfold Sample.replace.
  repeat (case_match; [done|]).
  destruct (_ && _) eqn:Hprintable.
  - apply andb_true_iff in Hprintable as [Hlow%N.leb_le Hhigh%N.leb_le].
    cbn [no_newline]. rewrite bool_decide_eq_false_2; [done|].
    intros Hn. apply (f_equal N_of_ascii) in Hn.
    rewrite N_ascii_embedding in Hn by lia. cbn in Hn. lia.
  - case_match; [apply no_newline_unicode_escape|].
    by rewrite no_newline_app, !no_newline_unicode_escape.
Qed.

Lemma no_newline_concat (chunks : list string) :
  Forall (λ chunk, no_newline chunk = true) chunks →
  no_newline (String.concat "" chunks) = true.
Proof.
  induction 1 as [|chunk chunks Hchunk _ IH]; [done|].
  destruct chunks as [|chunk' chunks]; [done|].
  rewrite concat_cons_cons, append_empty_l, no_newline_app, Hchunk. done.
Qed.

Lemma line_text_quoted s :
  no_newline s = true → line_text (Sample.quoted s) = true.
Proof.
  intros Hs. unfold Sample.quoted. cbn [line_text no_newline].
  by rewrite no_newline_app, Hs.
Qed.

Lemma line_text_encode_basestring s :
  line_text (Sample.encode_basestring s) = true.
Proof.
  unfold Sample.encode_basestring, Sample.encode_basestring_ascii.
  destruct (Sample.decode_utf8 s) as [chars|]; [|done]. cbn [fmap option_fmap option_map default].
  apply line_text_quoted, no_newline_concat, Forall_fmap, Forall_forall.
  intros n _. apply no_newline_replace.
Qed.

(** The text of a small document, line by line. *)
Example dump_sample :
  dump Sample.encode_basestring (Obj [("b", Arr [Str "x"]); ("a", Obj [])])
  = "{" +:+ String "010" ("    " +:+ Sample.encode_basestring "a" +:+ ": {}, "
    +:+ String "010" ("    " +:+ Sample.encode_basestring "b" +:+ ": ["
    +:+ String "010" ("        " +:+ Sample.encode_basestring "x"
    +:+ String "010" ("    ]"
    +:+ String "010" "}")))).
Proof. vm_compute. reflexivity. Qed.

(** What the string encoder writes for a name, for control characters
    and beyond ASCII, and where it raises. *)
Example encode_basestring_ascii_samples :
  Sample.encode_basestring_ascii "Node.idl" = Some (Sample.quoted "Node.idl")
  ∧ Sample.encode_basestring_ascii
      (String "034" (String "092" (String "009" (String "010" ""))))
    = Some (Sample.quoted
              (String "092" (String "034" (String "092" (String "092"
                 (String "092" (String "t" (String "092" "n"))))))))
  ∧ Sample.encode_basestring_ascii (String "001" (String "127" ""))
    = Some (Sample.quoted
              (String "092" ("u0001" +:+ String "092" "u007f")))
  ∧ Sample.encode_basestring_ascii (String "195" (String "169" ""))
    = Some (Sample.quoted (String "092" "u00e9"))
  ∧ Sample.encode_basestring_ascii
      (String "226" (String "130" (String "172" "")))
    = Some (Sample.quoted (String "092" "u20ac"))
  ∧ Sample.encode_basestring_ascii
      (String "240" (String "159" (String "152" (String "128" ""))))
    = Some (Sample.quoted
              (String "092" ("ud83d" +:+ String "092" "ude00")))
  ∧ Sample.encode_basestring_ascii (String "233" "") = None
  ∧ Sample.encode_basestring_ascii (String "192" (String "128" "")) = None
  ∧ Sample.encode_basestring_ascii
      (String "244" (String "144" (String "128" (String "128" "")))) = None.
Proof. vm_compute. by repeat split. Qed.

(** C8.  What [export_to_jsonfile] writes depends on the document only:
    any value that is the same document, whatever the order in which its
    dictionaries yield their items, gives the same text.  That text is
    the specified one: for any arrangement of the document in which the
    keys of every dictionary, at every level, are in ascending order of
    their strings (there is one), it is the lines of that arrangement,
    one item per line in that order, each line after four spaces for
    each level of its nesting.  When the string encoder writes one line,
    those lines hold no line feed and start with no space, so that the
    indentation of a line is exactly four times its depth. *)
Theorem export_is_deterministic (_encoder : string → string)
    (dictionary : gmap string InterfaceDict) :
  (∀ o, same_document (json_of_registry dictionary) o →
        export_to_jsonfile _encoder dictionary = dump _encoder o)
  ∧ (∀ o, same_document (json_of_registry dictionary) o →
          keys_sorted o = true →
          export_to_jsonfile _encoder dictionary = specified_text _encoder o)
  ∧ export_to_jsonfile _encoder dictionary
    = iterencode _encoder 4 false (canonical (json_of_registry dictionary)) 0
  ∧ same_document (json_of_registry dictionary)
      (canonical (json_of_registry dictionary))
  ∧ keys_sorted (canonical (json_of_registry dictionary)) = true
  ∧ ((∀ s, line_text (_encoder s) = true) →
     laid_out 4 (export_to_jsonfile _encoder dictionary))
  ∧ ((∀ s, line_text (_encoder s) = true) →
     ∀ o, Forall (λ line, line_text line.2 = true)
            (document_lines _encoder o 0 "" "")).
Proof.
  unfold export_to_jsonfile, dump. split_and!.
  - intros o Hsame. rewrite !iterencode_canonical. f_equal.
    apply canonical_same_document; [done|apply keys_distinct_registry].
  - intros o Hsame Hsorted. unfold specified_text.
    rewrite iterencode_canonical, <-iterencode_text_of_lines. f_equal.
    rewrite (canonical_same_document _ o Hsame)
      by apply keys_distinct_registry.
    apply canonical_sorted; [done|].
    eapply same_document_keys_distinct; [done|apply keys_distinct_registry].
  - apply iterencode_canonical.
  - apply canonical_is_same_document.
  - apply canonical_keys_sorted.
  - apply iterencode_laid_out.
  - intros Hencoder o. by apply document_lines_line_text; [|left|].
Qed.

Lemma export_is_deterministic_witness :
  export_to_jsonfile Sample.encode_basestring Sample.two
  = text_of_lines 4 Sample.two_lines
  ∧ export_to_jsonfile Sample.encode_basestring Sample.two
    = dump Sample.encode_basestring
        (Obj (reverse (prod_map id json_of_interface
                         <$> map_to_list Sample.two)))
  ∧ laid_out 4 (export_to_jsonfile Sample.encode_basestring Sample.two)
  ∧ Forall (λ line, line_text line.2 = true) Sample.two_lines.
Proof.
  pose proof (export_is_deterministic Sample.encode_basestring Sample.two)
    as (Hsame & Htext & _ & Hcanonical & Hsorted & Hlaid & Hlines).
  split_and!.
  - rewrite (Htext _ Hcanonical Hsorted). vm_compute. reflexivity.
  - apply Hsame.
    apply (same_Obj _ (prod_map id json_of_interface
                         <$> map_to_list Sample.two)).
    + apply Forall2_same_length_lookup. split; [done|].
      intros k a b Ha Hb. rewrite Ha in Hb. injection Hb as <-.
      split; [done|]. apply same_document_refl.
    + by rewrite reverse_Permutation.
  - apply Hlaid, line_text_encode_basestring.
  - assert (document_lines Sample.encode_basestring
              (canonical (json_of_registry Sample.two)) 0 "" ""
            = Sample.two_lines) as <- by (vm_compute; reflexivity).
    apply Hlines, line_text_encode_basestring.
Defined.

End ExportFacts.

(** * Further properties *)

(** ** Comprehensions that may raise *)

Section MapMFacts.
Import Py.

Context {A B : Type} (f : A → Result B).

Lemma mapM_nil : mapM f [] = Ok [].
Proof. reflexivity. Qed.

Lemma mapM_cons x l :
  mapM f (x :: l) = f x ≫= λ y, mapM f l ≫= λ k, Ok (y :: k).
Proof. reflexivity. Qed.

(** The comprehension returns the list of the results, in order, when
    every element gives one. *)
Lemma mapM_Ok l l' :
  mapM f l = Ok l' ↔ Forall2 (λ x y, f x = Ok y) l l'.
Proof.
  revert l'. induction l as [|x l IH]; intros l'.
  - rewrite mapM_nil. split.
    + intros [= <-]. constructor.
    + intros Hall. by inversion Hall.
  - rewrite mapM_cons. split.
    + intros (y & Hy & Hrest)%bind_Ok.
      apply bind_Ok in Hrest as (k & Hk & [= <-]).
      constructor; [done|]. by apply IH.
    + intros Hall. inversion Hall as [|? y ? k Hy Hk]; subst.
      apply IH in Hk. by rewrite Hy, bind_Ok_l, Hk, bind_Ok_l.
Qed.

(** It returns exactly when every element gives a result. *)
Lemma mapM_is_Ok l :
  (∃ l', mapM f l = Ok l') ↔ Forall (λ x, ∃ y, f x = Ok y) l.
Proof.
  split.
  - intros [l' Hl']. apply mapM_Ok in Hl'.
    induction Hl' as [|x y l l' Hxy _ IH]; constructor; eauto.
  - induction 1 as [|x l [y Hy] _ [k Hk]].
    + by exists [].
    + exists (y :: k). by rewrite mapM_cons, Hy, bind_Ok_l, Hk, bind_Ok_l.
Qed.

End MapMFacts.

(** ** When the extractor returns *)

Section ExtractionReturns.
Import Py IDL Collect Grammar.

Lemma getindex_is_Ok {A} (l : list A) i :
  (∃ x, getindex l i = Ok x) ↔ i < length l.
Proof.
  unfold getindex. rewrite <-lookup_lt_is_Some.
  destruct (l !! i) as [x|]; split.
  - by eauto.
  - intros _. by exists x.
  - by intros [x ?].
  - by intros [x ?].
Qed.

Lemma get_attribute_type_is_Ok node :
  (∃ ty, get_attribute_type node = Ok ty) ↔ has_type node = true.
Proof.
  unfold get_attribute_type, has_type.
  destruct (GetOneOf node "Type") as [t|]; [|split; [by intros [? ?]|done]].
  destruct (GetChildren t) as [|c cs].
  - split; [by intros [? ?]|]. by rewrite bool_decide_eq_false_2 by auto.
  - split; [|by exists (GetName c)].
    intros _. by apply bool_decide_eq_true_2.
Qed.

Lemma const_node_to_dict_is_Ok const_node :
  (∃ d, const_node_to_dict const_node = Ok d) ↔ const_ok const_node = true.
Proof.
  unfold const_node_to_dict, get_const_type, get_const_value, const_ok, getindex.
  destruct (GetChildren const_node) as [|t [|v rest]]; simpl.
  - split; [by intros [? ?]|done].
  - split; [by intros [? ?]|done].
  - split; [done|by eauto].
Qed.

Lemma attribute_node_to_dict_is_Ok attribute_node :
  (∃ d, attribute_node_to_dict attribute_node = Ok d)
  ↔ has_type attribute_node = true.
Proof.
  rewrite <-get_attribute_type_is_Ok. unfold attribute_node_to_dict.
  destruct (get_attribute_type attribute_node) as [ty|e]; simpl.
  - split; by eauto.
  - split; by intros [? ?].
Qed.

Lemma argument_node_to_dict_is_Ok argument_node :
  (∃ d, argument_node_to_dict argument_node = Ok d)
  ↔ has_type argument_node = true.
Proof.
  rewrite <-get_attribute_type_is_Ok.
  unfold argument_node_to_dict, get_argument_type.
  destruct (get_attribute_type argument_node) as [ty|e]; simpl.
  - split; by eauto.
  - split; by intros [? ?].
Qed.

Lemma Forall_is_Ok_forallb {A B} (f : A → Result B) (ok : A → bool) l :
  (∀ x, (∃ y, f x = Ok y) ↔ ok x = true) →
  (∃ l', mapM f l = Ok l') ↔ forallb ok l = true.
Proof.
  intros Hok. rewrite mapM_is_Ok, <-Is_true_true, forallb_True.
  apply Forall_proper; [|done]. intros x. by rewrite Hok, Is_true_true.
Qed.

Lemma operation_node_to_dict_is_Ok operation_node :
  (∃ d, operation_node_to_dict operation_node = Ok d)
  ↔ operation_ok operation_node = true.
Proof.
  unfold operation_node_to_dict, get_argument_node, operation_ok,
    get_operation_type.
  destruct (GetOneOf operation_node "Arguments") as [a|];
    [|split; [by intros [? ?]|done]].
  rewrite bind_Ok_l, andb_true_iff.
  rewrite <-(Forall_is_Ok_forallb _ _ _ argument_node_to_dict_is_Ok).
  rewrite <-get_attribute_type_is_Ok.
  destruct (mapM argument_node_to_dict (GetListOf a "Argument")) as [args|e].
  - rewrite bind_Ok_l.
    destruct (get_attribute_type operation_node) as [ty|e]; simpl.
    + split; [by eauto|]. intros _. by eauto.
    + split; [by intros [? ?]|]. by intros [_ [? ?]].
  - split; [by intros [? ?]|]. by intros [[? ?] _].
Qed.

Lemma get_filepath_is_Ok relpath interface_node :
  (∃ path, get_filepath relpath interface_node = Ok path)
  ↔ filename_ok interface_node = true.
Proof.
  unfold get_filepath, filename_ok.
  destruct (GetProperty interface_node "FILENAME" PNone) as [|[]|filename];
    try (split; [by intros [? ?]|done]).
  case_bool_decide; simpl.
  - split; [by intros [? ?]|done].
  - split; [done|by eauto].
Qed.

Lemma interface_node_to_dict_is_Ok (relpath : string → string)
    (interface_node : Node) :
  (∃ d, interface_node_to_dict relpath interface_node = Ok d)
  ↔ interface_ok interface_node = true.
Proof.
  unfold interface_node_to_dict, interface_ok. rewrite !andb_true_iff.
  rewrite <-(get_filepath_is_Ok relpath).
  rewrite <-(Forall_is_Ok_forallb _ _ _ const_node_to_dict_is_Ok).
  rewrite <-(Forall_is_Ok_forallb _ _ _ attribute_node_to_dict_is_Ok).
  rewrite <-(Forall_is_Ok_forallb _ _ _ operation_node_to_dict_is_Ok).
  destruct (get_filepath relpath interface_node) as [path|e];
    [rewrite bind_Ok_l|split; [by intros [? ?]|by intros [[[[? ?] _] _] _]]].
  destruct (mapM const_node_to_dict _) as [consts|e];
    [rewrite bind_Ok_l|split; [by intros [? ?]|by intros [[[_ [? ?]] _] _]]].
  destruct (mapM attribute_node_to_dict _) as [attrs|e];
    [rewrite bind_Ok_l|split; [by intros [? ?]|by intros [[_ [? ?]] _]]].
  destruct (mapM operation_node_to_dict _) as [ops|e];
    [rewrite bind_Ok_l|split; [by intros [? ?]|by intros [_ [? ?]]]].
  split; [|by eauto]. intros _. split_and!; by eauto.
Qed.


(** X1.  The extractor returns a dictionary exactly for a node whose
    [FILENAME] is a string that is not empty, whose constants have two
    children, whose attributes are typed and whose operations have an
    argument list with typed arguments and a type; for any other node it
    raises. *)
Theorem extraction_returns_iff_well_formed (relpath : string → string)
    (interface_node : Node) :
  (∃ d, interface_node_to_dict relpath interface_node = Ok d)
  ↔ interface_ok interface_node = true.
Proof. apply interface_node_to_dict_is_Ok. Qed.

End ExtractionReturns.

(** ** What the extractor returns *)

Section ExtractionContent.
Import Py IDL Collect Grammar.








(** X3.  An operation without an [Arguments] child makes the extractor
    raise [AttributeError].  With one, the ['Arguments'] of the
    operation are the [Argument] children of the first [Arguments] child,
    one entry each, in order, with the name of the child and the type
    read under its [Type] child; an empty argument list gives an empty
    ['Arguments'], not an error. *)
Theorem operation_arguments_follow_the_list (operation_node : Node) :
  (GetOneOf operation_node "Arguments" = None →
   operation_node_to_dict operation_node = Raise AttributeError)
  ∧ (∀ a d,
       GetOneOf operation_node "Arguments" = Some a →
       operation_node_to_dict operation_node = Ok d →
       Forall2 (λ argument_node arg,
                  arg_Name arg = GetName argument_node
                  ∧ get_attribute_type argument_node = Ok (arg_Type arg))
         (GetListOf a "Argument") (op_Arguments d))
  ∧ (∀ a,
       GetOneOf operation_node "Arguments" = Some a →
       GetListOf a "Argument" = [] →
       has_type operation_node = true →
       ∃ d, operation_node_to_dict operation_node = Ok d
            ∧ op_Arguments d = []).
Proof.
  unfold operation_node_to_dict, get_argument_node. split_and!.
  - by intros ->.
  - intros a d -> Hd. rewrite bind_Ok_l in Hd.
    apply bind_Ok in Hd as (arguments & Hargs & Hd).
    apply bind_Ok in Hd as (ty & _ & [= <-]). cbn [op_Arguments].
    apply mapM_Ok in Hargs. eapply Forall2_impl; [exact Hargs|].
    intros argument_node arg. unfold argument_node_to_dict, get_argument_type.
    by intros (ty' & -> & [= <-])%bind_Ok.
  - intros a -> -> [ty Hty]%get_attribute_type_is_Ok.
    rewrite bind_Ok_l, mapM_nil, bind_Ok_l.
    unfold get_operation_type. rewrite Hty, bind_Ok_l. by eauto.
Qed.

Lemma operation_arguments_follow_the_list_witness :
  ∃ d, operation_node_to_dict Sample.item_getter = Ok d ∧ op_Arguments d = [].
Proof.
  apply (operation_arguments_follow_the_list Sample.item_getter)
    with (a := mkNode "Arguments" "" ∅ []); reflexivity.
Defined.

(** X4.  The three passes of [main] sort the stream: a node kept by
    [is_implements] is kept by neither interface filter, and the nodes of
    class [Interface] are those kept by [filter_non_partial] together
    with those kept by [filter_partial], each of them by exactly one of
    the two. *)
Theorem passes_partition_the_stream (definitions : list Node) :
  filter (λ d, GetClass d = _INTERFACE_CLASS_NAME) definitions
    ≡ₚ filter (λ d, filter_non_partial d = true) definitions
       ++ filter (λ d, filter_partial d = true) definitions
  ∧ Forall (λ d, ¬ (filter_non_partial d = true ∧ filter_partial d = true))
      definitions
  ∧ Forall (λ d, filter_non_partial d = false ∧ filter_partial d = false)
      (filter (λ d, is_implements d = true) definitions).
Proof.
  split_and!.
  - induction definitions as [|d definitions IH]; [done|].
    rewrite !filter_cons. unfold filter_non_partial, filter_partial in *.
    destruct (decide (GetClass d = _INTERFACE_CLASS_NAME)) as [Hd|Hd].
    + rewrite (bool_decide_eq_true_2 _ Hd). cbn [andb].
      destruct (truthy (GetProperty d _PARTIAL PNone)); cbn [negb].
      * rewrite decide_False, decide_True by done.
        by rewrite IH, Permutation_middle.
      * rewrite decide_True, decide_False by done. by rewrite IH.
    + rewrite (bool_decide_eq_false_2 _ Hd). cbn [andb].
      by rewrite !decide_False by done.
  - apply Forall_forall. intros d _ [Hnp Hp].
    unfold filter_non_partial, filter_partial in *.
    apply andb_true_iff in Hnp as [_ Hnp], Hp as [_ Hp].
    by rewrite Hp in Hnp.
  - apply Forall_forall. intros d [Himpl _]%list_elem_of_filter.
    unfold is_implements, filter_non_partial, filter_partial,
      _INTERFACE_CLASS_NAME in *.
    apply bool_decide_eq_true in Himpl. rewrite Himpl.
    by rewrite bool_decide_eq_false_2 by done.
Qed.

End ExtractionContent.

(** ** More on the merges *)

Section MergeFacts.
Import Py IDL Collect Registry.

Implicit Types (reg partials : gmap string InterfaceDict).

(** X5.  Both merges only append.  After the partial merge, and after a
    mixin merge that returns, every record still starts each of its
    three member lists with the members it had before, in the same
    order: no member is removed, replaced or moved. *)
Theorem merges_are_append_only reg partials implement_nodes :
  (∀ k i i',
     reg !! k = Some i →
     merge_partial_dicts reg partials !! k = Some i' →
     members_grow i i')
  ∧ (∀ reg' k i i',
       merge_implement_node reg implement_nodes = Ok reg' →
       reg !! k = Some i →
       reg' !! k = Some i' →
       members_grow i i').
Proof.
  split.
  - intros k i i' Hi. rewrite merge_partial_dicts_lookup, Hi.
    destruct (partials !! k) as [fragment|]; simpl; intros [= <-].
    + apply members_grow_merge_partial.
    + apply members_grow_refl.
  - intros reg' k i i' Hok Hi Hi'.
    apply (merge_implement_node_grows _ _ _ k) in Hok.
    rewrite Hi, Hi' in Hok. by inversion Hok.
Qed.

Lemma merges_are_append_only_witness :
  members_grow (Sample.interface_dict "A" "a.idl"
                  [Sample.attribute_dict "a" "long"])
    (Sample.interface_dict "A" "a.idl"
       [Sample.attribute_dict "a" "long"; Sample.attribute_dict "b" "long"]).
Proof.
  refine (proj2 (merges_are_append_only Sample.abc ∅
                   [Sample.implements "A" "B"])
            Sample.abc_after_a_b "A" _ _ _ _ _).
  - vm_compute. reflexivity.
  - reflexivity.
  - reflexivity.
Defined.

(** X6.  The partial merge is not idempotent: run a second time with the
    same fragments, it appends the members of a fragment and its path to
    the base a second time. *)
Theorem partial_merge_twice_duplicates reg partials name base fragment :
  reg !! name = Some base →
  partials !! name = Some fragment →
  merge_partial_dicts (merge_partial_dicts reg partials) partials !! name
  = Some {| Name := Name base;
            FilePath := FilePath base;
            Consts := Consts base ++ Consts fragment ++ Consts fragment;
            Attributes :=
              Attributes base ++ Attributes fragment ++ Attributes fragment;
            Operations :=
              Operations base ++ Operations fragment ++ Operations fragment;
            ExtAttributes := ExtAttributes base;
            Inherit := Inherit base;
            Partial_FilePaths :=
              Some (default [] (Partial_FilePaths base)
                    ++ [FilePath fragment; FilePath fragment]) |}.
Proof.
  intros Hbase Hfragment.
  rewrite !merge_partial_dicts_lookup, Hfragment, Hbase. simpl.
  rewrite !merge_partial_fields. simpl.
  by rewrite <-!(assoc_L (++)).
Qed.

Lemma partial_merge_twice_duplicates_witness :
  merge_partial_dicts
    (merge_partial_dicts {[ "Foo" := Sample.base_foo ]}
       {[ "Foo" := Sample.fragment_foo ]})
    {[ "Foo" := Sample.fragment_foo ]} !! "Foo"
  = Some {| Name := "Foo";
            FilePath := "Foo.idl";
            Consts := [] ++ [] ++ [];
            Attributes := [Sample.attribute_dict "bar" "DOMString"]
                          ++ [Sample.attribute_dict "one" "long"]
                          ++ [Sample.attribute_dict "one" "long"];
            Operations := [] ++ [Sample.item_getter_dict]
                          ++ [Sample.item_getter_dict];
            ExtAttributes := [{| ext_Name := "Exposed" |}];
            Inherit := [{| Parent := "EventTarget" |}];
            Partial_FilePaths :=
              Some ([] ++ ["FooPart.idl"; "FooPart.idl"]) |}.
Proof.
  exact (partial_merge_twice_duplicates {[ "Foo" := Sample.base_foo ]}
           {[ "Foo" := Sample.fragment_foo ]} "Foo"
           Sample.base_foo Sample.fragment_foo eq_refl eq_refl).
Defined.

End MergeFacts.

(** ** More on the mixin merger *)

Section MixinFacts.
Import Py IDL Collect Registry.

Implicit Types (reg : gmap string InterfaceDict).

(** The three ways an iteration can go. *)
Lemma merge_implement_cases reg implement :
  (truthy (get_reference implement) = false
   ∧ merge_implement reg implement = Ok reg)
  ∨ (truthy (get_reference implement) = true
     ∧ (reg !! GetName implement = None
        ∨ ∀ k, get_reference implement = PStr k → reg !! k = None)
     ∧ merge_implement reg implement = Raise KeyError)
  ∨ (truthy (get_reference implement) = true
     ∧ ∃ ra rb, reg !! GetName implement = Some ra
                ∧ getitem_val reg (get_reference implement) = Ok rb
                ∧ merge_implement reg implement
                  = Ok (<[GetName implement := extend_members ra rb]> reg)).
Proof.
  destruct (truthy (get_reference implement)) eqn:Href.
  - right. destruct (reg !! GetName implement) as [ra|] eqn:Ha.
    + destruct (getitem_val reg (get_reference implement)) as [rb|e] eqn:Hb.
      * right. split; [done|]. exists ra, rb. split_and!; [done..|].
        by apply merge_implement_resolved.
      * left. assert (∀ k, get_reference implement = PStr k → reg !! k = None)
          as Hmiss.
        { intros k Hk. rewrite Hk in Hb. simpl in Hb. unfold getitem in Hb.
          by destruct (reg !! k). }
        split_and!; [done|by right|]. apply merge_implement_unresolved; auto.
    + left. split_and!; [done|by left|].
      apply merge_implement_unresolved; auto.
  - left. split; [done|]. by apply merge_implement_skip.
Qed.

Lemma resolves_true reg implement :
  resolves reg implement = true ↔
  truthy (get_reference implement) = false
  ∨ ∃ ra rb, reg !! GetName implement = Some ra
             ∧ getitem_val reg (get_reference implement) = Ok rb.
Proof.
  unfold resolves. rewrite orb_true_iff, negb_true_iff, andb_true_iff.
  rewrite bool_decide_eq_true. split.
  - intros [?|[[ra Hra] Hb]]; [by left|right].
    destruct (get_reference implement) as [| |k]; [done..|].
    apply bool_decide_eq_true in Hb as [rb Hrb].
    exists ra, rb. split; [done|]. by apply getitem_Ok.
  - intros [?|(ra & rb & Hra & Hrb)]; [by left|right].
    apply getitem_val_Ok in Hrb as (k & -> & Hk).
    split; [by eauto|]. apply bool_decide_eq_true. by eauto.
Qed.

Lemma resolves_same_keys reg reg' implement :
  (∀ k, reg' !! k = None ↔ reg !! k = None) →
  resolves reg' implement = resolves reg implement.
Proof.
  intros Hdom. unfold resolves. f_equal. f_equal.
  - apply bool_decide_ext. rewrite <-!not_eq_None_Some. by rewrite Hdom.
  - destruct (get_reference implement) as [| |k]; [done..|].
    apply bool_decide_ext. rewrite <-!not_eq_None_Some. by rewrite Hdom.
Qed.

Lemma merge_implement_node_outcome reg implement_nodes :
  match merge_implement_node reg implement_nodes with
  | Ok _ => forallb (resolves reg) implement_nodes = true
  | Raise e => e = KeyError ∧ forallb (resolves reg) implement_nodes = false
  end.
Proof.
  unfold merge_implement_node. revert reg.
  induction implement_nodes as [|implement rest IH]; intros reg; [done|].
  rewrite for_each_cons. cbn [forallb].
  destruct (merge_implement_cases reg implement)
    as [[Href ->]|[(Href & Hmiss & ->)|(Href & ra & rb & Ha & Hb & ->)]].
  - rewrite bind_Ok_l.
    assert (resolves reg implement = true) as ->.
    { apply resolves_true. by left. }
    apply IH.
  - simpl. split; [done|].
    assert (resolves reg implement = false) as ->; [|done].
    apply not_true_is_false. intros [?|(ra & rb & Ha & Hb)]%resolves_true.
    { congruence. }
    destruct Hmiss as [?|Hmiss]; [congruence|].
    apply getitem_val_Ok in Hb as (k & Hk & Hrb).
    specialize (Hmiss k Hk). congruence.
  - rewrite bind_Ok_l.
    assert (resolves reg implement = true) as ->.
    { apply resolves_true. right. by eauto. }
    cbn [andb]. specialize (IH (<[GetName implement:=extend_members ra rb]> reg)).
    assert (forallb (resolves (<[GetName implement:=extend_members ra rb]> reg)) rest
            = forallb (resolves reg) rest) as Hsame.
    { clear IH. induction rest as [|x rest IHrest]; [done|].
      cbn [forallb]. rewrite IHrest. f_equal.
      apply resolves_same_keys. intros k.
      destruct (decide (GetName implement = k)) as [<-|Hk].
      - rewrite lookup_insert_eq, Ha. split; congruence.
      - by rewrite lookup_insert_ne. }
    by rewrite Hsame in IH.
Qed.

(** X7.  The mixin merge returns exactly when every relation of the list
    is skipped or has both its names among the keys of the registry it is
    given; otherwise it raises [KeyError], and no other exception. *)
Theorem mixin_merge_returns_iff_resolved reg implement_nodes :
  match merge_implement_node reg implement_nodes with
  | Ok _ => forallb (resolves reg) implement_nodes = true
  | Raise e => e = KeyError ∧ forallb (resolves reg) implement_nodes = false
  end.
Proof. apply merge_implement_node_outcome. Qed.

(** X8.  A relation of an interface with itself doubles each of its
    member lists: the list is extended with its own content. *)
Theorem self_implements_doubles reg implement a i :
  GetName implement = a →
  get_reference implement = PStr a →
  a ≠ "" →
  reg !! a = Some i →
  merge_implement_node reg [implement]
  = Ok (<[a := {| Name := Name i; FilePath := FilePath i;
                  Consts := Consts i ++ Consts i;
                  Attributes := Attributes i ++ Attributes i;
                  Operations := Operations i ++ Operations i;
                  ExtAttributes := ExtAttributes i;
                  Inherit := Inherit i;
                  Partial_FilePaths := Partial_FilePaths i |}]> reg).
Proof.
  intros <- Href Hne Hi. unfold merge_implement_node.
  rewrite for_each_cons.
  rewrite (merge_implement_resolved _ _ i i); [done|..|done|].
  - rewrite Href. simpl. by rewrite bool_decide_eq_false_2.
  - rewrite Href. simpl. by apply getitem_Ok.
Qed.

Lemma self_implements_doubles_witness :
  merge_implement_node Sample.abc [Sample.implements "A" "A"]
  = Ok (<["A" := {| Name := "A"; FilePath := "a.idl";
                    Consts := [] ++ [];
                    Attributes := [Sample.attribute_dict "a" "long"]
                                  ++ [Sample.attribute_dict "a" "long"];
                    Operations := [] ++ [];
                    ExtAttributes := [];
                    Inherit := [];
                    Partial_FilePaths := None |}]> Sample.abc).
Proof.
  apply (self_implements_doubles Sample.abc (Sample.implements "A" "A") "A"
           (Sample.interface_dict "A" "a.idl"
              [Sample.attribute_dict "a" "long"])).
  - reflexivity.
  - reflexivity.
  - discriminate.
  - reflexivity.
Defined.

Lemma bind_Ok_r {A} (m : Result A) : m ≫= Ok = m.
Proof. by destruct m. Qed.

Lemma unresolved_insert reg a x implement :
  is_Some (reg !! a) →
  reg !! GetName implement = None
  ∨ (∀ k, get_reference implement = PStr k → reg !! k = None) →
  <[a := x]> reg !! GetName implement = None
  ∨ (∀ k, get_reference implement = PStr k → <[a := x]> reg !! k = None).
Proof.
  intros [ra Hra] [Hname|Href]; [left|right].
  - rewrite lookup_insert_ne; [done|]. congruence.
  - intros k Hk. specialize (Href k Hk).
    rewrite lookup_insert_ne; [done|]. congruence.
Qed.

Lemma getitem_val_insert_ne reg a x v :
  is_Some (reg !! a) → v ≠ PStr a →
  getitem_val (<[a := x]> reg) v = getitem_val reg v.
Proof.
  intros Ha Hv. rewrite getitem_val_insert by done.
  destruct (getitem_val reg v); [|done]. by rewrite bool_decide_eq_false_2.
Qed.

(** Two iterations on different targets, neither of which reads the
    other's target, can be run in either order. *)
Lemma merge_implement_swap reg i1 i2 :
  GetName i1 ≠ GetName i2 →
  get_reference i1 ≠ PStr (GetName i2) →
  get_reference i2 ≠ PStr (GetName i1) →
  merge_implement reg i1 ≫= (λ r, merge_implement r i2)
  = merge_implement reg i2 ≫= (λ r, merge_implement r i1).
Proof.
  intros Hne H12 H21.
  destruct (merge_implement_cases reg i1)
    as [[Href1 E1]|[(Href1 & Hmiss1 & E1)|(Href1 & ra1 & rb1 & Ha1 & Hb1 & E1)]];
  destruct (merge_implement_cases reg i2)
    as [[Href2 E2]|[(Href2 & Hmiss2 & E2)|(Href2 & ra2 & rb2 & Ha2 & Hb2 & E2)]];
  rewrite E1, E2, ?bind_Ok_l;
  rewrite ?E1, ?E2, ?merge_implement_skip by done; try done.
  - symmetry. apply merge_implement_unresolved; [done|].
    apply unresolved_insert; [by eauto|done].
  - apply merge_implement_unresolved; [done|].
    apply unresolved_insert; [by eauto|done].
  - rewrite (merge_implement_resolved _ i2 ra2 rb2); [|done|..].
    + rewrite (merge_implement_resolved _ i1 ra1 rb1); [|done|..].
      * f_equal. by apply insert_insert_ne.
      * by rewrite lookup_insert_ne.
      * by rewrite getitem_val_insert_ne by eauto.
    + by rewrite lookup_insert_ne.
    + by rewrite getitem_val_insert_ne by eauto.
Qed.

(** X9.  Two neighbouring relations with different targets, neither of
    which refers to the other's target, can be exchanged: the mixin merge
    gives the same registry, or raises all the same. *)
Theorem independent_relations_commute reg before i1 i2 after :
  GetName i1 ≠ GetName i2 →
  get_reference i1 ≠ PStr (GetName i2) →
  get_reference i2 ≠ PStr (GetName i1) →
  merge_implement_node reg (before ++ i1 :: i2 :: after)
  = merge_implement_node reg (before ++ i2 :: i1 :: after).
Proof.
  intros Hne H12 H21. unfold merge_implement_node. rewrite !for_each_app.
  destruct (for_each merge_implement reg before) as [reg1|e]; [|done].
  rewrite !bind_Ok_l, !for_each_cons.
  pose proof (merge_implement_swap reg1 i1 i2 Hne H12 H21) as Hswap.
  destruct (merge_implement reg1 i1) as [r1|e1];
    destruct (merge_implement reg1 i2) as [r2|e2];
    rewrite ?bind_Ok_l in *; cbn [mbind Result_bind] in *.
  - rewrite !for_each_cons. by rewrite Hswap.
  - rewrite for_each_cons. by rewrite Hswap.
  - rewrite for_each_cons. by rewrite <-Hswap.
  - done.
Qed.

Lemma independent_relations_commute_witness :
  merge_implement_node Sample.abc
    ([] ++ Sample.implements "A" "C" :: Sample.implements "B" "C" :: [])
  = merge_implement_node Sample.abc
      ([] ++ Sample.implements "B" "C" :: Sample.implements "A" "C" :: []).
Proof.
  apply independent_relations_commute; discriminate.
Defined.

End MixinFacts.

(** ** More on the registry builder *)

Section BuilderInvariants.
Import Py IDL Collect Registry.

Variable relpath : string → string.
Variable parse_file : string → Node.

Lemma dict_of_definitions_kept_are_extracted (keep : Node → bool) definitions
    (acc m : gmap string InterfaceDict) :
  dict_of_definitions relpath keep definitions acc = Ok m →
  ∀ x, x ∈ definitions → keep x = true →
       ∃ d, interface_node_to_dict relpath x = Ok d.
Proof.
  revert acc. induction definitions as [|y rest IH]; intros acc Hm x Hx Hkeep.
  - by apply elem_of_nil in Hx.
  - cbn [dict_of_definitions] in Hm.
    destruct (keep y) eqn:Hy.
    + apply bind_Ok in Hm as (d & Hd & Hm).
      apply elem_of_cons in Hx as [->|Hx]; [by eauto|]. by eapply IH.
    + apply elem_of_cons in Hx as [->|Hx]; [congruence|]. by eapply IH.
Qed.

(** The keys of a collected dictionary, read off the stream. *)
Lemma dict_of_definitions_Ok_lookup (keep : Node → bool) definitions
    (m : gmap string InterfaceDict) k :
  dict_of_definitions relpath keep definitions ∅ = Ok m →
  m !! k = last_named keep k definitions ≫= extracted relpath.
Proof.
  intros Hm.
  destruct (dict_of_definitions_lookup relpath keep definitions ∅)
    as (m' & Hm' & Hlookup).
  { by eapply dict_of_definitions_kept_are_extracted. }
  rewrite Hm in Hm'. injection Hm' as <-. rewrite Hlookup.
  unfold last_named, extracted. by destruct (last _).
Qed.

Lemma last_named_Some keep k definitions x :
  last_named keep k definitions = Some x →
  x ∈ definitions ∧ keep x = true ∧ GetName x = k.
Proof.
  unfold last_named. intros Hx%last_Some_elem_of.
  apply list_elem_of_filter in Hx as [[? ?] ?]. done.
Qed.

Lemma last_named_None keep k definitions x :
  last_named keep k definitions = None →
  x ∈ definitions → keep x = true → GetName x ≠ k.
Proof.
  unfold last_named. intros Hnil%last_None Hx Hkeep Hk.
  by apply (filter_nil_not_elem_of _ _ x Hnil).
Qed.

Lemma interface_node_to_dict_identity interface_node d :
  interface_node_to_dict relpath interface_node = Ok d →
  Name d = GetName interface_node ∧ Partial_FilePaths d = None.
Proof.
  unfold interface_node_to_dict. intros (path & _ & Hd)%bind_Ok.
  apply bind_Ok in Hd as (consts & _ & Hd).
  apply bind_Ok in Hd as (attrs & _ & Hd).
  by apply bind_Ok in Hd as (ops & _ & [= <-]).
Qed.

Lemma merge_implement_node_all_skipped (reg : gmap string InterfaceDict)
    implement_nodes :
  Forall (λ x, truthy (get_reference x) = false) implement_nodes →
  merge_implement_node reg implement_nodes = Ok reg.
Proof.
  unfold merge_implement_node. induction 1 as [|x rest Hx _ IH]; [done|].
  by rewrite for_each_cons, merge_implement_skip, bind_Ok_l.
Qed.

(** X10.  When every interface definition of the corpus can be extracted
    and no relation carries a reference, [main] builds this registry: a
    name is a key exactly when the corpus has a non-partial interface of
    that name; its record is the dictionary of the last such definition,
    merged with the dictionary of the last partial definition of that
    name when there is one. *)
Theorem registry_without_mixins (path_list : list string) :
  (∀ x, x ∈ get_definitions parse_file path_list →
        GetClass x = _INTERFACE_CLASS_NAME →
        ∃ d, interface_node_to_dict relpath x = Ok d) →
  (∀ x, x ∈ get_definitions parse_file path_list →
        is_implements x = true → truthy (get_reference x) = false) →
  ∃ final,
    build_registry relpath parse_file path_list = Ok final
    ∧ ∀ k, final !! k =
        base ← last_named filter_non_partial k
                  (get_definitions parse_file path_list)
               ≫= extracted relpath;
        match last_named filter_partial k
                (get_definitions parse_file path_list) with
        | None => Some base
        | Some f => fragment ← extracted relpath f;
                    Some (merge_partial base fragment)
        end.
Proof.
  intros Hok Hskip. unfold build_registry.
  set (definitions := get_definitions parse_file path_list) in *.
  destruct (dict_of_definitions_lookup relpath filter_non_partial definitions ∅)
    as (m1 & Hm1 & _).
  { intros x Hx [Hclass _]%andb_true_iff. apply Hok; [done|].
    by apply bool_decide_eq_true in Hclass. }
  destruct (dict_of_definitions_lookup relpath filter_partial definitions ∅)
    as (m2 & Hm2 & _).
  { intros x Hx [Hclass _]%andb_true_iff. apply Hok; [done|].
    by apply bool_decide_eq_true in Hclass. }
  rewrite Hm1, bind_Ok_l, Hm2, bind_Ok_l.
  rewrite merge_implement_node_all_skipped.
  2:{ apply Forall_forall. intros x [Himpl Hx]%list_elem_of_filter.
      by apply Hskip. }
  eexists. split; [done|]. intros k.
  rewrite merge_partial_dicts_lookup.
  rewrite (dict_of_definitions_Ok_lookup _ _ _ k Hm1).
  rewrite (dict_of_definitions_Ok_lookup _ _ _ k Hm2).
  destruct (last_named filter_partial k definitions) as [f|] eqn:Hf; simpl.
  - destruct (extracted relpath f) as [fragment|] eqn:Hfragment; simpl.
    + by destruct (last_named filter_non_partial k definitions ≫= _).
    + apply last_named_Some in Hf as (Hin & [Hclass _]%andb_true_iff & _).
      apply bool_decide_eq_true in Hclass.
      destruct (Hok f Hin Hclass) as [d Hd].
      unfold extracted in Hfragment. by rewrite Hd in Hfragment.
  - by destruct (last_named filter_non_partial k definitions ≫= _).
Qed.

(** X11.  In a registry that [main] has built, every record is filed
    under its own ['Name'], and it comes from a non-partial interface of
    the corpus with that name: it has that definition's path, extended
    attributes and parents, and its member lists start with that
    definition's members.  Conversely every non-partial interface of the
    corpus has its name among the keys. *)
Theorem registry_records_are_filed_by_name (path_list : list string)
    (final : gmap string InterfaceDict) :
  build_registry relpath parse_file path_list = Ok final →
  (∀ k i,
     final !! k = Some i →
     Name i = k
     ∧ ∃ definition base,
         definition ∈ get_definitions parse_file path_list
         ∧ filter_non_partial definition = true
         ∧ GetName definition = k
         ∧ interface_node_to_dict relpath definition = Ok base
         ∧ FilePath i = FilePath base
         ∧ ExtAttributes i = ExtAttributes base
         ∧ Inherit i = Inherit base
         ∧ members_grow base i)
  ∧ (∀ definition,
       definition ∈ get_definitions parse_file path_list →
       filter_non_partial definition = true →
       is_Some (final !! GetName definition)).
Proof.
  unfold build_registry.
  set (definitions := get_definitions parse_file path_list).
  intros (m1 & Hm1 & Hfinal)%bind_Ok.
  apply bind_Ok in Hfinal as (m2 & Hm2 & Hfinal).
  pose proof (merge_implement_node_frame _ _ _ Hfinal) as [_ Hsame].
  split.
  - intros k i Hi.
    pose proof (merge_implement_node_grows _ _ _ k Hfinal) as Hgrow.
    specialize (Hsame k). rewrite Hi in Hsame, Hgrow.
    inversion Hsame as [i1 ? (Hn & Hp & Hinh & Hext & _) Hi1|]; subst.
    rewrite <-Hi1 in Hgrow. inversion Hgrow as [? ? Hgrow1|]; subst.
    symmetry in Hi1. rewrite merge_partial_dicts_lookup in Hi1.
    rewrite (dict_of_definitions_Ok_lookup _ _ _ k Hm1) in Hi1.
    destruct (last_named filter_non_partial k definitions) as [definition|]
      eqn:Hdef; [|by destruct (m2 !! k)].
    apply last_named_Some in Hdef as (Hin & Hkeep & Hname).
    simpl in Hi1. unfold extracted in Hi1.
    destruct (interface_node_to_dict relpath definition) as [base|e] eqn:Hbase;
      [|by destruct (m2 !! k)].
    pose proof (interface_node_to_dict_identity _ _ Hbase) as [Hbn _].
    assert (Name i1 = Name base ∧ FilePath i1 = FilePath base
            ∧ ExtAttributes i1 = ExtAttributes base
            ∧ Inherit i1 = Inherit base ∧ members_grow base i1)
      as (E1 & E2 & E3 & E4 & E5).
    { destruct (m2 !! k) as [fragment|]; simpl in Hi1; injection Hi1 as <-.
      - split_and!; first [done|apply members_grow_merge_partial].
      - split_and!; first [done|apply members_grow_refl]. }
    split; [congruence|]. exists definition, base.
    split_and!; try done; try congruence.
    by eapply members_grow_trans.
  - intros definition Hin Hkeep.
    specialize (Hsame (GetName definition)).
    rewrite merge_partial_dicts_lookup in Hsame.
    rewrite (dict_of_definitions_Ok_lookup _ _ _ _ Hm1) in Hsame.
    destruct (last_named filter_non_partial (GetName definition) definitions)
      as [x|] eqn:Hx.
    + apply last_named_Some in Hx as (Hxin & Hxkeep & _).
      destruct (dict_of_definitions_kept_are_extracted _ _ _ _ Hm1 x Hxin Hxkeep)
        as [d Hd].
      simpl in Hsame. unfold extracted in Hsame. rewrite Hd in Hsame.
      destruct (m2 !! GetName definition); simpl in Hsame;
        inversion Hsame; by eauto.
    + by eapply last_named_None in Hx.
Qed.

End BuilderInvariants.

Section BuilderInvariantRuns.
Import Py IDL Collect Registry.

Lemma foo_definitions :
  get_definitions Sample.parse_file Sample.foo_paths
  = [Sample.interface "Foo" "Foo.idl" false
       [Sample.attribute "bar" "DOMString"];
     Sample.interface "Foo" "FooPart1.idl" true
       [Sample.attribute "one" "long"];
     Sample.interface "Foo" "FooPart2.idl" true
       [Sample.attribute "two" "long"]].
Proof. reflexivity. Qed.

Lemma registry_without_mixins_witness :
  ∃ final,
    build_registry Sample.relpath Sample.parse_file Sample.foo_paths = Ok final
    ∧ ∀ k, final !! k =
        base ← last_named filter_non_partial k
                  (get_definitions Sample.parse_file Sample.foo_paths)
               ≫= extracted Sample.relpath;
        match last_named filter_partial k
                (get_definitions Sample.parse_file Sample.foo_paths) with
        | None => Some base
        | Some f => fragment ← extracted Sample.relpath f;
                    Some (merge_partial base fragment)
        end.
Proof.
  apply (registry_without_mixins Sample.relpath Sample.parse_file).
  - intros x Hx _. rewrite foo_definitions in Hx.
    repeat (apply elem_of_cons in Hx as [->|Hx]);
      [eexists; reflexivity..|].
    by apply elem_of_nil in Hx.
  - intros x Hx Himpl. rewrite foo_definitions in Hx.
    repeat (apply elem_of_cons in Hx as [->|Hx]); [discriminate..|].
    by apply elem_of_nil in Hx.
Defined.

Lemma registry_records_are_filed_by_name_witness :
  is_Some
    (({[ "Foo" :=
           {| Name := "Foo"; FilePath := "Foo.idl";
              Consts := [];
              Attributes := [Sample.attribute_dict "bar" "DOMString";
                             Sample.attribute_dict "two" "long"];
              Operations := [];
              ExtAttributes := [];
              Inherit := [];
              Partial_FilePaths := Some ["FooPart2.idl"] |} ]}
      : gmap string InterfaceDict)
       !! GetName (Sample.interface "Foo" "Foo.idl" false
                     [Sample.attribute "bar" "DOMString"])).
Proof.
  refine (proj2 (registry_records_are_filed_by_name Sample.relpath
                   Sample.parse_file Sample.foo_paths _ _) _ _ _).
  - vm_compute. reflexivity.
  - rewrite foo_definitions. by left.
  - reflexivity.
Defined.

End BuilderInvariantRuns.

(** ** More on trimming *)

Section StripExact.
Import Py IDL Collect.

Lemma lstrip_all_in chars front s :
  all_in chars front = true → lstrip chars (front +:+ s) = lstrip chars s.
Proof.
  induction front as [|c front IH]; [done|].
  cbn [all_in]. intros [Hc Hfront]%andb_true_iff.
  rewrite append_cons. cbn [lstrip]. rewrite Hc. by apply IH.
Qed.

Lemma lstrip_head_outside chars s :
  head_outside chars s = true → lstrip chars s = s.
Proof.
  destruct s as [|c s]; [done|]. cbn [head_outside lstrip].
  by intros ->%negb_true_iff.
Qed.

Lemma rstrip_all_in_only chars back :
  all_in chars back = true → rstrip chars back = "".
Proof.
  induction back as [|c back IH]; [done|].
  cbn [all_in rstrip]. intros [Hc Hback]%andb_true_iff.
  by rewrite IH, Hc.
Qed.

Lemma rstrip_last_outside chars s :
  last_outside chars s = true → rstrip chars s = s.
Proof.
  induction s as [|c s IH]; [done|]. cbn [rstrip].
  destruct s as [|c' s].
  - cbn [last_outside rstrip]. by intros ->%negb_true_iff.
  - intros Hlast. rewrite IH by done. done.
Qed.

Lemma rstrip_all_in chars s back :
  all_in chars back = true → last_outside chars s = true →
  rstrip chars (s +:+ back) = s.
Proof.
  intros Hback. induction s as [|c s IH]; intros Hlast.
  - by apply rstrip_all_in_only.
  - rewrite append_cons. cbn [rstrip]. destruct s as [|c' s].
    + rewrite append_empty_l, rstrip_all_in_only by done.
      cbn [last_outside] in Hlast. by apply negb_true_iff in Hlast as ->.
    + by rewrite IH.
Qed.

(** [strip] gives back a text that neither starts nor ends with a
    character of [chars], whatever characters of [chars] surround it. *)
Lemma strip_exact chars front s back :
  all_in chars front = true → all_in chars back = true →
  head_outside chars s = true → last_outside chars s = true →
  strip chars (front +:+ s +:+ back) = s.
Proof.
  intros Hfront Hback Hhead Hlast. unfold strip.
  rewrite lstrip_all_in by done. destruct s as [|c s].
  - rewrite append_empty_l.
    destruct (lstrip_split chars back) as (pre & Hsplit & _ & _).
    destruct (rstrip_split chars (lstrip chars back)) as (suf & Hl & _ & Hout).
    destruct (strip_split chars back) as (f & b & Hb & Hf & Hb' & Hh & Hl').
    unfold strip in *.
    destruct (rstrip chars (lstrip chars back)) as [|c r]; [done|].
    cbn [head_outside] in Hh. apply negb_true_iff in Hh.
    assert (all_in chars (String c r +:+ b) = true) as Hall.
    { clear -Hb Hback Hf. revert back Hb Hback.
      induction f as [|x f IH]; intros back Hb Hback.
      - by rewrite append_empty_l in Hb; subst.
      - destruct back as [|y back]; [done|].
        rewrite append_cons in Hb. injection Hb as -> Hb.
        cbn [all_in] in Hback, Hf.
        apply andb_true_iff in Hback as [_ Hback].
        apply andb_true_iff in Hf as [_ Hf]. by eapply IH. }
    rewrite append_cons in Hall. cbn [all_in] in Hall. by rewrite Hh in Hall.
  - rewrite lstrip_head_outside by (by rewrite append_cons).
    by apply rstrip_all_in.
Qed.

(** X12.  For a document below the project root whose path, after the
    root and a slash, starts and ends with characters that do not occur
    in ['../chromium/src/third_party/WebKit'], [get_filepath] returns
    exactly that path below the root. *)
Theorem filepath_below_the_root (relpath : string → string)
    (interface_node : Node) (filename rest : string) :
  GetProperty interface_node "FILENAME" PNone = PStr filename →
  filename ≠ "" →
  relpath filename = _STRIP_FILEPATH +:+ "/" +:+ rest →
  head_outside _STRIP_FILEPATH rest = true →
  last_outside _STRIP_FILEPATH rest = true →
  get_filepath relpath interface_node = Ok rest.
Proof.
  intros Hfile Hne Hrel Hhead Hlast. unfold get_filepath.
  rewrite Hfile, bool_decide_eq_false_2 by done. f_equal. rewrite Hrel.
  rewrite <-(append_empty_r rest) at 1. rewrite <-append_assoc.
  by apply strip_exact.
Qed.

Lemma filepath_below_the_root_witness :
  get_filepath Sample.relpath (Sample.interface "Node" Sample.node_idl false [])
  = Ok "Source/core/dom/Node.idl".
Proof.
  apply (filepath_below_the_root Sample.relpath _ Sample.node_idl).
  - reflexivity.
  - discriminate.
  - reflexivity.
  - reflexivity.
  - reflexivity.
Defined.

End StripExact.

(** ** The list of documents *)

Section NodePathFacts.
Import NodePath ToJson.

Lemma endswith_spec s suffix :
  endswith s suffix = true ↔ ∃ front, s = front +:+ suffix.
Proof.
  induction s as [|c s IH]; cbn [endswith].
  - rewrite orb_false_r, bool_decide_eq_true. split.
    + intros ->. by exists "".
    + intros [front Hfront]. destruct front; [done|].
      by rewrite append_cons in Hfront.
  - rewrite orb_true_iff, bool_decide_eq_true, IH. split.
    + intros [->|[front ->]]; [by exists ""|].
      exists (String c front). by rewrite append_cons.
    + intros [[|c' front] Hfront]; [by left|right].
      rewrite append_cons in Hfront. injection Hfront as -> ->. by eauto.
Qed.

Lemma endswith_app a b suffix :
  endswith b suffix = true → endswith (a +:+ b) suffix = true.
Proof.
  rewrite !endswith_spec. intros [front ->].
  exists (a +:+ front). by rewrite append_assoc.
Qed.

Lemma join_endswith a b suffix :
  endswith b suffix = true → endswith (join a b) suffix = true.
Proof.
  intros Hb. unfold join. destruct (String.prefix "/" b); [done|].
  destruct (_ || _); by repeat apply endswith_app.
Qed.

Lemma get_idl_files_elem_of (walk : Walk) p :
  p ∈ get_idl_files walk ↔
  ∃ dir_path dir_names file_names file_name,
    (dir_path, dir_names, file_names) ∈ walk
    ∧ file_name ∈ file_names
    ∧ endswith file_name file_type = true
    ∧ (file_name ∉ non_idl_set)
    ∧ p = join dir_path file_name.
Proof.
  unfold get_idl_files. rewrite list_elem_of_bind. split.
  - intros ([[dir_path dir_names] file_names] & Hp & Hwalk).
    apply list_elem_of_bind in Hp as (file_name & Hp & Hfile).
    destruct (endswith file_name file_type) eqn:Hends; [|by apply elem_of_nil in Hp].
    case_bool_decide as Hset; [by apply elem_of_nil in Hp|].
    apply list_elem_of_singleton in Hp as ->.
    by exists dir_path, dir_names, file_names, file_name.
  - intros (dir_path & dir_names & file_names & file_name
            & Hwalk & Hfile & Hends & Hset & ->).
    exists (dir_path, dir_names, file_names). split; [|done].
    apply list_elem_of_bind. exists file_name. split; [|done].
    rewrite Hends, bool_decide_eq_false_2 by done. by left.
Qed.

(** X13.  The listed paths are the files of the walk whose name ends in
    ['.idl'], save those named ['InspectorInstrumentation.idl'], each
    joined to the path of its directory; every listed path ends in
    ['.idl']. *)
Theorem only_idl_files_are_listed (walk : Walk) :
  (∀ p, p ∈ get_idl_files walk ↔
        ∃ dir_path dir_names file_names file_name,
          (dir_path, dir_names, file_names) ∈ walk
          ∧ file_name ∈ file_names
          ∧ endswith file_name ".idl" = true
          ∧ file_name ≠ "InspectorInstrumentation.idl"
          ∧ p = join dir_path file_name)
  ∧ Forall (λ p, endswith p ".idl" = true) (get_idl_files walk).
Proof.
  split.
  - intros p. rewrite get_idl_files_elem_of.
    unfold file_type, non_idl_set. do 4 (apply exist_proper; intros ?).
    by rewrite list_elem_of_singleton.
  - apply Forall_forall. intros p.
    intros Hp%get_idl_files_elem_of.
    destruct Hp as (dir_path & ? & ? & file_name & _ & _ & Hends & _ & ->).
    by apply join_endswith.
Qed.

Lemma readlines_line path rest :
  plain path = true →
  readlines (path +:+ String "010" rest)
  = (path +:+ String "010" "") :: readlines rest.
Proof.
  induction path as [|c path IH]; [done|].
  cbn [plain]. intros [[_ Hc]%andb_true_iff Hpath]%andb_true_iff.
  rewrite !append_cons. cbn [readlines].
  apply negb_true_iff in Hc. rewrite Hc. by rewrite IH.
Qed.

Lemma drop_last_line path : drop_last (path +:+ String "010" "") = path.
Proof.
  induction path as [|c path IH]; [done|].
  rewrite append_cons. cbn [drop_last]. rewrite IH.
  by destruct path.
Qed.

Lemma split_plain path : plain path = true → split "009" path = [path].
Proof.
  induction path as [|c path IH]; [done|].
  cbn [plain]. intros [[Hc _]%andb_true_iff Hpath]%andb_true_iff.
  cbn [split]. apply negb_true_iff in Hc. rewrite Hc. by rewrite IH.
Qed.

Lemma load_filepath_lines (paths : list string) :
  Forall (λ p, plain p = true) paths →
  load_filepath
    (foldr (λ filepath rest, filepath +:+ String "010" rest) "" paths)
  = paths.
Proof.
  unfold load_filepath. induction 1 as [|path paths Hpath _ IH]; [done|].
  cbn [foldr]. rewrite readlines_line, fmap_cons by done.
  rewrite IH. by rewrite drop_last_line, split_plain.
Qed.

(** X14.  The path file written by [interface_node_path.py] is read back
    by [load_filepath] as the list of the paths that were written, in
    order, as long as no path holds a tab or a line feed. *)
Theorem path_file_round_trip (walk : Walk) :
  Forall (λ p, plain p = true) (get_idl_files walk) →
  load_filepath (NodePath.main walk) = get_idl_files walk.
Proof. apply load_filepath_lines. Qed.

Lemma path_file_round_trip_witness :
  load_filepath (NodePath.main Sample.walk)
  = ["Source/core/dom/Node.idl"; "Source/core/dom/Element.idl"].
Proof.
  apply (path_file_round_trip Sample.walk).
  repeat constructor.
Defined.

End NodePathFacts.

(** ** [interface_to_json.py]: merging and filing *)

Section ToJsonFacts.
Import Py IDL ToJson.

(** The two loops can be exchanged: each interface goes through the
    partials on its own. *)
Lemma merge_partial_interface_fmap interfaces partials :
  merge_partial_interface interfaces partials
  = merged_with partials <$> interfaces.
Proof.
  unfold merge_partial_interface. revert interfaces.
  induction partials as [|partial partials IH]; intros interfaces.
  - cbn [foldl]. by rewrite list_fmap_id.
  - cbn [foldl]. rewrite IH, <-list_fmap_compose. done.
Qed.

Lemma merged_with_fields partials i :
  i_Name (merged_with partials i) = i_Name i
  ∧ i_FilePath (merged_with partials i) = i_FilePath i
  ∧ i_Attribute (merged_with partials i)
    = i_Attribute i
      ++ ((λ p, Nested (i_Attribute p))
            <$> filter (λ p, i_Name p = i_Name i) partials)
  ∧ i_Operation (merged_with partials i)
    = i_Operation i
      ++ ((λ p, Nested (i_Operation p))
            <$> filter (λ p, i_Name p = i_Name i) partials)
  ∧ i_ExtAttributes (merged_with partials i)
    = i_ExtAttributes i
      ++ ((λ p, Nested (i_ExtAttributes p))
            <$> filter (λ p, i_Name p = i_Name i) partials)
  ∧ i_Constant (merged_with partials i)
    = match i_Constant i with
      | [] => []
      | constants =>
          constants
          ++ ((λ p, Nested (i_Constant p))
                <$> filter (λ p, i_Name p = i_Name i) partials)
      end
  ∧ i_Partial_FilePath (merged_with partials i)
    = match filter (λ p, i_Name p = i_Name i) partials with
      | [] => i_Partial_FilePath i
      | matching =>
          Some (default [] (i_Partial_FilePath i) ++ (i_FilePath <$> matching))
      end.
Proof.
  unfold merged_with. revert i.
  induction partials as [|partial partials IH]; intros i.
  - cbn [foldl]. rewrite filter_nil, fmap_nil.
    split_and!; rewrite ?app_nil_r; try done.
    destruct (i_Constant i) as [|c cs]; [done|]. by rewrite app_nil_r.
  - cbn [foldl]. rewrite filter_cons. case_bool_decide as Hname.
    + rewrite decide_True by done.
      destruct (IH (merge_into i partial)) as (E1 & E2 & E3 & E4 & E5 & E6 & E7).
      cbn [merge_into i_Name i_FilePath i_Attribute i_Operation
             i_ExtAttributes i_Constant i_Partial_FilePath] in *.
      rewrite E1, E2, E3, E4, E5, E6, E7. rewrite !fmap_cons.
      split_and!; try done; try (by rewrite <-(assoc_L (++))).
      * destruct (i_Constant i) as [|c cs]; [done|].
        simpl. f_equal. by rewrite <-(assoc_L (++)).
      * destruct (filter _ partials) as [|m ms]; [done|].
        simpl. by rewrite <-(assoc_L (++)).
    + rewrite decide_False by done. apply IH.
Qed.

(** X15.  [merge_partial_interface] applies every partial: an interface
    keeps its name and path, and each partial of its name, in the order
    of the partials, adds one nested list to its attributes, operations
    and extended attributes and its path to ['Partial_FilePath']; the
    constants of the partials are added only to an interface that has
    constants of its own. *)
Theorem every_partial_is_nested (interfaces partials : list Interface) :
  Forall2
    (λ i i',
       i_Name i' = i_Name i
       ∧ i_FilePath i' = i_FilePath i
       ∧ i_Attribute i'
         = i_Attribute i
           ++ ((λ p, Nested (i_Attribute p))
                 <$> filter (λ p, i_Name p = i_Name i) partials)
       ∧ i_Operation i'
         = i_Operation i
           ++ ((λ p, Nested (i_Operation p))
                 <$> filter (λ p, i_Name p = i_Name i) partials)
       ∧ i_ExtAttributes i'
         = i_ExtAttributes i
           ++ ((λ p, Nested (i_ExtAttributes p))
                 <$> filter (λ p, i_Name p = i_Name i) partials)
       ∧ i_Constant i'
         = match i_Constant i with
           | [] => []
           | constants =>
               constants
               ++ ((λ p, Nested (i_Constant p))
                     <$> filter (λ p, i_Name p = i_Name i) partials)
           end
       ∧ i_Partial_FilePath i'
         = match filter (λ p, i_Name p = i_Name i) partials with
           | [] => i_Partial_FilePath i
           | matching =>
               Some (default [] (i_Partial_FilePath i)
                     ++ (i_FilePath <$> matching))
           end)
    interfaces (merge_partial_interface interfaces partials).
Proof.
  rewrite merge_partial_interface_fmap. apply Forall2_fmap_r, Forall_Forall2_diag.
  apply Forall_forall. intros i _. apply merged_with_fields.
Qed.

Lemma format_dictionary_lookup_acc (l : list Interface)
    (acc : gmap string Interface) k :
  foldl (λ dictionary interface_dict,
           match dictionary !! i_Name interface_dict with
           | Some _ => dictionary
           | None => <[i_Name interface_dict := interface_dict]> dictionary
           end) acc l !! k
  = match acc !! k with
    | Some x => Some x
    | None => head (filter (λ i, i_Name i = k) l)
    end.
Proof.
  revert acc. induction l as [|i l IH]; intros acc.
  - cbn [foldl]. by destruct (acc !! k).
  - cbn [foldl]. rewrite IH, filter_cons.
    destruct (acc !! i_Name i) as [x|] eqn:Hi.
    + destruct (acc !! k) as [y|] eqn:Hk; [done|].
      rewrite decide_False; [done|congruence].
    + destruct (decide (i_Name i = k)) as [<-|Hne].
      * by rewrite lookup_insert_eq, Hi.
      * by rewrite lookup_insert_ne.
Qed.

(** X16.  [format_dictionary] files each dictionary under its name and,
    of several dictionaries with one name, keeps the first: the later
    ones are left out (the newer script keeps the last instead). *)
Theorem first_definition_is_filed (dictionary_list : list Interface) k :
  format_dictionary dictionary_list !! k
  = head (filter (λ i, i_Name i = k) dictionary_list).
Proof.
  unfold format_dictionary. by rewrite format_dictionary_lookup_acc.
Qed.

(** X17.  However many operations an interface has,
    [format_interface_dict] gives its ['Operation'] list one entry: the
    dictionary of the last operation, with the first of its arguments
    alone, and an empty dictionary when the interface has no operation.
    The names of the other operations are not kept. *)
Theorem only_the_last_operation_is_kept (relpath : string → string)
    (interface_node : Node) (d : Interface) :
  format_interface_dict relpath interface_node = Ok d →
  ∃ op,
    i_Operation d = [Own op]
    ∧ (get_operations interface_node = [] → op = None)
    ∧ (∀ front operation,
         get_operations interface_node = front ++ [operation] →
         ∃ x argument,
           op = Some x
           ∧ o_Name x = get_operation_name operation
           ∧ o_Argument x = [argument]
           ∧ argument_dict operation = Ok argument).
Proof.
  unfold format_interface_dict. intros (path & _ & Hd)%bind_Ok.
  apply bind_Ok in Hd as (attrs & _ & Hd).
  apply bind_Ok in Hd as (op & Hop & Hd).
  apply bind_Ok in Hd as (consts & _ & [= <-]).
  exists op. split; [done|].
  unfold operation_dict in Hop. apply bind_Ok in Hop as (dicts & Hdicts & [= <-]).
  apply mapM_Ok in Hdicts. split.
  - intros Hnone. rewrite Hnone in Hdicts. by inversion Hdicts.
  - intros front operation Hops. rewrite Hops in Hdicts.
    apply Forall2_app_inv_l in Hdicts as (dfront & dlast & _ & Hlast & ->).
    inversion Hlast as [|? x ? ? Hx Hnil]; subst. inversion Hnil; subst.
    apply bind_Ok in Hx as (argument & Hargument & Hx).
    apply bind_Ok in Hx as (ty & _ & [= <-]).
    exists {| o_Name := get_operation_name operation;
              o_Argument := [argument]; o_Type := ty;
              o_ExtAttributes := extattr_dict operation |}, argument.
    by rewrite last_snoc.
Qed.

Lemma only_the_last_operation_is_kept_witness :
  ∃ op,
    i_Operation Sample.two_operations_dict = [Own op]
    ∧ (get_operations Sample.two_operations = [] → op = None)
    ∧ (∀ front operation,
         get_operations Sample.two_operations = front ++ [operation] →
         ∃ x argument,
           op = Some x
           ∧ o_Name x = get_operation_name operation
           ∧ o_Argument x = [argument]
           ∧ argument_dict operation = Ok argument).
Proof.
  exact (only_the_last_operation_is_kept Sample.relpath Sample.two_operations
           Sample.two_operations_dict eq_refl).
Defined.

End ToJsonFacts.

(** ** When the registry builder returns *)

Section BuilderReturns.
Import Py IDL Collect Grammar Registry.

Variable relpath : string → string.
Variable parse_file : string → Node.

Lemma dict_of_definitions_keys (keep : Node → bool) definitions
    (m : gmap string InterfaceDict) k :
  dict_of_definitions relpath keep definitions ∅ = Ok m →
  is_Some (m !! k) ↔
  ∃ x, x ∈ definitions ∧ keep x = true ∧ GetName x = k.
Proof.
  intros Hm. rewrite (dict_of_definitions_Ok_lookup relpath _ _ _ k Hm). split.
  - intros [d Hd]. destruct (last_named keep k definitions) as [x|] eqn:Hx;
      [|done].
    apply last_named_Some in Hx. by exists x.
  - intros (x & Hin & Hkeep & Hname).
    destruct (last_named keep k definitions) as [y|] eqn:Hy.
    + apply last_named_Some in Hy as (Hyin & Hykeep & _).
      destruct (dict_of_definitions_kept_are_extracted relpath _ _ _ _ Hm
                  y Hyin Hykeep) as [d Hd].
      simpl. unfold extracted. rewrite Hd. by eauto.
    + by eapply last_named_None in Hy.
Qed.

Lemma interface_is_kept_by_a_pass x :
  GetClass x = _INTERFACE_CLASS_NAME →
  filter_non_partial x = true ∨ filter_partial x = true.
Proof.
  intros Hclass. unfold filter_non_partial, filter_partial.
  rewrite (bool_decide_eq_true_2 _ Hclass).
  destruct (truthy (GetProperty x _PARTIAL PNone)); auto.
Qed.

Lemma kept_is_interface (keep : Node → bool) x :
  keep = filter_non_partial ∨ keep = filter_partial →
  keep x = true → GetClass x = _INTERFACE_CLASS_NAME.
Proof.
  intros [-> | ->] [Hclass _]%andb_true_iff; by apply bool_decide_eq_true in Hclass.
Qed.

Lemma resolves_defines (definitions : list Node)
    (reg : gmap string InterfaceDict) implement :
  (∀ k, is_Some (reg !! k) ↔ defines definitions k) →
  resolves reg implement = true ↔
  (truthy (get_reference implement) = true →
   defines definitions (GetName implement)
   ∧ ∃ k, get_reference implement = PStr k ∧ defines definitions k).
Proof.
  intros Hkeys. rewrite resolves_true. split.
  - intros [Href|(ra & rb & Ha & Hb)] Htrue; [congruence|].
    apply getitem_val_Ok in Hb as (k & Hk & Hrb). split.
    + apply Hkeys. by eauto.
    + exists k. split; [done|]. apply Hkeys. by eauto.
  - intros Hdef. destruct (truthy (get_reference implement)) eqn:Href;
      [right|by left].
    destruct Hdef as ([ra Hra]%Hkeys & k & Hk & [rb Hrb]%Hkeys); [done|].
    exists ra, rb. split; [done|]. apply getitem_val_Ok. by eauto.
Qed.

(** X18.  [main] gets as far as the export exactly when every node of
    class [Interface] in the corpus, partial or not, has the shape the
    extractor relies on, and every relation that carries a reference
    names, as its target and as its reference, non-partial interfaces of
    the corpus.  A malformed fragment stops the run even when it has no
    base, and so does a malformed definition that a later one of the same
    name would replace. *)
Theorem build_returns_iff_corpus_is_sound (path_list : list string) :
  (∃ final, build_registry relpath parse_file path_list = Ok final)
  ↔ (∀ x, x ∈ get_definitions parse_file path_list →
          GetClass x = _INTERFACE_CLASS_NAME → interface_ok x = true)
    ∧ (∀ x, x ∈ get_definitions parse_file path_list →
            is_implements x = true →
            truthy (get_reference x) = true →
            defines (get_definitions parse_file path_list) (GetName x)
            ∧ ∃ k, get_reference x = PStr k
                   ∧ defines (get_definitions parse_file path_list) k).
Proof.
  unfold build_registry.
  set (definitions := get_definitions parse_file path_list). split.
  - intros (final & Hfinal). apply bind_Ok in Hfinal as (m1 & Hm1 & Hfinal).
    apply bind_Ok in Hfinal as (m2 & Hm2 & Hfinal). split.
    + intros x Hx Hclass. apply (interface_node_to_dict_is_Ok relpath).
      destruct (interface_is_kept_by_a_pass x Hclass) as [Hkeep|Hkeep].
      * exact (dict_of_definitions_kept_are_extracted relpath _ _ _ _ Hm1
                 x Hx Hkeep).
      * exact (dict_of_definitions_kept_are_extracted relpath _ _ _ _ Hm2
                 x Hx Hkeep).
    + intros x Hx Himpl.
      pose proof (merge_implement_node_outcome (merge_partial_dicts m1 m2)
                    (filter (λ d, is_implements d = true) definitions)) as Hout.
      rewrite Hfinal in Hout.
      apply Is_true_true, forallb_True in Hout.
      rewrite Forall_forall in Hout. specialize (Hout x).
      apply (resolves_defines definitions (merge_partial_dicts m1 m2)).
      * intros k. rewrite merge_partial_dicts_lookup.
        rewrite <-(dict_of_definitions_keys _ _ _ k Hm1).
        destruct (m2 !! k); [|done]. by rewrite fmap_is_Some.
      * apply Is_true_true, Hout. by apply list_elem_of_filter.
  - intros [Hshape Hrelations].
    destruct (dict_of_definitions_lookup relpath filter_non_partial definitions ∅)
      as (m1 & Hm1 & _).
    { intros x Hx Hkeep. apply interface_node_to_dict_is_Ok, Hshape; [done|].
      by eapply kept_is_interface; [left|]. }
    destruct (dict_of_definitions_lookup relpath filter_partial definitions ∅)
      as (m2 & Hm2 & _).
    { intros x Hx Hkeep. apply interface_node_to_dict_is_Ok, Hshape; [done|].
      by eapply kept_is_interface; [right|]. }
    rewrite Hm1, bind_Ok_l, Hm2, bind_Ok_l.
    pose proof (merge_implement_node_outcome (merge_partial_dicts m1 m2)
                  (filter (λ d, is_implements d = true) definitions)) as Hout.
    destruct (merge_implement_node _ _) as [final|e]; [by eauto|].
    destruct Hout as [_ Hout]. apply not_true_iff_false in Hout.
    destruct Hout. apply Is_true_true, forallb_True, Forall_forall.
    intros x [Himpl Hx]%list_elem_of_filter. apply Is_true_true.
    apply (resolves_defines definitions).
    + intros k. rewrite merge_partial_dicts_lookup.
      rewrite <-(dict_of_definitions_keys _ _ _ k Hm1).
      destruct (m2 !! k); [|done]. by rewrite fmap_is_Some.
    + by apply Hrelations.
Qed.

End BuilderReturns.

(** ** Several definitions of one name *)

Section LastDefinition.
Import Py IDL Collect Grammar Registry.

Variable relpath : string → string.
Variable parse_file : string → Node.

Lemma partial_is_not_non_partial x :
  filter_partial x = true → filter_non_partial x = true → False.
Proof.
  unfold filter_partial, filter_non_partial.
  intros [_ Hp]%andb_true_iff [_ Hn]%andb_true_iff.
  rewrite Hp in Hn. discriminate.
Qed.

Lemma implements_is_not_non_partial x :
  is_implements x = true → filter_non_partial x = true → False.
Proof.
  unfold is_implements, filter_non_partial.
  intros Hi%bool_decide_eq_true [Hn%bool_decide_eq_true _]%andb_true_iff.
  rewrite Hi in Hn. discriminate.
Qed.

(** Dropping the earlier non-partial definitions of a name changes the
    last kept definition of no name, in either pass. *)
Lemma last_named_without (keep : Node → bool) k before definition after :
  keep = filter_non_partial ∨ keep = filter_partial →
  filter_non_partial definition = true →
  last_named keep k
    (without_named (GetName definition) before ++ definition :: after)
  = last_named keep k (before ++ definition :: after).
Proof.
  intros Hpass Hdef. unfold last_named, without_named. rewrite !filter_app.
  destruct Hpass as [-> | ->].
  - destruct (decide (GetName definition = k)) as [Hk|Hk].
    + rewrite !filter_cons_True by done. by rewrite !last_app_cons.
    + rewrite list_filter_filter_l; [done|].
      intros x [_ Hx] [_ Hn]. congruence.
  - rewrite list_filter_filter_l; [done|].
    intros x [Hp _] [Hn _]. by eapply partial_is_not_non_partial.
Qed.

Lemma dict_of_definitions_without (keep : Node → bool) before definition after
    (m : gmap string InterfaceDict) :
  keep = filter_non_partial ∨ keep = filter_partial →
  filter_non_partial definition = true →
  dict_of_definitions relpath keep (before ++ definition :: after) ∅ = Ok m →
  dict_of_definitions relpath keep
    (without_named (GetName definition) before ++ definition :: after) ∅
  = Ok m.
Proof.
  intros Hpass Hdef Hm.
  destruct (dict_of_definitions_lookup relpath keep
              (without_named (GetName definition) before
               ++ definition :: after) ∅) as (m' & Hm' & _).
  { intros x Hx Hkeep.
    apply (dict_of_definitions_kept_are_extracted relpath _ _ _ _ Hm);
      [|done].
    apply elem_of_app in Hx as [Hx|Hx]; apply elem_of_app; [left|by right].
    unfold without_named in Hx. by apply list_elem_of_filter in Hx as [_ ?]. }
  rewrite Hm'. f_equal. apply map_eq. intros k.
  rewrite (dict_of_definitions_Ok_lookup relpath _ _ _ k Hm).
  rewrite (dict_of_definitions_Ok_lookup relpath _ _ _ k Hm').
  by rewrite last_named_without.
Qed.

Lemma implements_without name before definition after :
  filter (λ d, is_implements d = true)
    (without_named name before ++ definition :: after)
  = filter (λ d, is_implements d = true) (before ++ definition :: after).
Proof.
  rewrite !filter_app. unfold without_named.
  rewrite list_filter_filter_l; [done|].
  intros x Hi [Hn _]. by eapply implements_is_not_non_partial.
Qed.

(** The three passes and the two merges on a sound stream. *)
Lemma passes_return (definitions : list Node) :
  (∀ x, x ∈ definitions →
        GetClass x = _INTERFACE_CLASS_NAME → interface_ok x = true) →
  (∀ x, x ∈ definitions → is_implements x = true →
        truthy (get_reference x) = true →
        defines definitions (GetName x)
        ∧ ∃ k, get_reference x = PStr k ∧ defines definitions k) →
  ∃ m1 m2 final,
    dict_of_definitions relpath filter_non_partial definitions ∅ = Ok m1
    ∧ dict_of_definitions relpath filter_partial definitions ∅ = Ok m2
    ∧ merge_implement_node (merge_partial_dicts m1 m2)
        (filter (λ d, is_implements d = true) definitions) = Ok final.
Proof.
  intros Hshape Hrelations.
  destruct (dict_of_definitions_lookup relpath filter_non_partial definitions ∅)
    as (m1 & Hm1 & _).
  { intros x Hx Hkeep. apply interface_node_to_dict_is_Ok, Hshape; [done|].
    by eapply kept_is_interface; [left|]. }
  destruct (dict_of_definitions_lookup relpath filter_partial definitions ∅)
    as (m2 & Hm2 & _).
  { intros x Hx Hkeep. apply interface_node_to_dict_is_Ok, Hshape; [done|].
    by eapply kept_is_interface; [right|]. }
  exists m1, m2.
  pose proof (merge_implement_node_outcome (merge_partial_dicts m1 m2)
                (filter (λ d, is_implements d = true) definitions)) as Hout.
  destruct (merge_implement_node _ _) as [final|e]; [by eauto|].
  destruct Hout as [_ Hout]. apply not_true_iff_false in Hout.
  destruct Hout. apply Is_true_true, forallb_True, Forall_forall.
  intros x [Himpl Hx]%list_elem_of_filter. apply Is_true_true.
  apply (resolves_defines definitions).
  - intros k. rewrite merge_partial_dicts_lookup.
    rewrite <-(dict_of_definitions_keys relpath _ _ _ k Hm1).
    destruct (m2 !! k); [|done]. by rewrite fmap_is_Some.
  - by apply Hrelations.
Qed.

(** C10.  Let the corpus be sound, so that [main] builds a registry, and
    let a non-partial definition be the last one of its name in the
    stream.  The dictionary collected at lines 366-368 holds the
    dictionary of that definition under the name, and so does the
    registry that [main] builds: the record has that definition's name,
    path, extended attributes and parents, its member lists start with
    that definition's members, and it is that dictionary itself when no
    fragment and no processed relation targets the name.  The earlier
    definitions of the name are discarded: a corpus whose stream lacks
    them builds the same registry. *)
Theorem last_definition_wins (path_list : list string)
    before definition after :
  get_definitions parse_file path_list = before ++ definition :: after →
  filter_non_partial definition = true →
  (∀ later, later ∈ after → filter_non_partial later = true →
            GetName later ≠ GetName definition) →
  (∀ x, x ∈ before ++ definition :: after →
        GetClass x = _INTERFACE_CLASS_NAME → interface_ok x = true) →
  (∀ x, x ∈ before ++ definition :: after → is_implements x = true →
        truthy (get_reference x) = true →
        defines (before ++ definition :: after) (GetName x)
        ∧ ∃ k, get_reference x = PStr k
               ∧ defines (before ++ definition :: after) k) →
  ∃ d interfaces_dict final i,
    interface_node_to_dict relpath definition = Ok d
    ∧ dict_of_definitions relpath filter_non_partial
        (before ++ definition :: after) ∅ = Ok interfaces_dict
    ∧ interfaces_dict !! GetName definition = Some d
    ∧ build_registry relpath parse_file path_list = Ok final
    ∧ final !! GetName definition = Some i
    ∧ Name i = Name d ∧ FilePath i = FilePath d
    ∧ ExtAttributes i = ExtAttributes d ∧ Inherit i = Inherit d
    ∧ members_grow d i
    ∧ ((∀ x, x ∈ before ++ definition :: after →
             filter_partial x = true → GetName x ≠ GetName definition) →
       (∀ x, x ∈ before ++ definition :: after → is_implements x = true →
             truthy (get_reference x) = true →
             GetName x ≠ GetName definition) →
       i = d)
    ∧ (∀ (parse_file' : string → Node) (path_list' : list string),
         get_definitions parse_file' path_list'
         = without_named (GetName definition) before ++ definition :: after →
         build_registry relpath parse_file' path_list' = Ok final).
Proof.
  intros Hdefs Hkeep Hlast Hshape Hrelations.
  pose proof (passes_return _ Hshape Hrelations)
    as (m1 & m2 & final & Hm1 & Hm2 & Hfinal).
  destruct (dict_of_definitions_kept_are_extracted relpath _ _ _ _ Hm1
              definition) as [d Hd];
    [apply elem_of_app; right; by left|done|].
  assert (m1 !! GetName definition = Some d) as Hm1d.
  { destruct (dict_of_definitions_last relpath filter_non_partial
                before definition after d Hkeep Hlast) as (m & Hm & Hmd);
      [|done|].
    - by apply (dict_of_definitions_kept_are_extracted relpath _ _ _ _ Hm1).
    - rewrite Hm1 in Hm. by injection Hm as <-. }
  pose proof (merge_implement_node_frame _ _ _ Hfinal) as [Hframe Hsame].
  pose proof (merge_implement_node_grows _ _ _ (GetName definition) Hfinal)
    as Hgrow.
  specialize (Hsame (GetName definition)).
  pose proof (merge_partial_dicts_lookup m1 m2 (GetName definition)) as Hmerged.
  rewrite Hm1d in Hmerged.
  assert (∃ i1, merge_partial_dicts m1 m2 !! GetName definition = Some i1
                ∧ Name i1 = Name d ∧ FilePath i1 = FilePath d
                ∧ ExtAttributes i1 = ExtAttributes d
                ∧ Inherit i1 = Inherit d ∧ members_grow d i1
                ∧ (m2 !! GetName definition = None → i1 = d))
    as (i1 & Hi1 & I1 & I2 & I3 & I4 & Hg1 & Hsame1).
  { destruct (m2 !! GetName definition) as [fragment|].
    - eexists. split; [exact Hmerged|].
      split_and!; first [done|apply members_grow_merge_partial].
    - exists d. split; [done|].
      split_and!; first [done|apply members_grow_refl]. }
  rewrite Hi1 in Hsame, Hgrow.
  inversion Hsame as [? i (J1 & J2 & J3 & J4 & _) E1 Hi|]; subst.
  rewrite <-Hi in Hgrow. inversion Hgrow as [? ? Hg2|]; subst.
  exists d, m1, final, i. split_and!; try done; try congruence.
  - unfold build_registry. rewrite Hdefs, Hm1, bind_Ok_l, Hm2, bind_Ok_l.
    exact Hfinal.
  - by eapply members_grow_trans.
  - intros Hnofragment Hnotarget.
    rewrite Hframe in Hi.
    2:{ intros x [Himpl Hx]%list_elem_of_filter. by apply Hnotarget. }
    rewrite Hi1 in Hi. injection Hi as <-. apply Hsame1.
    destruct (m2 !! GetName definition) eqn:Hm2d; [|done].
    assert (is_Some (m2 !! GetName definition)) as Hsome by (by eauto).
    apply (dict_of_definitions_keys relpath _ _ _ _ Hm2) in Hsome
      as (x & Hx & Hxkeep & Hxname).
    by destruct (Hnofragment x Hx Hxkeep).
  - intros parse_file' path_list' Hdefs'.
    unfold build_registry. rewrite Hdefs'.
    rewrite (dict_of_definitions_without _ _ _ _ _ (or_introl eq_refl)
               Hkeep Hm1), bind_Ok_l.
    rewrite (dict_of_definitions_without _ _ _ _ _ (or_intror eq_refl)
               Hkeep Hm2), bind_Ok_l.
    rewrite implements_without. exact Hfinal.
Qed.

End LastDefinition.

Section LastDefinitionRun.
Import Py IDL Collect Grammar Registry.

Lemma twice_definitions :
  get_definitions Sample.parse_twice Sample.twice_paths
  = Sample.before_foo_new ++ Sample.foo_new :: [].
Proof. reflexivity. Qed.

(** The registry of the corpus in which [Foo] is defined twice, and of
    the corpus without the first definition. *)
Example twice_registry :
  build_registry Sample.relpath Sample.parse_twice Sample.twice_paths
  = Ok {[ "Bar" := Sample.interface_dict "Bar" "Bar.idl" [];
          "Foo" := Sample.interface_dict "Foo" "New.idl"
                     [Sample.attribute_dict "new" "long"] ]}
  ∧ build_registry Sample.relpath Sample.parse_once Sample.twice_paths
    = build_registry Sample.relpath Sample.parse_twice Sample.twice_paths.
Proof. split; vm_compute; reflexivity. Qed.

Lemma last_definition_wins_witness :
  ∃ d interfaces_dict final i,
    interface_node_to_dict Sample.relpath Sample.foo_new = Ok d
    ∧ dict_of_definitions Sample.relpath filter_non_partial
        (Sample.before_foo_new ++ Sample.foo_new :: []) ∅ = Ok interfaces_dict
    ∧ interfaces_dict !! GetName Sample.foo_new = Some d
    ∧ build_registry Sample.relpath Sample.parse_twice Sample.twice_paths
      = Ok final
    ∧ final !! GetName Sample.foo_new = Some i
    ∧ Name i = Name d ∧ FilePath i = FilePath d
    ∧ ExtAttributes i = ExtAttributes d ∧ Inherit i = Inherit d
    ∧ members_grow d i
    ∧ ((∀ x, x ∈ Sample.before_foo_new ++ Sample.foo_new :: [] →
             filter_partial x = true → GetName x ≠ GetName Sample.foo_new) →
       (∀ x, x ∈ Sample.before_foo_new ++ Sample.foo_new :: [] →
             is_implements x = true →
             truthy (get_reference x) = true →
             GetName x ≠ GetName Sample.foo_new) →
       i = d)
    ∧ (∀ (parse_file' : string → Node) (path_list' : list string),
         get_definitions parse_file' path_list'
         = without_named (GetName Sample.foo_new) Sample.before_foo_new
           ++ Sample.foo_new :: [] →
         build_registry Sample.relpath parse_file' path_list' = Ok final).
Proof.
  apply (last_definition_wins Sample.relpath Sample.parse_twice
           Sample.twice_paths).
  - exact twice_definitions.
  - reflexivity.
  - intros later Hlater. by apply elem_of_nil in Hlater.
  - intros x Hx _. unfold Sample.before_foo_new in Hx. simpl in Hx.
    repeat (apply elem_of_cons in Hx as [->|Hx]); [reflexivity..|].
    by apply elem_of_nil in Hx.
  - intros x Hx Himpl. unfold Sample.before_foo_new in Hx. simpl in Hx.
    repeat (apply elem_of_cons in Hx as [->|Hx]); [discriminate..|].
    by apply elem_of_nil in Hx.
Defined.

End LastDefinitionRun.

(** ** A corpus without interfaces *)

Section EmptyRegistry.
Import Py IDL Json Collect Grammar Registry.

Variable relpath : string → string.
Variable parse_file : string → Node.

Lemma dict_of_definitions_none_kept (keep : Node → bool) definitions
    (acc : gmap string InterfaceDict) :
  (∀ x, x ∈ definitions → keep x = false) →
  dict_of_definitions relpath keep definitions acc = Ok acc.
Proof.
  induction definitions as [|x rest IH]; intros Hkeep; [done|].
  cbn [dict_of_definitions]. rewrite (Hkeep x) by (by left).
  apply IH. intros y Hy. apply Hkeep. by right.
Qed.

Lemma merge_partial_dicts_empty (partials : gmap string InterfaceDict) :
  merge_partial_dicts ∅ partials = ∅.
Proof.
  apply map_eq. intros k. rewrite merge_partial_dicts_lookup, lookup_empty.
  by destruct (partials !! k).
Qed.

(** X19.  For a corpus without a non-partial interface, whose fragments
    are well formed and whose relations carry no reference, [main] writes
    the empty document: fragments alone create no record. *)
Theorem corpus_without_interfaces_gives_empty_document
    (_encoder : string → string) (path_list : list string) :
  (∀ x, x ∈ get_definitions parse_file path_list →
        filter_non_partial x = false) →
  (∀ x, x ∈ get_definitions parse_file path_list →
        filter_partial x = true → interface_ok x = true) →
  (∀ x, x ∈ get_definitions parse_file path_list →
        is_implements x = true → truthy (get_reference x) = false) →
  main relpath parse_file _encoder path_list = Ok "{}".
Proof.
  intros Hnone Hshape Hskip. unfold main, build_registry.
  set (definitions := get_definitions parse_file path_list) in *.
  rewrite (dict_of_definitions_none_kept _ _ _ Hnone), bind_Ok_l.
  destruct (dict_of_definitions_lookup relpath filter_partial definitions ∅)
    as (m2 & -> & _).
  { intros x Hx Hkeep. by apply interface_node_to_dict_is_Ok, Hshape. }
  rewrite bind_Ok_l, merge_partial_dicts_empty.
  rewrite merge_implement_node_all_skipped, bind_Ok_l.
  - unfold export_to_jsonfile, json_of_registry. by rewrite map_to_list_empty.
  - apply Forall_forall. intros x [Himpl Hx]%list_elem_of_filter.
    by apply Hskip.
Qed.

End EmptyRegistry.

Section EmptyRegistryRun.
Import Py IDL Json Collect Grammar Registry.

Lemma corpus_without_interfaces_gives_empty_document_witness :
  main Sample.relpath Sample.parse_file Sample.encode_basestring
    ["FooPart1.idl"]
  = Ok "{}".
Proof.
  apply corpus_without_interfaces_gives_empty_document.
  - intros x Hx. apply list_elem_of_singleton in Hx as ->. reflexivity.
  - intros x Hx _. apply list_elem_of_singleton in Hx as ->. reflexivity.
  - intros x Hx. apply list_elem_of_singleton in Hx as ->. discriminate.
Defined.

End EmptyRegistryRun.
